(** * PowerPC64 macro-assembler: instruction selection and its meaning

    A shallow embedding of the instruction-selection layer of
    [js/src/jit/ppc64/MacroAssembler-ppc64.cpp] and
    [js/src/jit/ppc64/MacroAssembler-ppc64-inl.h], and of the register
    names of [js/src/jit/ppc64/Architecture-ppc64.cpp].

    The macro-assembler appends instruction words to a buffer.  The
    embedding keeps the two levels of the source apart:

    - emission: every [ma_*] function of the source is a computation in
      the monad [M], whose state is the assembler ([MacroAssembler]) and
      whose failure is a tripped [MOZ_ASSERT] or [MOZ_CRASH];
    - execution: the instructions that the emitted sequences are made of
      have the meaning the Power ISA gives them, on a machine state with
      general purpose registers, condition register fields, the XER
      overflow bits and the reservation of load-reserve /
      store-conditional. *)

From Stdlib Require Import ZArith List Bool Lia.
From Stdlib Require String.
Import String.StringSyntax.
Delimit Scope string_scope with string.
Import ListNotations.
Local Open Scope Z_scope.

(* ================================================================= *)
(** ** Fixed-width integers *)

Module Bits.

(** [(uint64_t)x]. *)
Definition to_uint64 (x : Z) : Z := x mod 2 ^ 64.

(** [(uint32_t)x]. *)
Definition to_uint32 (x : Z) : Z := x mod 2 ^ 32.

(** [(uint16_t)x]. *)
Definition to_uint16 (x : Z) : Z := x mod 2 ^ 16.

(** The two's complement reading of the low [w] bits of [x]. *)
Definition signed (w : Z) (x : Z) : Z :=
  let y := x mod 2 ^ w in
  if y <? 2 ^ (w - 1) then y else y - 2 ^ w.

(** [(int16_t)x], [(int32_t)x], [(int64_t)x]. *)
Definition to_int16 : Z -> Z := signed 16.
Definition to_int32 : Z -> Z := signed 32.
Definition to_int64 : Z -> Z := signed 64.

Definition INT16_MIN : Z := -32768.
Definition INT16_MAX : Z := 32767.
Definition INT32_MIN : Z := -2147483648.
Definition INT32_MAX : Z := 2147483647.
Definition INT64_MIN : Z := - 2 ^ 63.
Definition INT64_MAX : Z := 2 ^ 63 - 1.

Definition is_int64 (x : Z) : bool := (INT64_MIN <=? x) && (x <=? INT64_MAX).
Definition is_uint64 (x : Z) : bool := (0 <=? x) && (x <? 2 ^ 64).

(** ROTL64 of the Power ISA: rotate a doubleword left by [n] bits. *)
Definition rotl64 (x n : Z) : Z :=
  let x := to_uint64 x in
  let n := n mod 64 in
  to_uint64 (Z.lor (Z.shiftl x n) (Z.shiftr x (64 - n))).

(** ROTL32 of the Power ISA: the low word is doubled, then rotated. *)
Definition rotl32 (x n : Z) : Z :=
  let w := to_uint32 x in
  rotl64 (Z.lor (Z.shiftl w 32) w) n.

(** MASK(mb, me) of the Power ISA, bit 0 being the most significant of
    64: ones from bit [mb] through bit [me], wrapping when [mb > me]. *)
Definition ones_from (b : Z) : Z := 2 ^ (64 - b) - 1.
Definition MASK (mb me : Z) : Z :=
  if mb <=? me
  then ones_from mb - ones_from (me + 1)
  else to_uint64 (Z.lnot (ones_from (me + 1) - ones_from mb)).

End Bits.
Import Bits.

(* ================================================================= *)
(** ** Registers, conditions and instructions *)

(** A general purpose register is its code, 0 to 31. *)
Definition Register : Type := Z.

Definition r0 : Register := 0.
Definition r1 : Register := 1.
Definition r3 : Register := 3.
Definition r4 : Register := 4.
Definition r5 : Register := 5.
Definition r12 : Register := 12.

(** Modelled from the spec: the register assignment of
    [Architecture-ppc64.h] is not among the sources.  The designated
    scratch registers are r0 and r12, as the sources say where they use
    them ("since ScratchRegister is r0", "r12 will likely have |length|
    in it", "'r0' for 'ra' indicates hard 0, not GPR r0"). *)
Definition ScratchRegister : Register := r0.
Definition SecondScratchReg : Register := r12.
Definition StackPointer : Register := r1.
Definition InvalidReg : Register := -1.

(** Condition register fields. *)
Inductive CRegisterID : Type := cr0 | cr1 | cr2 | cr3 | cr4 | cr5 | cr6 | cr7.

Definition CRegisterID_eqb (a b : CRegisterID) : bool :=
  match a, b with
  | cr0, cr0 | cr1, cr1 | cr2, cr2 | cr3, cr3
  | cr4, cr4 | cr5, cr5 | cr6, cr6 | cr7, cr7 => true
  | _, _ => false
  end.

(** The bit of a condition register field that a branch tests, and
    whether the branch is taken when the bit is set or when it is clear. *)
Inductive CRBit : Type := BitLT | BitGT | BitEQ | BitSO.

Inductive BranchSense : Type := BranchOnSet | BranchOnClear | BranchAlways.

(** Modelled from the spec: the [Condition] enumeration of
    [Assembler-ppc64.h] is not among the sources.  Following the data
    model of the specification a condition is a base comparator (the
    tested bit and the sense of the test) together with the modifier bits
    that the macro-assembler reads with [c & ConditionZero],
    [c & ConditionUnsigned] and [c & ConditionOnlyXER]. *)
Record Condition : Type := mkCondition {
  cond_bit : CRBit;
  cond_sense : BranchSense;
  ConditionUnsigned : bool;
  ConditionZero : bool;
  ConditionOnlyXER : bool
}.

Definition base_condition (b : CRBit) (s : BranchSense) : Condition :=
  mkCondition b s false false false.

Definition with_unsigned (c : Condition) : Condition :=
  mkCondition (cond_bit c) (cond_sense c) true (ConditionZero c) (ConditionOnlyXER c).

Definition with_zero (c : Condition) : Condition :=
  mkCondition (cond_bit c) (cond_sense c) (ConditionUnsigned c) true (ConditionOnlyXER c).

Definition Equal : Condition := base_condition BitEQ BranchOnSet.
Definition NotEqual : Condition := base_condition BitEQ BranchOnClear.
Definition GreaterThan : Condition := base_condition BitGT BranchOnSet.
Definition GreaterThanOrEqual : Condition := base_condition BitLT BranchOnClear.
Definition LessThan : Condition := base_condition BitLT BranchOnSet.
Definition LessThanOrEqual : Condition := base_condition BitGT BranchOnClear.
Definition SOBit : Condition := base_condition BitSO BranchOnSet.
Definition NSOBit : Condition := base_condition BitSO BranchOnClear.
Definition Always : Condition := base_condition BitLT BranchAlways.

Definition Above : Condition := with_unsigned GreaterThan.
Definition AboveOrEqual : Condition := with_unsigned GreaterThanOrEqual.
Definition Below : Condition := with_unsigned LessThan.
Definition BelowOrEqual : Condition := with_unsigned LessThanOrEqual.

Definition Zero : Condition := with_zero Equal.

Definition CRBit_eqb (a b : CRBit) : bool :=
  match a, b with
  | BitLT, BitLT | BitGT, BitGT | BitEQ, BitEQ | BitSO, BitSO => true
  | _, _ => false
  end.

Definition BranchSense_eqb (a b : BranchSense) : bool :=
  match a, b with
  | BranchOnSet, BranchOnSet | BranchOnClear, BranchOnClear
  | BranchAlways, BranchAlways => true
  | _, _ => false
  end.

Definition Condition_eqb (a b : Condition) : bool :=
  CRBit_eqb (cond_bit a) (cond_bit b)
  && BranchSense_eqb (cond_sense a) (cond_sense b)
  && Bool.eqb (ConditionUnsigned a) (ConditionUnsigned b)
  && Bool.eqb (ConditionZero a) (ConditionZero b)
  && Bool.eqb (ConditionOnlyXER a) (ConditionOnlyXER b).

(** [c == Always] in the source: the enumerator is compared as a whole. *)
Definition is_Always (c : Condition) : bool := Condition_eqb c Always.

(** [c < 0x100] in the source ("paranoia"): no modifier bit is set. *)
Definition no_modifier (c : Condition) : bool :=
  negb (ConditionUnsigned c) && negb (ConditionZero c) && negb (ConditionOnlyXER c).

(** Modelled from the spec: [InvertCondition] of [Assembler-ppc64.h] is
    not among the sources; it keeps the tested bit and the modifiers and
    reverses the sense of the test. *)
Definition InvertCondition (c : Condition) : Condition :=
  mkCondition (cond_bit c)
    (match cond_sense c with
     | BranchOnSet => BranchOnClear
     | BranchOnClear => BranchOnSet
     | BranchAlways => BranchAlways
     end)
    (ConditionUnsigned c) (ConditionZero c) (ConditionOnlyXER c).

Inductive LikelyBit : Type := NotLikelyB | LikelyB.
Inductive LinkBit : Type := DontLinkB | LinkB.
Inductive JumpKind : Type := LongJump | ShortJump.
Inductive TrapTag : Type := LongJumpTag | CallTag | StaticShortJumpTag.

Definition JumpKind_eqb (a b : JumpKind) : bool :=
  match a, b with
  | LongJump, LongJump | ShortJump, ShortJump => true
  | _, _ => false
  end.

(** The instructions that the modelled functions emit, one constructor
    per [as_*], [xs_*] or [x_*] emitter called by the source, with the
    operands in the order of the call. *)
Inductive Instr : Type :=
  (* immediates and logic *)
  | I_li (rd : Register) (im : Z)                    (* xs_li: addi rd,0,im *)
  | I_lis (rd : Register) (im : Z)                   (* xs_lis: addis rd,0,im *)
  | I_addi (rd ra : Register) (im : Z)
  | I_ori (ra rs : Register) (im : Z)
  | I_oris (ra rs : Register) (im : Z)
  | I_xori (ra rs : Register) (im : Z)
  | I_andi_rc (ra rs : Register) (im : Z)
  | I_or (ra rs rb : Register)
  | I_xor (ra rs rb : Register)
  | I_and (ra rs rb : Register)
  | I_nor (ra rs rb : Register)
  (* rotates and shifts *)
  | I_rldicr (ra rs : Register) (sh me : Z)
  | I_rldicl (ra rs : Register) (sh mb : Z)
  | I_rlwinm (ra rs : Register) (sh mb me : Z)
  | I_slw (ra rs rb : Register)
  | I_srw (ra rs rb : Register)
  (* arithmetic *)
  | I_add (rd ra rb : Register)
  | I_subf (rd ra rb : Register)
  | I_addo_rc (rd ra rb : Register)
  | I_subfo_rc (rd ra rb : Register)
  | I_extsb (ra rs : Register)
  | I_extsh (ra rs : Register)
  | I_extsw (ra rs : Register)
  (* compares *)
  | I_cmpd (ra rb : Register)
  | I_cmpld (ra rb : Register)
  | I_cmpw (ra rb : Register)
  | I_cmplw (ra rb : Register)
  | I_cmpdi (ra : Register) (im : Z)
  | I_cmpwi (ra : Register) (im : Z)
  | I_cmplwi (ra : Register) (im : Z)
  (* special purpose registers *)
  | I_mtxer (rs : Register)
  | I_mtctr (rs : Register)
  | I_mfcr (rd : Register)
  (* memory *)
  | I_lbz (rt ra : Register) (d : Z)
  | I_lhz (rt ra : Register) (d : Z)
  | I_lwz (rt ra : Register) (d : Z)
  | I_ld (rt ra : Register) (d : Z)
  | I_stb (rs ra : Register) (d : Z)
  | I_sth (rs ra : Register) (d : Z)
  | I_stw (rs ra : Register) (d : Z)
  | I_std (rs ra : Register) (d : Z)
  | I_lwarx (rt ra rb : Register)
  | I_ldarx (rt ra rb : Register)
  | I_stwcx (rs ra rb : Register)
  | I_stdcx (rs ra rb : Register)
  | I_lwsync
  (* control *)
  | I_bc (off : Z) (c : Condition) (cr : CRegisterID) (lkb : LikelyBit) (lb : LinkBit)
  | I_b (off : Z)
  | I_bctr (lb : LinkBit)
  | I_nop
  | I_trap
  | I_trap_tagged (tag : TrapTag)
  | I_word (w : Z).                                  (* writeInst of a raw word *)

(** The kinds of instruction that the claims single out. *)
Definition is_cond_branch (i : Instr) : bool :=
  match i with I_bc _ _ _ _ _ => true | _ => false end.

Definition is_memory_access (i : Instr) : bool :=
  match i with
  | I_lbz _ _ _ | I_lhz _ _ _ | I_lwz _ _ _ | I_ld _ _ _
  | I_stb _ _ _ | I_sth _ _ _ | I_stw _ _ _ | I_std _ _ _ => true
  | _ => false
  end.

Definition is_signed_compare (i : Instr) : bool :=
  match i with
  | I_cmpd _ _ | I_cmpw _ _ | I_cmpdi _ _ | I_cmpwi _ _ => true
  | _ => false
  end.

Definition is_unsigned_compare (i : Instr) : bool :=
  match i with
  | I_cmpld _ _ | I_cmplw _ _ | I_cmplwi _ _ => true
  | _ => false
  end.

Definition is_nop (i : Instr) : bool :=
  match i with I_nop => true | _ => false end.

(* ================================================================= *)
(** ** The machine that runs the emitted code *)

(** Modelled from the spec: the emitters of [Assembler-ppc64.cpp] only
    encode instructions, and neither they nor the processor are among the
    sources.  Each instruction is given the meaning the Power ISA gives
    it, which is also how the sources read them in their comments
    ("sldi", "srdi", "T = B - A", "XER[SO] -> CR0[SO]", "Whack XER[SO]").
    Registers hold doublewords as integers in [0, 2^64). *)
Module Machine.

Record CRField : Type := mkCR {
  crLT : bool;
  crGT : bool;
  crEQ : bool;
  crSO : bool
}.

Record State : Type := mkState {
  gpr : Register -> Z;
  cr : CRegisterID -> CRField;
  xer_so : bool;
  xer_ov : bool;
  xer_ca : bool;
  ctr : Z;
  reserve : option Z;          (* address reserved by lwarx / ldarx *)
  mem : Z -> Z                 (* bytes, by address *)
}.

Definition set_gpr (s : State) (r : Register) (v : Z) : State :=
  mkState (fun r' => if r' =? r then v else gpr s r')
          (cr s) (xer_so s) (xer_ov s) (xer_ca s) (ctr s) (reserve s) (mem s).

Definition set_cr (s : State) (f : CRegisterID) (v : CRField) : State :=
  mkState (gpr s)
          (fun f' => if CRegisterID_eqb f' f then v else cr s f')
          (xer_so s) (xer_ov s) (xer_ca s) (ctr s) (reserve s) (mem s).

Definition set_xer (s : State) (so ov ca : bool) : State :=
  mkState (gpr s) (cr s) so ov ca (ctr s) (reserve s) (mem s).

Definition set_ctr (s : State) (v : Z) : State :=
  mkState (gpr s) (cr s) (xer_so s) (xer_ov s) (xer_ca s) v (reserve s) (mem s).

Definition set_reserve (s : State) (v : option Z) : State :=
  mkState (gpr s) (cr s) (xer_so s) (xer_ov s) (xer_ca s) (ctr s) v (mem s).

Definition set_mem (s : State) (m : Z -> Z) : State :=
  mkState (gpr s) (cr s) (xer_so s) (xer_ov s) (xer_ca s) (ctr s) (reserve s) m.

(** A base register operand: register 0 stands for the value 0. *)
Definition base_or_zero (s : State) (ra : Register) : Z :=
  if ra =? 0 then 0 else gpr s ra.

(** The result of a compare: LT, GT, EQ and a copy of XER[SO]. *)
Definition compare (a b : Z) (so : bool) : CRField :=
  mkCR (a <? b) (b <? a) (a =? b) so.

(** Little-endian memory access of [n] bytes. *)
Fixpoint load_bytes (m : Z -> Z) (a : Z) (n : nat) : Z :=
  match n with
  | O => 0
  | S n' => m a mod 256 + 256 * load_bytes m (a + 1) n'
  end.

Fixpoint store_bytes (m : Z -> Z) (a : Z) (n : nat) (v : Z) : Z -> Z :=
  match n with
  | O => m
  | S n' =>
      store_bytes (fun a' => if a' =? a then v mod 256 else m a') (a + 1) n' (v / 256)
  end.

Definition load (s : State) (rt ra : Register) (d : Z) (n : nat) : State :=
  set_gpr s rt (load_bytes (mem s) (to_uint64 (base_or_zero s ra + to_int16 d)) n).

Definition store (s : State) (rs ra : Register) (d : Z) (n : nat) : State :=
  set_mem s (store_bytes (mem s) (to_uint64 (base_or_zero s ra + to_int16 d)) n (gpr s rs)).

Definition load_reserve (s : State) (rt ra rb : Register) (n : nat) : State :=
  let ea := to_uint64 (base_or_zero s ra + gpr s rb) in
  set_gpr (set_reserve s (Some ea)) rt (load_bytes (mem s) ea n).

(** Store-conditional: the store is performed and CR0[EQ] is set when
    the reservation is still held for the address; otherwise nothing is
    stored and CR0[EQ] is cleared.  The reservation is given up either
    way. *)
Definition store_conditional (s : State) (rs ra rb : Register) (n : nat) : State :=
  let ea := to_uint64 (base_or_zero s ra + gpr s rb) in
  let held := match reserve s with
              | Some a => a =? ea
              | None => false
              end in
  let s1 := if held
            then set_mem s (store_bytes (mem s) ea n (gpr s rs))
            else s in
  set_reserve (set_cr s1 cr0 (mkCR false false held (xer_so s))) None.

(** The condition register as the word that mfcr reads. *)
Definition cr_nibble (f : CRField) : Z :=
  (if crLT f then 8 else 0) + (if crGT f then 4 else 0)
  + (if crEQ f then 2 else 0) + (if crSO f then 1 else 0).

Definition cr_word (s : State) : Z :=
  fold_left (fun acc f => 16 * acc + cr_nibble (cr s f))
            [cr0; cr1; cr2; cr3; cr4; cr5; cr6; cr7] 0.

(** Signed overflow of a doubleword sum. *)
Definition overflows (x : Z) : bool := negb (is_int64 x).

(** add with OE = 1 and Rc = 1. *)
Definition arith_o_rc (s : State) (rd : Register) (exact : Z) : State :=
  let ov := overflows exact in
  let so := xer_so s || ov in
  let res := to_uint64 exact in
  set_cr (set_xer (set_gpr s rd res) so ov (xer_ca s))
         cr0 (compare (to_int64 res) 0 so).

(** One instruction that is not a transfer of control. *)
Definition exec (i : Instr) (s : State) : option State :=
  match i with
  | I_li rd im => Some (set_gpr s rd (to_uint64 (to_int16 im)))
  | I_lis rd im => Some (set_gpr s rd (to_uint64 (to_int16 im * 65536)))
  | I_addi rd ra im =>
      Some (set_gpr s rd (to_uint64 (base_or_zero s ra + to_int16 im)))
  | I_ori ra rs im => Some (set_gpr s ra (Z.lor (gpr s rs) (to_uint16 im)))
  | I_oris ra rs im =>
      Some (set_gpr s ra (Z.lor (gpr s rs) (Z.shiftl (to_uint16 im) 16)))
  | I_xori ra rs im => Some (set_gpr s ra (Z.lxor (gpr s rs) (to_uint16 im)))
  | I_andi_rc ra rs im =>
      let res := Z.land (gpr s rs) (to_uint16 im) in
      Some (set_cr (set_gpr s ra res) cr0 (compare (to_int64 res) 0 (xer_so s)))
  | I_or ra rs rb => Some (set_gpr s ra (Z.lor (gpr s rs) (gpr s rb)))
  | I_xor ra rs rb => Some (set_gpr s ra (Z.lxor (gpr s rs) (gpr s rb)))
  | I_and ra rs rb => Some (set_gpr s ra (Z.land (gpr s rs) (gpr s rb)))
  | I_nor ra rs rb =>
      Some (set_gpr s ra (to_uint64 (Z.lnot (Z.lor (gpr s rs) (gpr s rb)))))
  | I_rldicr ra rs sh me =>
      Some (set_gpr s ra (Z.land (rotl64 (gpr s rs) sh) (MASK 0 me)))
  | I_rldicl ra rs sh mb =>
      Some (set_gpr s ra (Z.land (rotl64 (gpr s rs) sh) (MASK mb 63)))
  | I_rlwinm ra rs sh mb me =>
      Some (set_gpr s ra (Z.land (rotl32 (gpr s rs) sh) (MASK (mb + 32) (me + 32))))
  | I_slw ra rs rb =>
      let n := gpr s rb mod 64 in
      Some (set_gpr s ra
              (if n <? 32 then to_uint32 (Z.shiftl (to_uint32 (gpr s rs)) n) else 0))
  | I_srw ra rs rb =>
      let n := gpr s rb mod 64 in
      Some (set_gpr s ra
              (if n <? 32 then Z.shiftr (to_uint32 (gpr s rs)) n else 0))
  | I_add rd ra rb => Some (set_gpr s rd (to_uint64 (gpr s ra + gpr s rb)))
  | I_subf rd ra rb => Some (set_gpr s rd (to_uint64 (gpr s rb - gpr s ra)))
  | I_addo_rc rd ra rb =>
      Some (arith_o_rc s rd (to_int64 (gpr s ra) + to_int64 (gpr s rb)))
  | I_subfo_rc rd ra rb =>
      Some (arith_o_rc s rd (to_int64 (gpr s rb) - to_int64 (gpr s ra)))
  | I_extsb ra rs => Some (set_gpr s ra (to_uint64 (signed 8 (gpr s rs))))
  | I_extsh ra rs => Some (set_gpr s ra (to_uint64 (signed 16 (gpr s rs))))
  | I_extsw ra rs => Some (set_gpr s ra (to_uint64 (signed 32 (gpr s rs))))
  | I_cmpd ra rb =>
      Some (set_cr s cr0 (compare (to_int64 (gpr s ra)) (to_int64 (gpr s rb)) (xer_so s)))
  | I_cmpld ra rb =>
      Some (set_cr s cr0 (compare (to_uint64 (gpr s ra)) (to_uint64 (gpr s rb)) (xer_so s)))
  | I_cmpw ra rb =>
      Some (set_cr s cr0 (compare (to_int32 (gpr s ra)) (to_int32 (gpr s rb)) (xer_so s)))
  | I_cmplw ra rb =>
      Some (set_cr s cr0 (compare (to_uint32 (gpr s ra)) (to_uint32 (gpr s rb)) (xer_so s)))
  | I_cmpdi ra im =>
      Some (set_cr s cr0 (compare (to_int64 (gpr s ra)) (to_int16 im) (xer_so s)))
  | I_cmpwi ra im =>
      Some (set_cr s cr0 (compare (to_int32 (gpr s ra)) (to_int16 im) (xer_so s)))
  | I_cmplwi ra im =>
      Some (set_cr s cr0 (compare (to_uint32 (gpr s ra)) (to_uint16 im) (xer_so s)))
  | I_mtxer rs =>
      Some (set_xer s (Z.testbit (gpr s rs) 31) (Z.testbit (gpr s rs) 30)
                    (Z.testbit (gpr s rs) 29))
  | I_mtctr rs => Some (set_ctr s (gpr s rs))
  | I_mfcr rd => Some (set_gpr s rd (cr_word s))
  | I_lbz rt ra d => Some (load s rt ra d 1)
  | I_lhz rt ra d => Some (load s rt ra d 2)
  | I_lwz rt ra d => Some (load s rt ra d 4)
  | I_ld rt ra d => Some (load s rt ra d 8)
  | I_stb rs ra d => Some (store s rs ra d 1)
  | I_sth rs ra d => Some (store s rs ra d 2)
  | I_stw rs ra d => Some (store s rs ra d 4)
  | I_std rs ra d => Some (store s rs ra d 8)
  | I_lwarx rt ra rb => Some (load_reserve s rt ra rb 4)
  | I_ldarx rt ra rb => Some (load_reserve s rt ra rb 8)
  | I_stwcx rs ra rb => Some (store_conditional s rs ra rb 4)
  | I_stdcx rs ra rb => Some (store_conditional s rs ra rb 8)
  | I_lwsync | I_nop => Some s
  | I_bc _ _ _ _ _ | I_b _ | I_bctr _
  | I_trap | I_trap_tagged _ | I_word _ => None
  end.

(** A straight-line sequence. *)
Fixpoint run (code : list Instr) (s : State) : option State :=
  match code with
  | [] => Some s
  | i :: rest =>
      match exec i s with
      | Some s' => run rest s'
      | None => None
      end
  end.

(** Whether a branch on condition [c] tests true on a field. *)
Definition cond_holds (c : Condition) (f : CRField) : bool :=
  let b := match cond_bit c with
           | BitLT => crLT f
           | BitGT => crGT f
           | BitEQ => crEQ f
           | BitSO => crSO f
           end in
  match cond_sense c with
  | BranchOnSet => b
  | BranchOnClear => negb b
  | BranchAlways => true
  end.

(** Whether a conditional branch instruction is taken in a state. *)
Definition branch_taken (i : Instr) (s : State) : option bool :=
  match i with
  | I_bc _ c f _ _ => Some (cond_holds c (cr s f))
  | _ => None
  end.

(** A state to run examples from: every register holds [v]. *)
Definition init (v : Z) : State :=
  mkState (fun _ => v) (fun _ => mkCR false false false false)
          false false false 0 None (fun _ => 0).

End Machine.

(* ================================================================= *)
(** ** The assembler buffer and the emission monad *)

Inductive RelocationKind : Type := HARDCODED | JITCODE.

(** The assembler: the append-only buffer of instruction words, the
    sites recorded by [addLongJump] and the relocations recorded by
    [addPendingJump]. *)
Record MacroAssembler : Type := mkMasm {
  m_buffer : list Instr;
  longJumps_ : list Z;
  jumps_ : list (Z * Z * RelocationKind)
}.

Definition emptyMasm : MacroAssembler := mkMasm [] [] [].

(** [nextOffset().getOffset()]: the byte offset of the next word. *)
Definition nextOffset (m : MacroAssembler) : Z := 4 * Z.of_nat (length (m_buffer m)).

(** An emission either completes with a value and the new assembler, or
    stops at a tripped [MOZ_ASSERT] / [MOZ_CRASH] (a debug build), keeping
    the assembler as it was at that point. *)
Inductive Outcome (A : Type) : Type :=
  | Done (a : A) (m : MacroAssembler)
  | Crashed (m : MacroAssembler).
Arguments Done {A} a m.
Arguments Crashed {A} m.

Definition M (A : Type) : Type := MacroAssembler -> Outcome A.

Definition ret {A : Type} (a : A) : M A := fun m => Done a m.

Definition bindM {A B : Type} (c : M A) (k : A -> M B) : M B :=
  fun m =>
    match c m with
    | Done a m' => k a m'
    | Crashed m' => Crashed m'
    end.

Declare Scope masm_scope.
Delimit Scope masm_scope with masm.
Notation "x <- c ;; k" := (bindM c (fun x => k))
  (at level 61, c at next level, right associativity) : masm_scope.
Notation "c ;; k" := (bindM c (fun _ => k))
  (at level 61, right associativity) : masm_scope.
Local Open Scope masm_scope.

Definition MOZ_ASSERT (b : bool) : M unit :=
  fun m => if b then Done tt m else Crashed m.

Definition MOZ_CRASH {A : Type} : M A := fun m => Crashed m.

Definition when (b : bool) (c : M unit) : M unit := if b then c else ret tt.

(** [writeInst]: append one word, answer the offset it was written at. *)
Definition writeInst (i : Instr) : M Z :=
  fun m => Done (nextOffset m)
                (mkMasm (m_buffer m ++ [i]) (longJumps_ m) (jumps_ m)).

Definition currentOffset : M Z := fun m => Done (nextOffset m) m.

Definition addLongJump (src : Z) : M unit :=
  fun m => Done tt (mkMasm (m_buffer m) (longJumps_ m ++ [src]) (jumps_ m)).

Definition addPendingJump (src target : Z) (kind : RelocationKind) : M unit :=
  fun m => Done tt (mkMasm (m_buffer m) (longJumps_ m) (jumps_ m ++ [(src, target, kind)])).

(** [m_buffer.ensureSpace] keeps a stanza contiguous in the buffer's
    slices; the buffer of the model is one list, so nothing is to do. *)
Definition ensureSpace (bytes : Z) : M unit := ret tt.

(** The words an emission adds to an assembler, and its final state. *)
Definition finalMasm {A : Type} (o : Outcome A) : MacroAssembler :=
  match o with
  | Done _ m => m
  | Crashed m => m
  end.

Definition completed {A : Type} (o : Outcome A) : bool :=
  match o with
  | Done _ _ => true
  | Crashed _ => false
  end.

Definition emitted {A : Type} (c : M A) (m : MacroAssembler) : list Instr :=
  skipn (length (m_buffer m)) (m_buffer (finalMasm (c m))).

(* ----------------------------------------------------------------- *)
(** *** Instruction emitters *)

(** Modelled from the spec: the [as_*], [xs_*] and [x_*] emitters of
    [Assembler-ppc64.cpp] are not among the sources; each appends the one
    instruction it is named after.  The extended mnemonics are spelled
    out as the sources themselves do in [ma_dsrl] ("srdi" is rldicl). *)
Definition xs_li (rd : Register) (im : Z) : M Z := writeInst (I_li rd im).
Definition xs_lis (rd : Register) (im : Z) : M Z := writeInst (I_lis rd im).
Definition as_addi (rd ra : Register) (im : Z) : M Z := writeInst (I_addi rd ra im).
Definition as_ori (ra rs : Register) (im : Z) : M Z := writeInst (I_ori ra rs im).
Definition as_oris (ra rs : Register) (im : Z) : M Z := writeInst (I_oris ra rs im).
Definition as_xori (ra rs : Register) (im : Z) : M Z := writeInst (I_xori ra rs im).
Definition as_andi_rc (ra rs : Register) (im : Z) : M Z := writeInst (I_andi_rc ra rs im).
Definition as_or (ra rs rb : Register) : M Z := writeInst (I_or ra rs rb).
Definition as_xor (ra rs rb : Register) : M Z := writeInst (I_xor ra rs rb).
Definition as_and (ra rs rb : Register) : M Z := writeInst (I_and ra rs rb).
Definition as_nor (ra rs rb : Register) : M Z := writeInst (I_nor ra rs rb).
Definition as_rldicr (ra rs : Register) (sh me : Z) : M Z := writeInst (I_rldicr ra rs sh me).
Definition as_rldicl (ra rs : Register) (sh mb : Z) : M Z := writeInst (I_rldicl ra rs sh mb).
Definition as_rlwinm (ra rs : Register) (sh mb me : Z) : M Z :=
  writeInst (I_rlwinm ra rs sh mb me).
Definition as_slw (ra rs rb : Register) : M Z := writeInst (I_slw ra rs rb).
Definition as_srw (ra rs rb : Register) : M Z := writeInst (I_srw ra rs rb).
Definition as_add (rd ra rb : Register) : M Z := writeInst (I_add rd ra rb).
Definition as_subf (rd ra rb : Register) : M Z := writeInst (I_subf rd ra rb).
Definition as_addo_rc (rd ra rb : Register) : M Z := writeInst (I_addo_rc rd ra rb).
Definition as_subfo_rc (rd ra rb : Register) : M Z := writeInst (I_subfo_rc rd ra rb).
Definition as_extsb (ra rs : Register) : M Z := writeInst (I_extsb ra rs).
Definition as_extsh (ra rs : Register) : M Z := writeInst (I_extsh ra rs).
Definition as_extsw (ra rs : Register) : M Z := writeInst (I_extsw ra rs).
Definition as_cmpd (ra rb : Register) : M Z := writeInst (I_cmpd ra rb).
Definition as_cmpld (ra rb : Register) : M Z := writeInst (I_cmpld ra rb).
Definition as_cmpw (ra rb : Register) : M Z := writeInst (I_cmpw ra rb).
Definition as_cmplw (ra rb : Register) : M Z := writeInst (I_cmplw ra rb).
Definition as_cmpdi (ra : Register) (im : Z) : M Z := writeInst (I_cmpdi ra im).
Definition as_cmpwi (ra : Register) (im : Z) : M Z := writeInst (I_cmpwi ra im).
Definition as_cmplwi (ra : Register) (im : Z) : M Z := writeInst (I_cmplwi ra im).
Definition xs_mtxer (rs : Register) : M Z := writeInst (I_mtxer rs).
Definition xs_mtctr (rs : Register) : M Z := writeInst (I_mtctr rs).
Definition as_mfcr (rd : Register) : M Z := writeInst (I_mfcr rd).
Definition as_lbz (rt ra : Register) (d : Z) : M Z := writeInst (I_lbz rt ra d).
Definition as_lhz (rt ra : Register) (d : Z) : M Z := writeInst (I_lhz rt ra d).
Definition as_lwz (rt ra : Register) (d : Z) : M Z := writeInst (I_lwz rt ra d).
Definition as_ld (rt ra : Register) (d : Z) : M Z := writeInst (I_ld rt ra d).
Definition as_stb (rs ra : Register) (d : Z) : M Z := writeInst (I_stb rs ra d).
Definition as_sth (rs ra : Register) (d : Z) : M Z := writeInst (I_sth rs ra d).
Definition as_stw (rs ra : Register) (d : Z) : M Z := writeInst (I_stw rs ra d).
Definition as_std (rs ra : Register) (d : Z) : M Z := writeInst (I_std rs ra d).
Definition as_lwarx (rt ra rb : Register) : M Z := writeInst (I_lwarx rt ra rb).
Definition as_ldarx (rt ra rb : Register) : M Z := writeInst (I_ldarx rt ra rb).
Definition as_stwcx (rs ra rb : Register) : M Z := writeInst (I_stwcx rs ra rb).
Definition as_stdcx (rs ra rb : Register) : M Z := writeInst (I_stdcx rs ra rb).
Definition as_lwsync : M Z := writeInst I_lwsync.
Definition as_bc (off : Z) (c : Condition) (cr : CRegisterID)
                 (lkb : LikelyBit) (lb : LinkBit) : M Z :=
  writeInst (I_bc off c cr lkb lb).
Definition as_b (off : Z) : M Z := writeInst (I_b off).
Definition as_bctr (lb : LinkBit) : M Z := writeInst (I_bctr lb).
Definition as_nop : M Z := writeInst I_nop.
Definition xs_trap : M Z := writeInst I_trap.
Definition xs_trap_tagged (tag : TrapTag) : M Z := writeInst (I_trap_tagged tag).
Definition x_srdi (ra rs : Register) (n : Z) : M Z := as_rldicl ra rs (64 - n) n.
Definition x_slwi (ra rs : Register) (n : Z) : M Z := as_rlwinm ra rs n 0 (31 - n).

(* ----------------------------------------------------------------- *)
(** *** Immediates, addresses and labels *)

(** Modelled from the spec: the immediate classes of [Assembler-ppc64.h]
    and [Assembler-shared.h] are not among the sources.  [Imm32] holds an
    [int32_t]; [Imm16::Upper] and [Imm16::Lower] are the two halfwords of
    one; the signed and unsigned ranges are those of a 16-bit field. *)
Definition Imm32 (v : Z) : Z := to_int32 v.
Definition Imm16_Upper (imm32 : Z) : Z := Z.land (Z.shiftr imm32 16) 0xffff.
Definition Imm16_Lower (imm32 : Z) : Z := Z.land imm32 0xffff.
Definition Imm16_encode (v : Z) : Z := to_uint16 v.
Definition Imm16_IsInSignedRange (v : Z) : bool := (INT16_MIN <=? v) && (v <=? INT16_MAX).
Definition Imm16_IsInUnsignedRange (v : Z) : bool := (0 <=? v) && (v <=? 65535).

(** Modelled from the spec: [BOffImm16] and [JOffImm26], the
    displacement fields of the conditional and the unconditional branch,
    are not among the sources.  The short-branch range is the signed
    16-bit range; the two low bits of a displacement are not encoded. *)
Definition BOffImm16_IsInSignedRange (off : Z) : bool :=
  (INT16_MIN <=? off) && (off <=? INT16_MAX).
Definition BOffImm16_encode (off : Z) : Z := Z.land off 0xFFFC.
Definition JOffImm26_IsInRange (off : Z) : bool :=
  (- 2 ^ 25 <=? off) && (off <? 2 ^ 25).

Record Address : Type := mkAddress {
  base : Register;
  offset : Z                       (* int32_t *)
}.

(** Modelled from the spec: [Label] of [jit/Label.h] is not among the
    sources.  An unbound label carries the offset of the latest use, the
    head of its use chain, or [INVALID_OFFSET] when it has none; a bound
    label carries its final offset. *)
Definition INVALID_OFFSET : Z := 0x7fffffff.

Record Label : Type := mkLabel {
  offset_ : Z;
  bound_ : bool
}.

Definition newLabel : Label := mkLabel INVALID_OFFSET false.
Definition bound (l : Label) : bool := bound_ l.
Definition used (l : Label) : bool := negb (bound_ l) && (offset_ l <? INVALID_OFFSET).
Definition Label_offset (l : Label) : Z := offset_ l.
Definition Label_use (l : Label) (off : Z) : Label := mkLabel off false.
Definition Label_bind (l : Label) (off : Z) : Label := mkLabel off true.

Inductive LoadStoreExtension : Type := ZeroExtend | SignExtend.

(** [LoadStoreSize]: the enumerators are the widths in bits, which is
    why the sources can write [static_cast<LoadStoreSize>(8 * byteSize)]. *)
Definition LoadStoreSize : Type := Z.
Definition SizeByte : LoadStoreSize := 8.
Definition SizeHalfWord : LoadStoreSize := 16.
Definition SizeWord : LoadStoreSize := 32.
Definition SizeDouble : LoadStoreSize := 64.

(* ================================================================= *)
(** ** The macro-assembler, function by function *)

(* ----------------------------------------------------------------- *)
(** *** Immediate materialization *)

(** [MacroAssemblerPPC64::ma_li(Register dest, int64_t value)]. *)
Definition ma_li (dest : Register) (value : Z) : M unit :=
  let bits := to_uint64 value in
  (* Handle trivial 16-bit quantities. *)
  if (value >? -32769) && (value <? 32768) then
    xs_li dest value ;; ret tt
  else if (Z.land bits 0xffffffff0000ffff =? 0)
          || (Z.land bits 0xffffffff0000ffff =? 0xffffffff00000000) then
    xs_lis dest (Z.shiftr value 16) ;; ret tt
  else
    (* Emit optimized sequence based on occupied bits. *)
    loweronly <-
      (if negb (Z.land bits 0xffff000000000000 =? 0) then
         xs_lis dest (Z.shiftr bits 48) ;;
         when (negb (Z.land bits 0x0000ffff00000000 =? 0))
              (as_ori dest dest (Z.land (Z.shiftr bits 32) 0xffff) ;; ret tt) ;;
         as_rldicr dest dest 32 31 ;;
         ret false
       else if negb (Z.land bits 0x0000ffff00000000 =? 0) then
         xs_li dest (Z.land (Z.shiftr bits 32) 0xffff) ;;
         as_rldicr dest dest 32 31 ;;
         ret false
       else ret true) ;;
    (* Now the lower word. *)
    let bits := Z.land bits 0x00000000ffffffff in
    if negb (Z.land bits 0xffff0000 =? 0) then
      (if loweronly : bool
       then xs_lis dest (Z.shiftr bits 16)
       else as_oris dest dest (Z.shiftr bits 16)) ;;
      when (negb (Z.land bits 0x0000ffff =? 0))
           (as_ori dest dest (Z.land bits 0xffff) ;; ret tt)
    else if negb (Z.land bits 0x0000ffff =? 0) then
      (if loweronly : bool
       then xs_li dest (Z.land bits 0xffff)
       else as_ori dest dest (Z.land bits 0xffff)) ;;
      ret tt
    else ret tt.

(** [ma_li(Register dest, ImmWord imm)]: [ma_li(dest, (uint64_t)imm.value)],
    the argument converting to the [int64_t] parameter. *)
Definition ma_li_ImmWord (dest : Register) (imm : Z) : M unit :=
  ma_li dest (to_int64 (to_uint64 imm)).

(** [ma_li(Register dest, Imm32 imm)]: [ma_li(dest, (uint64_t)imm.value)]. *)
Definition ma_li_Imm32 (dest : Register) (imm : Z) : M unit :=
  ma_li dest (to_int64 (to_uint64 (Imm32 imm))).

(** [MacroAssemblerPPC64::ma_liPatchable(Register dest, ImmWord imm)]. *)
Definition ma_liPatchable (dest : Register) (imm : Z) : M unit :=
  let imm := to_uint64 imm in
  (* 64-bit load. *)
  ensureSpace (5 * 4) ;;
  xs_lis dest (Imm16_encode (Imm16_Upper (Imm32 (Z.shiftr imm 32)))) ;;
  as_ori dest dest (Imm16_encode (Imm16_Lower (Imm32 (Z.shiftr imm 32)))) ;;
  as_rldicr dest dest 32 31 ;;
  as_oris dest dest (Imm16_encode (Imm16_Upper (Imm32 imm))) ;;
  as_ori dest dest (Imm16_encode (Imm16_Lower (Imm32 imm))) ;;
  ret tt.

(** [ma_liPatchable(Register dest, ImmPtr imm)]. *)
Definition ma_liPatchable_ImmPtr (dest : Register) (imm : Z) : M unit :=
  ma_liPatchable dest (to_uint64 imm).

(** [mov(ImmWord, Register)] is [movePtr(ImmWord, Register)], which is
    [ma_li(dest, imm)]. *)
Definition movePtr_ImmWord (imm : Z) (dest : Register) : M unit := ma_li_ImmWord dest imm.

(* ----------------------------------------------------------------- *)
(** *** Moves, logic and arithmetic *)

Definition ma_move (rd rs : Register) : M unit := as_or rd rs rs ;; ret tt.
Definition movePtr (src dest : Register) : M unit := ma_move dest src.

(** [MacroAssembler::move64To32(Register64 src, Register dest)]. *)
Definition move64To32 (src dest : Register) : M unit :=
  as_or dest src src ;; ret tt.

(** [ma_add(Register rd, Register rs, Imm32 imm)]. *)
Definition ma_add (rd rs : Register) (imm : Z) : M unit :=
  MOZ_ASSERT (negb (rs =? ScratchRegister)) ;;
  if Imm16_IsInSignedRange imm then
    as_addi rd rs imm ;; ret tt
  else
    ma_li_Imm32 ScratchRegister imm ;;
    as_add rd rs ScratchRegister ;; ret tt.

(** Modelled from the spec: [computeEffectiveAddress(const Address&,
    Register)] is declared in [MacroAssembler-ppc64.h], which is not among
    the sources; the effective address is the base plus the constant
    offset. *)
Definition computeEffectiveAddress (address : Address) (dest : Register) : M unit :=
  ma_add dest (base address) (offset address).

(* ----------------------------------------------------------------- *)
(** *** Loads and stores *)

(** [MacroAssemblerPPC64::ma_load]. *)
Definition ma_load (dest : Register) (address : Address)
                   (size : LoadStoreSize) (extension : LoadStoreExtension) : M unit :=
  MOZ_ASSERT (match extension with ZeroExtend | SignExtend => true end) ;;
  be <-
    (if negb (Imm16_IsInSignedRange (offset address)) || (base address =? ScratchRegister)
     then
       MOZ_ASSERT (negb (base address =? SecondScratchReg)) ;;
       ma_li_Imm32 SecondScratchReg (offset address) ;;
       as_add SecondScratchReg (base address) SecondScratchReg ;;
       ret (SecondScratchReg, 0)
     else
       MOZ_ASSERT (negb (base address =? ScratchRegister)) ;;
       ret (base address, to_int16 (Imm16_encode (offset address)))) ;;
  let '(base, encodedOffset) := be in
  let sign := match extension with SignExtend => true | ZeroExtend => false end in
  if size =? SizeByte then
    as_lbz dest base encodedOffset ;;
    when sign (as_extsb dest dest ;; ret tt)
  else if size =? SizeHalfWord then
    as_lhz dest base encodedOffset ;;
    when sign (as_extsh dest dest ;; ret tt)
  else if size =? SizeWord then
    as_lwz dest base encodedOffset ;;
    when sign (as_extsw dest dest ;; ret tt)
  else if size =? SizeDouble then
    as_ld dest base encodedOffset ;; ret tt
  else MOZ_CRASH.

(** [MacroAssemblerPPC64::ma_store]. *)
Definition ma_store (data : Register) (address : Address)
                    (size : LoadStoreSize) (extension : LoadStoreExtension) : M unit :=
  be <-
    (if negb (Imm16_IsInSignedRange (offset address)) || (base address =? ScratchRegister)
     then
       MOZ_ASSERT (negb (base address =? SecondScratchReg)) ;;
       ma_li_Imm32 SecondScratchReg (offset address) ;;
       as_add SecondScratchReg (base address) SecondScratchReg ;;
       ret (SecondScratchReg, 0)
     else
       MOZ_ASSERT (negb (base address =? ScratchRegister)) ;;
       ret (base address, to_int16 (Imm16_encode (offset address)))) ;;
  let '(base, encodedOffset) := be in
  if size =? SizeByte then as_stb data base encodedOffset ;; ret tt
  else if size =? SizeHalfWord then as_sth data base encodedOffset ;; ret tt
  else if size =? SizeWord then as_stw data base encodedOffset ;; ret tt
  else if size =? SizeDouble then as_std data base encodedOffset ;; ret tt
  else MOZ_CRASH.

(* ----------------------------------------------------------------- *)
(** *** Branches *)

(** [MacroAssemblerPPC64::ma_bc(CRegisterID cr, T c, Label* label,
    JumpKind jumpKind)], at [T = Condition].  The label is passed by
    pointer and updated by [label->use]; the model answers the label as
    the call leaves it. *)
Definition ma_bc_cr (cr : CRegisterID) (c : Condition) (label : Label)
                    (jumpKind : JumpKind) : M Label :=
  if bound label then
    next <- currentOffset ;;
    let offset := to_int32 (Label_offset label - next) in
    let jumpKind := if BOffImm16_IsInSignedRange offset then ShortJump else jumpKind in
    if JumpKind_eqb jumpKind ShortJump then
      MOZ_ASSERT (BOffImm16_IsInSignedRange offset) ;;
      as_bc (BOffImm16_encode offset) c cr NotLikelyB DontLinkB ;;
      ret label
    else
      (* Generate a long branch stanza, but invert the sense so that we
         usually run a short branch. *)
      ensureSpace (10 * 4) ;;
      as_bc (8 * 4) (InvertCondition c) cr NotLikelyB DontLinkB ;;
      next <- currentOffset ;;
      addLongJump next ;;
      ma_liPatchable SecondScratchReg INVALID_OFFSET ;;
      xs_mtctr SecondScratchReg ;;
      as_bctr DontLinkB ;;
      ret label
  else
    (* Generate open jump and link it to a label. *)
    let nextInChain := if used label then Label_offset label else INVALID_OFFSET in
    if JumpKind_eqb jumpKind ShortJump then
      ensureSpace (4 * 4) ;;
      bo <- as_bc 4 c cr NotLikelyB DontLinkB ;;
      writeInst (I_word nextInChain) ;;
      ret (Label_use label bo)
    else
      (* As above with a reverse-sense long stanza. *)
      ensureSpace (10 * 4) ;;
      as_bc (8 * 4) (InvertCondition c) cr NotLikelyB DontLinkB ;;
      bo <- xs_trap_tagged LongJumpTag ;;
      writeInst (I_word nextInChain) ;;
      (* Leave space for potential long jump. *)
      as_nop ;; as_nop ;; as_nop ;; as_nop ;; as_nop ;;
      ret (Label_use label bo).

(** [ma_bc(Condition c, Label* l, JumpKind jumpKind)]: a branch on CR0. *)
Definition ma_bc (c : Condition) (l : Label) (jumpKind : JumpKind) : M Label :=
  ma_bc_cr cr0 c l jumpKind.

(** [MacroAssemblerPPC64::ma_b(Label* label, JumpKind jumpKind)]. *)
Definition ma_b (label : Label) (jumpKind : JumpKind) : M Label :=
  if negb (bound label) then
    (if JumpKind_eqb jumpKind ShortJump then
       xs_trap_tagged StaticShortJumpTag ;; ret tt
     else
       ensureSpace (7 * 4) ;;
       ma_liPatchable ScratchRegister INVALID_OFFSET ;;
       xs_trap_tagged LongJumpTag ;;
       xs_trap ;; ret tt) ;;
    ret label
  else
    (* Label is bound, emit final code. *)
    cur <- currentOffset ;;
    let offset := cur - Label_offset label in
    (if JumpKind_eqb jumpKind ShortJump || JOffImm26_IsInRange offset then
       as_b offset ;; ret tt
     else
       ensureSpace (7 * 4) ;;
       next <- currentOffset ;;
       addLongJump next ;;
       ma_liPatchable SecondScratchReg INVALID_OFFSET ;;
       xs_mtctr SecondScratchReg ;;
       as_bctr DontLinkB ;; ret tt) ;;
    ret label.

(** [ma_bc(Register lhs, Register rhs, Label* label, Condition c,
    JumpKind jumpKind)]. *)
Definition ma_bc_reg (lhs rhs : Register) (label : Label) (c : Condition)
                     (jumpKind : JumpKind) : M Label :=
  MOZ_ASSERT (negb (ConditionOnlyXER c)) ;;
  if is_Always c then
    ma_b label jumpKind
  else if ConditionZero c then
    MOZ_ASSERT (lhs =? rhs) ;;
    as_cmpdi lhs 0 ;;
    ma_bc c label jumpKind
  else if ConditionUnsigned c then
    as_cmpld lhs rhs ;;
    ma_bc c label jumpKind
  else
    MOZ_ASSERT (no_modifier c) ;;
    as_cmpd lhs rhs ;;
    ma_bc c label jumpKind.


(** Modelled from the spec: the default argument of the branch
    declarations of [MacroAssembler-ppc64.h], which is not among the
    sources.  A branch whose caller names no [JumpKind] is a long jump;
    the sources say [ShortJump] wherever they want the short form. *)
Definition default_jumpKind : JumpKind := LongJump.

(* ----------------------------------------------------------------- *)
(** *** Arithmetic with an overflow test *)

(** [ma_addTestOverflow(Register rd, Register rs, Register rt,
    Label* overflow)]. *)
Definition ma_addTestOverflow (rd rs rt : Register) (overflow : Label) : M Label :=
  MOZ_ASSERT (negb (rs =? ScratchRegister)) ;;
  MOZ_ASSERT (negb (rt =? ScratchRegister)) ;;
  (* Whack XER[SO]. *)
  xs_li ScratchRegister 0 ;;
  xs_mtxer ScratchRegister ;;
  as_addo_rc rd rs rt ;;                      (* XER[SO] -> CR0[SO] *)
  ma_bc SOBit overflow default_jumpKind.

(** [ma_addTestOverflow(Register rd, Register rs, Imm32 imm,
    Label* overflow)]. *)
Definition ma_addTestOverflow_imm (rd rs : Register) (imm : Z) (overflow : Label) : M Label :=
  ma_li_Imm32 SecondScratchReg imm ;;
  ma_addTestOverflow rd rs SecondScratchReg overflow.

(** [ma_subTestOverflow(Register rd, Register rs, Register rt,
    Label* overflow)]. *)
Definition ma_subTestOverflow (rd rs rt : Register) (overflow : Label) : M Label :=
  MOZ_ASSERT (negb (rs =? ScratchRegister)) ;;
  MOZ_ASSERT (negb (rt =? ScratchRegister)) ;;
  (* Whack XER[SO]. *)
  xs_li ScratchRegister 0 ;;
  xs_mtxer ScratchRegister ;;
  as_subfo_rc rd rt rs ;;                     (* T = B - A; XER[SO] -> CR0[SO] *)
  ma_bc SOBit overflow default_jumpKind.

(* ----------------------------------------------------------------- *)
(** *** Compare and set *)

(** [ma_cmp_set(Register rd, Register rs, Register rt, Condition c)].
    The two [switch] statements compare [c] with the enumerators. *)
Definition ma_cmp_set (rd rs rt : Register) (c : Condition) : M unit :=
  let c_is (k : Condition) := Condition_eqb c k in
  as_mfcr rd ;;
  shift <-
    (if c_is Equal || c_is NotEqual then ret 2
     else if c_is Above then ret 1
     else if c_is AboveOrEqual || c_is GreaterThanOrEqual || c_is Below || c_is LessThan then ret 3
     else if c_is BelowOrEqual || c_is LessThanOrEqual || c_is GreaterThan then ret 1
     else MOZ_CRASH) ;;
  as_cmpd rs rt ;;
  as_mfcr rd ;;
  as_rlwinm rd rd ((3 - shift) + 28) 30 31 ;;
  (* Negate the boolean if necessary to represent a multi-condition. *)
  when (c_is NotEqual || c_is AboveOrEqual || c_is GreaterThanOrEqual
        || c_is LessThanOrEqual || c_is BelowOrEqual)
       (as_xori rd rd 1 ;; ret tt).

(* ----------------------------------------------------------------- *)
(** *** Patchable call sites *)

Section ToggledCall.

(** [Assembler::ToggledCallSize], the byte length that the assertion
    closing [toggledCall] compares with; it is declared in a header that
    is not among the sources and is taken as given. *)
Variable ToggledCallSize : Z.

(** [MacroAssemblerPPC64Compat::toggledCall(JitCode* target, bool
    enabled)]; [target] stands for [target->raw()]. *)
Definition toggledCall (target : Z) (enabled : bool) : M Z :=
  bo <- currentOffset ;;
  let offset := bo in
  addPendingJump bo target JITCODE ;;
  ma_liPatchable_ImmPtr ScratchRegister target ;;
  (if enabled then
     xs_mtctr ScratchRegister ;;
     as_bctr LinkB ;;
     as_nop ;; ret tt
   else
     as_nop ;;
     as_nop ;; ret tt) ;;
  next <- currentOffset ;;
  MOZ_ASSERT (next - offset =? ToggledCallSize) ;;
  ret offset.

End ToggledCall.

(* ----------------------------------------------------------------- *)
(** *** Unboxing *)



(* ----------------------------------------------------------------- *)
(** *** Binding a label *)

Definition list_set {A : Type} (l : list A) (n : nat) (x : A) : list A :=
  if (n <? length l)%nat then firstn n l ++ x :: skipn (S n) l else l.

Definition word_index (off : Z) : nat := Z.to_nat (off / 4).

(** The five words of a patchable load of [imm] and the two that send
    control there, as [ma_liPatchable], [xs_mtctr] and [as_bctr] write
    them. *)
Definition long_stanza (dest : Register) (imm : Z) : list Instr :=
  m_buffer (finalMasm ((ma_liPatchable dest imm ;; xs_mtctr dest ;; as_bctr DontLinkB)
                         emptyMasm)).

Fixpoint overwrite (buf : list Instr) (n : nat) (ws : list Instr) : list Instr :=
  match ws with
  | [] => buf
  | w :: ws' => overwrite (list_set buf n w) (S n) ws'
  end.

(** Modelled from the spec: [Assembler::bind] is not among the sources.
    "At bind time, every chained site is revisited: the real offset is
    computed and, depending on range, either the short form's
    displacement field is patched in place or the site is rewritten into
    the long form."  A short-form site is the dummy branch followed by
    the chain word, which becomes a no-op; a long-form site is the tagged
    trap, the chain word and the five no-ops that [ma_bc] reserved, which
    become the load of the target, mtctr and bctr. *)
Fixpoint patch_chain (fuel : nat) (dest site : Z) (buf : list Instr)
  : option (list Instr) :=
  match fuel with
  | O => None
  | S fuel' =>
      if site =? INVALID_OFFSET then Some buf
      else
        let n := word_index site in
        match nth_error buf n, nth_error buf (S n) with
        | Some (I_bc _ c f lkb lb), Some (I_word next) =>
            if BOffImm16_IsInSignedRange (dest - site) then
              patch_chain fuel' dest next
                (overwrite buf n [I_bc (BOffImm16_encode (dest - site)) c f lkb lb; I_nop])
            else None
        | Some (I_trap_tagged LongJumpTag), Some (I_word next) =>
            patch_chain fuel' dest next
              (overwrite buf n (long_stanza SecondScratchReg dest))
        | _, _ => None
        end
  end.

Definition bind (label : Label) : M Label :=
  fun m =>
    let dest := nextOffset m in
    if used label then
      match patch_chain (S (length (m_buffer m))) dest (Label_offset label) (m_buffer m) with
      | Some buf => Done (Label_bind label dest) (mkMasm buf (longJumps_ m) (jumps_ m))
      | None => Crashed m
      end
    else Done (Label_bind label dest) m.

(* ----------------------------------------------------------------- *)
(** *** Atomic read-modify-write sequences *)

(** Modelled from the spec: [Synchronization] and the
    [memoryBarrierBefore] / [memoryBarrierAfter] pair belong to the shared
    macro-assembler, which is not among the sources; they hand the
    barrier bits of the requested ordering to [memoryBarrier], which is
    in the sources and emits lwsync whatever the bits are. *)
Record Synchronization : Type := mkSync {
  barrierBefore : Z;
  barrierAfter : Z
}.

(** [MacroAssembler::memoryBarrier(MemoryBarrierBits barrier)]. *)
Definition memoryBarrier (barrier : Z) : M unit := as_lwsync ;; ret tt.
Definition memoryBarrierBefore (sync : Synchronization) : M unit :=
  memoryBarrier (barrierBefore sync).
Definition memoryBarrierAfter (sync : Synchronization) : M unit :=
  memoryBarrier (barrierAfter sync).

(** [MacroAssembler::subPtr(Register src, Register dest)]. *)
Definition subPtr (src dest : Register) : M unit := as_subf dest src dest ;; ret tt.

Inductive AtomicOp : Type :=
  | AtomicFetchAddOp | AtomicFetchSubOp | AtomicFetchAndOp
  | AtomicFetchOrOp | AtomicFetchXorOp.

(** [CompareExchange64], at [T = Address]. *)
Definition CompareExchange64 (sync : Synchronization) (mem : Address)
                             (expect replace output : Register) : M unit :=
  computeEffectiveAddress mem SecondScratchReg ;;
  let tryAgain := newLabel in
  let exit := newLabel in
  memoryBarrierBefore sync ;;
  tryAgain <- bind tryAgain ;;
  (* 'r0' for 'ra' indicates hard 0, not GPR r0 *)
  as_ldarx output r0 SecondScratchReg ;;
  exit <- ma_bc_reg output expect exit NotEqual ShortJump ;;
  movePtr replace ScratchRegister ;;
  as_stdcx ScratchRegister r0 SecondScratchReg ;;
  tryAgain <- ma_bc_reg ScratchRegister ScratchRegister tryAgain NotEqual ShortJump ;;
  memoryBarrierAfter sync ;;
  exit <- bind exit ;;
  ret tt.

(** [AtomicExchange64], at [T = Address]. *)
Definition AtomicExchange64 (sync : Synchronization) (mem : Address)
                            (src output : Register) : M unit :=
  computeEffectiveAddress mem SecondScratchReg ;;
  let tryAgain := newLabel in
  memoryBarrierBefore sync ;;
  tryAgain <- bind tryAgain ;;
  as_ldarx output r0 SecondScratchReg ;;
  as_stdcx src r0 SecondScratchReg ;;
  tryAgain <- ma_bc_cr cr0 NotEqual tryAgain ShortJump ;;
  memoryBarrierAfter sync ;;
  ret tt.

(** [AtomicFetchOp64], at [T = Address]. *)
Definition AtomicFetchOp64 (sync : Synchronization) (op : AtomicOp) (value : Register)
                           (mem : Address) (temp output : Register) : M unit :=
  computeEffectiveAddress mem SecondScratchReg ;;
  let tryAgain := newLabel in
  memoryBarrierBefore sync ;;
  tryAgain <- bind tryAgain ;;
  as_ldarx output r0 SecondScratchReg ;;
  match op with
  | AtomicFetchAddOp => as_add temp output value
  | AtomicFetchSubOp => as_subf temp value output
  | AtomicFetchAndOp => as_and temp output value
  | AtomicFetchOrOp => as_or temp output value
  | AtomicFetchXorOp => as_xor temp output value
  end ;;
  as_stdcx temp r0 SecondScratchReg ;;
  tryAgain <- ma_bc_reg temp temp tryAgain NotEqual ShortJump ;;
  memoryBarrierAfter sync ;;
  ret tt.

(** Modelled from the spec: [Scalar::Type] with [Scalar::byteSize] and
    [Scalar::isSignedIntType] belongs to the runtime, which is not among
    the sources; only the integer element types of at most four bytes
    reach the sequences below without a crash. *)
Inductive ScalarType : Type := Int8 | Uint8 | Int16 | Uint16 | Int32 | Uint32 | Int64.

Definition byteSize (t : ScalarType) : Z :=
  match t with
  | Int8 | Uint8 => 1
  | Int16 | Uint16 => 2
  | Int32 | Uint32 => 4
  | Int64 => 8
  end.

Definition isSignedIntType (t : ScalarType) : bool :=
  match t with
  | Int8 | Int16 | Int32 | Int64 => true
  | Uint8 | Uint16 | Uint32 => false
  end.

Definition UINT32_MAX : Z := 0xffffffff.

(** [CompareExchange], at [T = Address]: the byte, half-word and word
    compare-exchange.  The source guards the xori of [offsetTemp] with
    [#if !MOZ_LITTLE_ENDIAN].  The macro is a function-like one (the
    source calls it as [MOZ_LITTLE_ENDIAN()] in [ma_load_unaligned] and
    [ma_store_unaligned]), so its bare name is no macro call: in the
    [#if] it is an identifier, which counts as 0, and the guarded line is
    compiled in. *)
Definition CompareExchange (type : ScalarType) (sync : Synchronization) (mem : Address)
                           (oldval newval valueTemp offsetTemp maskTemp output : Register)
  : M unit :=
  let signExtend := isSignedIntType type in
  let nbytes := byteSize type in
  (if (nbytes =? 1) || (nbytes =? 2) then ret tt
   else if nbytes =? 4 then
     MOZ_ASSERT (valueTemp =? InvalidReg) ;;
     MOZ_ASSERT (offsetTemp =? InvalidReg) ;;
     MOZ_ASSERT (maskTemp =? InvalidReg)
   else MOZ_CRASH) ;;
  let again := newLabel in
  let end_ := newLabel in
  computeEffectiveAddress mem SecondScratchReg ;;
  if nbytes =? 4 then
    memoryBarrierBefore sync ;;
    again <- bind again ;;
    as_lwarx output r0 SecondScratchReg ;;
    end_ <- ma_bc_reg output oldval end_ NotEqual ShortJump ;;
    as_stwcx newval r0 SecondScratchReg ;;
    again <- ma_bc NotEqual again ShortJump ;;
    memoryBarrierAfter sync ;;
    end_ <- bind end_ ;;
    ret tt
  else
    as_andi_rc offsetTemp SecondScratchReg 3 ;;
    subPtr offsetTemp SecondScratchReg ;;
    as_xori offsetTemp offsetTemp 3 ;;
    x_slwi offsetTemp offsetTemp 3 ;;
    ma_li_Imm32 maskTemp (Imm32 (Z.shiftr UINT32_MAX ((4 - nbytes) * 8))) ;;
    as_slw maskTemp maskTemp offsetTemp ;;
    as_nor maskTemp maskTemp maskTemp ;;
    memoryBarrierBefore sync ;;
    again <- bind again ;;
    as_lwarx ScratchRegister r0 SecondScratchReg ;;
    as_srw output ScratchRegister offsetTemp ;;
    (if nbytes =? 1 then
       if signExtend then
         as_extsb valueTemp oldval ;;
         as_extsb output output ;; ret tt
       else
         as_andi_rc valueTemp oldval 0xff ;;
         as_andi_rc output output 0xff ;; ret tt
     else if nbytes =? 2 then
       if signExtend then
         as_extsh valueTemp oldval ;;
         as_extsh output output ;; ret tt
       else
         as_andi_rc valueTemp oldval 0xffff ;;
         as_andi_rc output output 0xffff ;; ret tt
     else ret tt) ;;
    end_ <- ma_bc_reg output valueTemp end_ NotEqual ShortJump ;;
    as_slw valueTemp newval offsetTemp ;;
    as_and ScratchRegister ScratchRegister maskTemp ;;
    as_or ScratchRegister ScratchRegister valueTemp ;;
    as_stwcx ScratchRegister r0 SecondScratchReg ;;
    again <- ma_bc_reg ScratchRegister ScratchRegister again Zero ShortJump ;;
    memoryBarrierAfter sync ;;
    end_ <- bind end_ ;;
    ret tt.

(* ================================================================= *)
(** ** Vocabulary of the statements *)

(** The assembler after [code] has been appended to its buffer. *)
Definition appendInstrs (m : MacroAssembler) (code : list Instr) : MacroAssembler :=
  mkMasm (m_buffer m ++ code) (longJumps_ m) (jumps_ m).

(** The five words of the patchable load of [imm] into [dest]. *)
Definition patchable_load (dest : Register) (imm : Z) : list Instr :=
  [I_lis dest (Imm16_encode (Imm16_Upper (Imm32 (Z.shiftr (to_uint64 imm) 32))));
   I_ori dest dest (Imm16_encode (Imm16_Lower (Imm32 (Z.shiftr (to_uint64 imm) 32))));
   I_rldicr dest dest 32 31;
   I_oris dest dest (Imm16_encode (Imm16_Upper (Imm32 (to_uint64 imm))));
   I_ori dest dest (Imm16_encode (Imm16_Lower (Imm32 (to_uint64 imm))))].

(** An assembler whose buffer already holds [n] words. *)
Definition masmOfSize (n : Z) : MacroAssembler :=
  mkMasm (repeat I_nop (Z.to_nat n)) [] [].

(** Whether control goes to the label after the words that a branch
    emission wrote are run in state [s].  In the short form the
    conditional branch itself goes to the label.  In the long form the
    leading conditional branch skips the stanza behind it, and it is the
    stanza that goes to the label. *)
Definition branches_to_label (br : list Instr) (s : Machine.State) : option bool :=
  match br with
  | I_bc off c f _ _ :: rest =>
      match rest with
      | [] | [I_word _] => Some (Machine.cond_holds c (Machine.cr s f))
      | _ =>
          if off =? 4 * (1 + Z.of_nat (length rest))
          then Some (negb (Machine.cond_holds c (Machine.cr s f)))
          else None
      end
  | _ => None
  end.

(** The memory access and the sign extension that the specification
    names for a transfer size, to compare [ma_load] and [ma_store] with. *)
Definition load_instr (size : LoadStoreSize) (rt ra : Register) (d : Z) : Instr :=
  if size =? SizeByte then I_lbz rt ra d
  else if size =? SizeHalfWord then I_lhz rt ra d
  else if size =? SizeWord then I_lwz rt ra d
  else I_ld rt ra d.

Definition store_instr (size : LoadStoreSize) (rs ra : Register) (d : Z) : Instr :=
  if size =? SizeByte then I_stb rs ra d
  else if size =? SizeHalfWord then I_sth rs ra d
  else if size =? SizeWord then I_stw rs ra d
  else I_std rs ra d.

Definition sign_extension (size : LoadStoreSize) (extension : LoadStoreExtension)
                          (r : Register) : list Instr :=
  match extension with
  | ZeroExtend => []
  | SignExtend =>
      if size =? SizeByte then [I_extsb r r]
      else if size =? SizeHalfWord then [I_extsh r r]
      else if size =? SizeWord then [I_extsw r r]
      else []
  end.

Definition valid_size (size : LoadStoreSize) : bool :=
  (size =? SizeByte) || (size =? SizeHalfWord) || (size =? SizeWord) || (size =? SizeDouble).



(** A state in which earlier operations have left the overflow bits of
    XER set; every register holds [v]. *)
Definition stale_overflow (v : Z) : Machine.State :=
  Machine.set_xer (Machine.init v) true true false.

(** A state whose two registers [ra] and [rb] hold [a] and [b]. *)
Definition with_operands (ra rb : Register) (a b : Z) : Machine.State :=
  Machine.set_gpr (Machine.set_gpr (Machine.init 0) ra a) rb b.

(* ================================================================= *)
(** ** More of the macro-assembler *)

(** The states that differ from [s] at most in register [d]. *)
Definition only_gpr_changed (d : Register) (s s' : Machine.State) : Prop :=
  (forall r, r <> d -> Machine.gpr s' r = Machine.gpr s r)
  /\ Machine.cr s' = Machine.cr s
  /\ Machine.xer_so s' = Machine.xer_so s
  /\ Machine.xer_ov s' = Machine.xer_ov s
  /\ Machine.xer_ca s' = Machine.xer_ca s
  /\ Machine.ctr s' = Machine.ctr s
  /\ Machine.reserve s' = Machine.reserve s
  /\ Machine.mem s' = Machine.mem s.

(** The values that [ma_li] does not load as they are. *)
Definition ma_li_misloads (value : Z) : bool :=
  ((2 ^ 15 <=? value) && (value <? 2 ^ 16))
  || ((2 ^ 31 <=? value) && (value <? 2 ^ 32))
  || ((2 ^ 47 <=? value) && (value <? 2 ^ 48))
  || ((- 2 ^ 32 <=? value) && (value <? - 2 ^ 31) && (value mod 2 ^ 16 =? 0)).

(* ----------------------------------------------------------------- *)
(** *** Shifts, rotations and bit fields *)

(** [MacroAssemblerPPC64::ma_dsll(Register rd, Register rt, Imm32 shift)]. *)
Definition ma_dsll (rd rt : Register) (shift : Z) : M unit :=
  MOZ_ASSERT (shift <? 64) ;;
  as_rldicr rd rt shift (63 - shift) ;; ret tt.            (* "sldi" *)

(** [MacroAssemblerPPC64::ma_dsrl(Register rd, Register rt, Imm32 shift)]. *)
Definition ma_dsrl (rd rt : Register) (shift : Z) : M unit :=
  MOZ_ASSERT (shift <? 64) ;;
  as_rldicl rd rt (64 - shift) shift ;; ret tt.            (* "srdi" *)

(** [MacroAssemblerPPC64::ma_dext(Register rt, Register rs, Imm32 pos,
    Imm32 size)]. *)
Definition ma_dext (rt rs : Register) (pos size : Z) : M unit :=
  (* MIPS dext is right-justified, so use rldicl to simulate. *)
  as_rldicl rt rs (pos + size) (64 - size) ;; ret tt.

(** [MacroAssembler::lshiftPtr(Imm32 imm, Register dest)]. *)
Definition lshiftPtr (imm : Z) (dest : Register) : M unit :=
  MOZ_ASSERT ((0 <=? imm) && (imm <? 64)) ;;
  ma_dsll dest dest imm.

(** [MacroAssembler::rshiftPtr(Imm32 imm, Register dest)]. *)
Definition rshiftPtr (imm : Z) (dest : Register) : M unit :=
  MOZ_ASSERT ((0 <=? imm) && (imm <? 64)) ;;
  ma_dsrl dest dest imm.

(** [MacroAssembler::rotateLeft64(Imm32 count, Register64 src,
    Register64 dest, Register temp)]. *)
Definition rotateLeft64 (count : Z) (src dest temp : Register) : M unit :=
  MOZ_ASSERT (temp =? InvalidReg) ;;
  as_rldicl dest src count 0 ;; ret tt.

(** [MacroAssembler::rotateRight64(Imm32 count, Register64 src,
    Register64 dest, Register temp)]. *)
Definition rotateRight64 (count : Z) (src dest temp : Register) : M unit :=
  MOZ_ASSERT (temp =? InvalidReg) ;;
  as_rldicl dest src (64 - count) 0 ;; ret tt.

(** [MacroAssembler::lshift32(Register src, Register dest)]. *)
Definition lshift32 (src dest : Register) : M unit :=
  (* slw will zero out any shift amount greater than 32, but JavaScript
     expects this to act like a modulo, so ... *)
  MOZ_ASSERT (negb (src =? ScratchRegister)) ;;
  as_andi_rc ScratchRegister src 31 ;;
  as_slw dest dest ScratchRegister ;; ret tt.

(** [MacroAssembler::rshift32(Register src, Register dest)]. *)
Definition rshift32 (src dest : Register) : M unit :=
  MOZ_ASSERT (negb (src =? ScratchRegister)) ;;
  as_andi_rc ScratchRegister src 31 ;;
  as_srw dest dest ScratchRegister ;; ret tt.

(* ----------------------------------------------------------------- *)
(** *** Moves between widths *)

(** [MacroAssembler::move32To64ZeroExtend(Register src, Register64 dest)]. *)
Definition move32To64ZeroExtend (src dest : Register) : M unit :=
  (* If the register was loaded with lwz or otherwise the upper word was
     cleared, a simple move suffices. *)
  as_or dest src src ;; ret tt.

(** [MacroAssembler::move32To64SignExtend(Register src, Register64 dest)]. *)
Definition move32To64SignExtend (src dest : Register) : M unit :=
  as_extsw dest src ;; ret tt.

(** [MacroAssembler::move8SignExtend(Register src, Register dest)]. *)
Definition move8SignExtend (src dest : Register) : M unit :=
  as_extsb dest src ;; ret tt.

(** [MacroAssembler::move16SignExtend(Register src, Register dest)]. *)
Definition move16SignExtend (src dest : Register) : M unit :=
  as_extsh dest src ;; ret tt.

(** [MacroAssembler::move8To64SignExtend(Register src, Register64 dest)]. *)
Definition move8To64SignExtend (src dest : Register) : M unit :=
  move32To64SignExtend src dest ;;
  move8SignExtend dest dest.

(** [MacroAssembler::move16To64SignExtend(Register src, Register64 dest)]. *)
Definition move16To64SignExtend (src dest : Register) : M unit :=
  move32To64SignExtend src dest ;;
  move16SignExtend dest dest.

(** [MacroAssembler::move32ZeroExtendToPtr(Register src, Register dest)]. *)
Definition move32ZeroExtendToPtr (src dest : Register) : M unit :=
  as_rldicl dest src 0 32 ;; ret tt.

(** [MacroAssemblerPPC64Compat::unboxBoolean(Register src, Register dest)]. *)
Definition unboxBoolean (src dest : Register) : M unit :=
  ma_dext dest src 0 32.

(* ----------------------------------------------------------------- *)
(** *** Arithmetic and logic with an immediate *)

(** [ma_dsubu(Register rd, Register rs, Imm32 imm)]. *)
Definition ma_dsubu (rd rs : Register) (imm : Z) : M unit :=
  MOZ_ASSERT (negb (rs =? ScratchRegister)) ;;
  if Imm16_IsInSignedRange (- imm) then
    as_addi rd rs (- imm) ;; ret tt
  else
    ma_li_Imm32 ScratchRegister imm ;;
    as_subf rd ScratchRegister rs ;; ret tt.               (* T = B - A *)

(** [ma_and(Register rd, Register rs, Imm32 imm)]. *)
Definition ma_and_imm (rd rs : Register) (imm : Z) : M unit :=
  if Imm16_IsInUnsignedRange imm then
    as_andi_rc rd rs imm ;; ret tt
  else
    ma_li_Imm32 ScratchRegister imm ;;
    as_and rd rs ScratchRegister ;; ret tt.

(** [ma_or(Register rd, Register rs, Imm32 imm)]. *)
Definition ma_or_imm (rd rs : Register) (imm : Z) : M unit :=
  if Imm16_IsInUnsignedRange imm then
    as_ori rd rs imm ;; ret tt
  else
    ma_li_Imm32 ScratchRegister imm ;;
    as_or rd rs ScratchRegister ;; ret tt.

(** [ma_xor(Register rd, Register rs, Imm32 imm)]. *)
Definition ma_xor_imm (rd rs : Register) (imm : Z) : M unit :=
  if Imm16_IsInUnsignedRange imm then
    as_xori rd rs imm ;; ret tt
  else
    ma_li_Imm32 ScratchRegister imm ;;
    as_xor rd rs ScratchRegister ;; ret tt.

(** [MacroAssembler::mulBy3(Register src, Register dest)]. *)
Definition mulBy3 (src dest : Register) : M unit :=
  (* I guess this *is* better than mulli. *)
  MOZ_ASSERT (negb (src =? ScratchRegister)) ;;
  as_add ScratchRegister src src ;;
  as_add dest ScratchRegister src ;; ret tt.

(** Modelled from the spec: [Scale], [Imm32::ShiftOf] and [BaseIndex]
    belong to [Assembler-shared.h], which is not among the sources.  A
    scale is the power of two that the index is multiplied by, and
    [ShiftOf] is its exponent. *)
Inductive Scale : Type := TimesOne | TimesTwo | TimesFour | TimesEight.

Definition ShiftOf (s : Scale) : Z :=
  match s with
  | TimesOne => 0
  | TimesTwo => 1
  | TimesFour => 2
  | TimesEight => 3
  end.

Record BaseIndex : Type := mkBaseIndex {
  bi_base : Register;
  bi_index : Register;
  bi_scale : Scale;
  bi_offset : Z
}.

(** [MacroAssemblerPPC64Compat::computeScaledAddress(const BaseIndex&
    address, Register dest)]. *)
Definition computeScaledAddress (address : BaseIndex) (dest : Register) : M unit :=
  let shift := ShiftOf (bi_scale address) in
  if negb (shift =? 0) then
    MOZ_ASSERT (negb (bi_base address =? ScratchRegister)) ;;
    ma_dsll ScratchRegister (bi_index address) shift ;;
    as_add dest (bi_base address) ScratchRegister ;; ret tt
  else
    as_add dest (bi_base address) (bi_index address) ;; ret tt.

(* ----------------------------------------------------------------- *)
(** *** Pointer-sized loads and stores, and the stack *)

(** [MacroAssemblerPPC64Compat::loadPtr(const Address& address, Register
    dest)] is [ma_load(dest, address, SizeDouble)].

    Modelled from the spec: the extension argument that the call leaves
    out is a default of [MacroAssembler-ppc64.h], which is not among the
    sources; a doubleword load has nothing to extend and [ma_load] writes
    the same words for either value. *)
Definition loadPtr (address : Address) (dest : Register) : M unit :=
  ma_load dest address SizeDouble SignExtend.

(** [MacroAssemblerPPC64Compat::storePtr(Register src, const Address&
    address)] is [ma_store(src, address, SizeDouble)]; [ma_store] does
    not read its extension argument. *)
Definition storePtr (src : Register) (address : Address) : M unit :=
  ma_store src address SizeDouble SignExtend.

(** [movePtr(ImmPtr imm, Register dest)]:
    [movePtr(ImmWord(uintptr_t(imm.value)), dest)]. *)
Definition movePtr_ImmPtr (imm : Z) (dest : Register) : M unit :=
  movePtr_ImmWord (to_uint64 imm) dest.

(** [MacroAssemblerPPC64Compat::loadPtr(AbsoluteAddress address,
    Register dest)]; [address] stands for [address.addr]. *)
Definition loadPtr_AbsoluteAddress (address : Z) (dest : Register) : M unit :=
  movePtr_ImmPtr address ScratchRegister ;;
  loadPtr (mkAddress ScratchRegister 0) dest.

(** [MacroAssemblerPPC64Compat::storePtr(Register src, AbsoluteAddress
    dest)]. *)
Definition storePtr_AbsoluteAddress (src : Register) (dest : Z) : M unit :=
  movePtr_ImmPtr dest ScratchRegister ;;
  storePtr src (mkAddress ScratchRegister 0).

(** [MacroAssembler::inc64(AbsoluteAddress dest)]. *)
Definition inc64 (dest : Z) : M unit :=
  ma_li_ImmWord ScratchRegister (to_uint64 dest) ;;
  as_ld SecondScratchReg ScratchRegister 0 ;;
  as_addi SecondScratchReg SecondScratchReg 1 ;;
  as_std SecondScratchReg ScratchRegister 0 ;; ret tt.

(** Modelled from the spec: [sizeof(Value)], of [js/Value.h], which is
    not among the sources: a value is one doubleword. *)
Definition sizeof_Value : Z := 8.

(** [MacroAssemblerPPC64Compat::pushValue(const Address& addr)]. *)
Definition pushValue (addr : Address) : M unit :=
  (* Load value before allocate stack, addr.base may be is sp. *)
  loadPtr (mkAddress (base addr) (offset addr)) ScratchRegister ;;
  ma_dsubu StackPointer StackPointer sizeof_Value ;;
  storePtr ScratchRegister (mkAddress StackPointer 0).

(** [MacroAssemblerPPC64Compat::popValue(ValueOperand val)]; [val]
    stands for [val.valueReg()]. *)
Definition popValue (val : Register) : M unit :=
  as_ld val StackPointer 0 ;;
  as_addi StackPointer StackPointer sizeof_Value ;; ret tt.

(** Modelled from the spec: [Imm8::IsInSignedRange], of
    [Assembler-ppc64.h], which is not among the sources: the range of a
    signed byte. *)
Definition Imm8_IsInSignedRange (v : Z) : bool := (-128 <=? v) && (v <=? 127).

Definition Scale_eqb (a b : Scale) : bool :=
  match a, b with
  | TimesOne, TimesOne | TimesTwo, TimesTwo
  | TimesFour, TimesFour | TimesEight, TimesEight => true
  | _, _ => false
  end.

(** [MacroAssemblerPPC64::ma_store(Register data, const BaseIndex& dest,
    LoadStoreSize size, LoadStoreExtension extension)]. *)
Definition ma_store_BaseIndex (data : Register) (dest : BaseIndex)
                              (size : LoadStoreSize) (extension : LoadStoreExtension)
  : M unit :=
  if Imm8_IsInSignedRange (bi_offset dest) then
    index <-
      (if negb (Scale_eqb (bi_scale dest) TimesOne) then
         let shift := ShiftOf (bi_scale dest) in
         MOZ_ASSERT (negb (SecondScratchReg =? bi_base dest)) ;;
         ma_dsll SecondScratchReg (bi_index dest) shift ;;
         ret SecondScratchReg
       else ret (bi_index dest)) ;;
    if size =? SizeByte then as_stb data (bi_base dest) (bi_offset dest) ;; ret tt
    else if size =? SizeHalfWord then as_sth data (bi_base dest) (bi_offset dest) ;; ret tt
    else if size =? SizeWord then as_stw data (bi_base dest) (bi_offset dest) ;; ret tt
    else if size =? SizeDouble then as_std data (bi_base dest) (bi_offset dest) ;; ret tt
    else MOZ_CRASH
  else
    computeScaledAddress dest SecondScratchReg ;;
    ma_store data (mkAddress SecondScratchReg (bi_offset dest)) size extension.

(** The number of bytes of a transfer size. *)
Definition size_bytes (size : LoadStoreSize) : nat := Z.to_nat (size / 8).

(** The effective address of a load or store through base and
    displacement. *)
Definition effective_address (s : Machine.State) (ra : Register) (d : Z) : Z :=
  to_uint64 (Machine.base_or_zero s ra + to_int16 d).

(* ----------------------------------------------------------------- *)
(** *** Branches on a test of bits *)



(** [MacroAssemblerPPC64::ma_subTestOverflow(Register rd, Register rs,
    Imm32 imm, Label* overflow)]. *)
Definition ma_subTestOverflow_imm (rd rs : Register) (imm : Z) (overflow : Label)
  : M Label :=
  if negb (imm =? INT32_MIN) then
    ma_addTestOverflow_imm rd rs (Imm32 (- imm)) overflow
  else
    ma_li_Imm32 ScratchRegister (Imm32 imm) ;;
    ma_subTestOverflow rd rs ScratchRegister overflow.




(* ----------------------------------------------------------------- *)
(** *** Register names *)

Section RegisterNames.

(** Modelled from the spec: [GetName], [Total] and [Invalid] of
    [Registers] and of [FloatRegisters] are declared in
    [Architecture-ppc64.h], which is not among the sources; they are
    taken as given.  [strcmp(a, b) == 0] is the equality of the two
    strings. *)
Variable GetName : Z -> String.string.
Variable Total : Z.
Variable Invalid : Z.

(** The loop [for (uint32_t i = 0; i < Total; i++)] of the two
    [FromName], from the code [i] on with [n] codes left: the first code
    whose name is [name]. *)
Fixpoint FromName_loop (name : String.string) (n : nat) (i : Z) : option Z :=
  match n with
  | O => None
  | S n' => if String.eqb (GetName i) name then Some i
            else FromName_loop name n' (i + 1)
  end.

(** [FloatRegisters::FromName(const char *name)]. *)
Definition FloatRegisters_FromName (name : String.string) : Z :=
  match FromName_loop name (Z.to_nat Total) 0 with
  | Some i => i
  | None => Invalid
  end.

(** [Registers::FromName(const char *name)]. *)
Definition Registers_FromName (name : String.string) : Z :=
  (* Check for some register aliases first. *)
  if String.eqb name "sp"%string || String.eqb name "r1"%string then 1
  else if String.eqb name "r12"%string then 12
  else if String.eqb name "r3"%string then 3
  else match FromName_loop name (Z.to_nat Total) 0 with
       | Some i => i
       | None => Invalid
       end.

End RegisterNames.

(** A table of four names, for examples. *)
Definition four_names (i : Z) : String.string :=
  nth (Z.to_nat i) ["r0"; "sp"; "r2"; "r3"]%string String.EmptyString.

(* ================================================================= *)
(** ** Properties *)

(* ----------------------------------------------------------------- *)
(** *** The buffer only grows at its end *)

Lemma skipn_app_exact {A : Type} (l code : list A) :
  skipn (length l) (l ++ code) = code.
Proof.
  induction l as [|x l IH]; simpl; auto.
Qed.

Lemma emitted_of_append {A : Type} (c : M A) (m : MacroAssembler) (o : Outcome A)
      (code : list Instr) :
  c m = o -> m_buffer (finalMasm o) = m_buffer m ++ code -> emitted c m = code.
Proof.
  intros Hc Hb. unfold emitted. rewrite Hc, Hb. apply skipn_app_exact.
Qed.

Lemma appendInstrs_nil (m : MacroAssembler) : appendInstrs m [] = m.
Proof.
  destruct m; unfold appendInstrs; simpl. now rewrite app_nil_r.
Qed.

Lemma appendInstrs_app (m : MacroAssembler) (a b : list Instr) :
  appendInstrs (appendInstrs m a) b = appendInstrs m (a ++ b).
Proof.
  unfold appendInstrs; simpl. now rewrite app_assoc.
Qed.

Lemma nextOffset_append (m : MacroAssembler) (code : list Instr) :
  nextOffset (appendInstrs m code) = nextOffset m + 4 * Z.of_nat (length code).
Proof.
  unfold nextOffset, appendInstrs; cbn [m_buffer]. rewrite length_app, Nat2Z.inj_add. lia.
Qed.

Lemma emitted_append {A : Type} (c : M A) (m : MacroAssembler) (a : A) (code : list Instr) :
  c m = Done a (appendInstrs m code) -> emitted c m = code.
Proof.
  intros H. eapply emitted_of_append; [exact H | reflexivity].
Qed.

Lemma bind_writeInst {B : Type} (i : Instr) (k : Z -> M B) (m : MacroAssembler) :
  bindM (writeInst i) k m = k (nextOffset m) (appendInstrs m [i]).
Proof. reflexivity. Qed.

Lemma bind_Done {A B : Type} (c : M A) (k : A -> M B) (m m' : MacroAssembler) (a : A) :
  c m = Done a m' -> bindM c k m = k a m'.
Proof. intros H. unfold bindM. now rewrite H. Qed.

Lemma bind_Crashed {A B : Type} (c : M A) (k : A -> M B) (m m' : MacroAssembler) :
  c m = Crashed m' -> bindM c k m = Crashed m'.
Proof. intros H. unfold bindM. now rewrite H. Qed.

(** Unfolds the emitters down to [writeInst] and lets the monad compute. *)
Ltac emit_steps :=
  cbv beta iota delta
    [bindM ret when ensureSpace writeInst currentOffset MOZ_ASSERT
     xs_li xs_lis as_addi as_ori as_oris as_xori as_andi_rc as_or as_xor as_and as_nor
     as_rldicr as_rldicl as_rlwinm as_slw as_srw as_add as_subf as_addo_rc as_subfo_rc
     as_extsb as_extsh as_extsw as_cmpd as_cmpld as_cmpw as_cmplw as_cmpdi as_cmpwi
     as_cmplwi xs_mtxer xs_mtctr as_mfcr as_lbz as_lhz as_lwz as_ld as_stb as_sth
     as_stw as_std as_lwarx as_ldarx as_stwcx as_stdcx as_lwsync as_bc as_b as_bctr
     as_nop xs_trap xs_trap_tagged x_srdi x_slwi
     addLongJump addPendingJump];
  cbn [m_buffer longJumps_ jumps_].

(** Brings a buffer [((b ++ [x]) ++ [y]) ++ ...] to the form [b ++ [x; y; ...]]. *)
Ltac flatten_buffer := repeat rewrite <- app_assoc; cbn [app].

(* ----------------------------------------------------------------- *)
(** *** The patchable load *)

Lemma ma_liPatchable_emits (dest : Register) (imm : Z) (m : MacroAssembler) :
  ma_liPatchable dest imm m = Done tt (appendInstrs m (patchable_load dest imm)).
Proof.
  unfold ma_liPatchable, appendInstrs, patchable_load. emit_steps. flatten_buffer.
  reflexivity.
Qed.

(** C2: for every 64-bit immediate, zero included, [ma_liPatchable] writes
    exactly the five words lis, ori, rldicr, oris, ori, whatever the bits
    of the operand are, and so advances the buffer by exactly 20 bytes. *)
Theorem ma_liPatchable_always_five_words :
  forall (dest : Register) (imm : Z) (m : MacroAssembler),
    exists m',
      ma_liPatchable dest imm m = Done tt m'
      /\ emitted (ma_liPatchable dest imm) m =
         [I_lis dest (Imm16_encode (Imm16_Upper (Imm32 (Z.shiftr (to_uint64 imm) 32))));
          I_ori dest dest (Imm16_encode (Imm16_Lower (Imm32 (Z.shiftr (to_uint64 imm) 32))));
          I_rldicr dest dest 32 31;
          I_oris dest dest (Imm16_encode (Imm16_Upper (Imm32 (to_uint64 imm))));
          I_ori dest dest (Imm16_encode (Imm16_Lower (Imm32 (to_uint64 imm))))]
      /\ length (emitted (ma_liPatchable dest imm) m) = 5%nat
      /\ nextOffset m' = nextOffset m + 20.
Proof.
  intros dest imm m.
  pose proof (ma_liPatchable_emits dest imm m) as H.
  eexists. split; [exact H|].
  rewrite (emitted_append _ _ _ _ H).
  split; [reflexivity|]. split; [reflexivity|].
  rewrite nextOffset_append. reflexivity.
Qed.

(* ----------------------------------------------------------------- *)
(** *** Register moves *)

Lemma gpr_set_same (s : Machine.State) (r : Register) (v : Z) :
  Machine.gpr (Machine.set_gpr s r v) r = v.
Proof. unfold Machine.set_gpr; cbn [Machine.gpr]. now rewrite Z.eqb_refl. Qed.

Lemma gpr_set_other (s : Machine.State) (r r' : Register) (v : Z) :
  r' <> r -> Machine.gpr (Machine.set_gpr s r v) r' = Machine.gpr s r'.
Proof.
  intros H. unfold Machine.set_gpr; cbn [Machine.gpr].
  destruct (Z.eqb_spec r' r); [contradiction | reflexivity].
Qed.

(** C10: [move64To32] writes one full-width register move, the OR of the
    source with itself, and nothing that masks or extends; after it has
    run, the destination equals the source in all 64 bits, the upper 32
    included. *)
Theorem move64To32_copies_all_64_bits :
  forall (src dest : Register) (m : MacroAssembler) (s : Machine.State),
    emitted (move64To32 src dest) m = [I_or dest src src]
    /\ exists s',
         Machine.run (emitted (move64To32 src dest) m) s = Some s'
         /\ Machine.gpr s' dest = Machine.gpr s src
         /\ forall i, Z.testbit (Machine.gpr s' dest) i = Z.testbit (Machine.gpr s src) i.
Proof.
  intros src dest m s.
  assert (E : emitted (move64To32 src dest) m = [I_or dest src src]).
  { apply emitted_append with (a := tt). reflexivity. }
  split; [exact E|]. rewrite E.
  exists (Machine.set_gpr s dest (Z.lor (Machine.gpr s src) (Machine.gpr s src))).
  split; [reflexivity|].
  rewrite gpr_set_same, Z.lor_diag. split; [reflexivity | intros; reflexivity].
Qed.

(* ----------------------------------------------------------------- *)
(** *** Patchable call sites *)

Lemma nextOffset_grown (b code : list Instr) (l l' : list Z)
      (j j' : list (Z * Z * RelocationKind)) :
  nextOffset (mkMasm (b ++ code) l j) - nextOffset (mkMasm b l' j')
  = 4 * Z.of_nat (length code).
Proof.
  unfold nextOffset; cbn [m_buffer]. rewrite length_app, Nat2Z.inj_add. lia.
Qed.

(** The words of a call site, as [toggledCall] writes them. *)
Lemma toggledCall_run (tcs target : Z) (enabled : bool) (m : MacroAssembler) :
  let tail := if enabled
              then [I_mtctr ScratchRegister; I_bctr LinkB; I_nop]
              else [I_nop; I_nop] in
  let m' := mkMasm (m_buffer m ++ patchable_load ScratchRegister (to_uint64 target) ++ tail)
                   (longJumps_ m)
                   (jumps_ m ++ [(nextOffset m, target, JITCODE)]) in
  toggledCall tcs target enabled m =
  if (if enabled then 32 else 28) =? tcs then Done (nextOffset m) m' else Crashed m'.
Proof.
  destruct m as [b l j].
  unfold toggledCall, ma_liPatchable_ImmPtr, ma_liPatchable, patchable_load.
  destruct enabled; emit_steps; flatten_buffer;
    rewrite nextOffset_grown; cbn [length];
    [ change (4 * Z.of_nat 8) with 32 | change (4 * Z.of_nat 7) with 28 ];
    destruct (_ =? tcs); reflexivity.
Qed.

(** C3 (as the code has it): the words after the five of the address
    load are three when the call is enabled (mtctr, bctrl, nop) and two
    when it is disabled (nop, nop), so an enabled site is 8 words and a
    disabled one 7; whatever [ToggledCallSize] is, the assertion that
    closes [toggledCall] fails for one of the two. *)
Theorem toggledCall_size_depends_on_enabled :
  forall (tcs target : Z) (m : MacroAssembler),
    length (emitted (toggledCall tcs target true) m) = 8%nat
    /\ length (emitted (toggledCall tcs target false) m) = 7%nat
    /\ (completed (toggledCall tcs target true m)
        && completed (toggledCall tcs target false m) = false).
Proof.
  intros tcs target m.
  pose proof (toggledCall_run tcs target true m) as Ht.
  pose proof (toggledCall_run tcs target false m) as Hf.
  cbv zeta in Ht, Hf.
  repeat split.
  - unfold emitted. rewrite Ht.
    destruct (32 =? tcs); cbn [finalMasm m_buffer]; now rewrite skipn_app_exact.
  - unfold emitted. rewrite Hf.
    destruct (28 =? tcs); cbn [finalMasm m_buffer]; now rewrite skipn_app_exact.
  - rewrite Ht, Hf.
    destruct (Z.eqb_spec 32 tcs), (Z.eqb_spec 28 tcs); try reflexivity. lia.
Qed.

(* ----------------------------------------------------------------- *)
(** *** Immediate materialization *)

Lemma run_single (i : Instr) (s s' : Machine.State) :
  Machine.exec i s = Some s' -> Machine.run [i] s = Some s'.
Proof. intros H. cbn [Machine.run]. now rewrite H. Qed.

Lemma run_app (a b : list Instr) (s s' : Machine.State) :
  Machine.run a s = Some s' -> Machine.run (a ++ b) s = Machine.run b s'.
Proof.
  revert s. induction a as [|i a IH]; intros s H; cbn [Machine.run app] in *.
  - now inversion H.
  - destruct (Machine.exec i s) as [s1|]; [now apply IH | discriminate].
Qed.

(** A value of the signed 16-bit range is loaded by one li and comes
    back as it went in. *)
Lemma ma_li_int16_roundtrip (dest : Register) (value : Z) (m : MacroAssembler)
      (s : Machine.State) :
  INT16_MIN <= value <= INT16_MAX ->
  emitted (ma_li dest value) m = [I_li dest value]
  /\ exists s', Machine.run [I_li dest value] s = Some s'
                /\ to_int64 (Machine.gpr s' dest) = value.
Proof.
  unfold INT16_MIN, INT16_MAX. intros H. split.
  - apply emitted_append with (a := tt). unfold ma_li.
    replace ((value >? -32769) && (value <? 32768)) with true
      by (symmetry; apply andb_true_iff; split;
          [apply Z.gtb_lt | apply Z.ltb_lt]; lia).
    reflexivity.
  - eexists. split; [reflexivity|]. rewrite gpr_set_same.
    unfold to_int64, to_uint64, to_int16, signed.
    change (2 ^ 16) with 65536. change (2 ^ (16 - 1)) with 32768.
    change (2 ^ 64) with 18446744073709551616.
    change (2 ^ (64 - 1)) with 9223372036854775808.
    destruct (Z.lt_ge_cases value 0) as [N|P].
    + assert (E : value mod 65536 = value + 65536).
      { symmetry. apply Z.mod_unique with (q := -1); lia. }
      assert (E2 : value mod 18446744073709551616 = value + 18446744073709551616).
      { symmetry. apply Z.mod_unique with (q := -1); lia. }
      rewrite E.
      destruct (Z.ltb_spec (value + 65536) 32768); [lia|].
      replace (value + 65536 - 65536) with value by lia.
      rewrite Z.mod_mod by lia. rewrite E2.
      destruct (Z.ltb_spec (value + 18446744073709551616) 9223372036854775808); lia.
    + rewrite (Z.mod_small value 65536) by lia.
      destruct (Z.ltb_spec value 32768); [|lia].
      rewrite Z.mod_mod by lia. rewrite (Z.mod_small value) by lia.
      destruct (Z.ltb_spec value 9223372036854775808); lia.
Qed.

(** C1 (as the code has it): [ma_li] does not bring every 64-bit value
    back.  For 32768, the value just above the signed 16-bit range, it
    writes the single instruction li with the halfword 0x8000, which the
    processor sign-extends: the register holds -32768.  For 2^47, a value
    with only high-word bits set, it writes li with 0x8000 and a rotate,
    and the register holds -2^47. *)
Theorem ma_li_sign_extends_halfword_0x8000 :
  forall (dest : Register) (m : MacroAssembler) (s : Machine.State),
    (emitted (ma_li dest 32768) m = [I_li dest 32768]
     /\ exists s', Machine.run (emitted (ma_li dest 32768) m) s = Some s'
                   /\ Machine.gpr s' dest = to_uint64 (-32768)
                   /\ Machine.gpr s' dest <> to_uint64 32768)
    /\ (emitted (ma_li dest (2 ^ 47)) m = [I_li dest 32768; I_rldicr dest dest 32 31]
        /\ exists s', Machine.run (emitted (ma_li dest (2 ^ 47)) m) s = Some s'
                      /\ Machine.gpr s' dest = to_uint64 (- 2 ^ 47)
                      /\ Machine.gpr s' dest <> to_uint64 (2 ^ 47)).
Proof.
  intros dest m s. split.
  - assert (E : emitted (ma_li dest 32768) m = [I_li dest 32768]).
    { apply emitted_append with (a := tt). reflexivity. }
    split; [exact E|]. rewrite E.
    eexists. split; [reflexivity|]. rewrite gpr_set_same.
    split; [reflexivity | discriminate].
  - assert (E : emitted (ma_li dest (2 ^ 47)) m = [I_li dest 32768; I_rldicr dest dest 32 31]).
    { apply emitted_append with (a := tt). destruct m as [b l j].
      unfold appendInstrs. cbv -[app]. flatten_buffer. reflexivity. }
    split; [exact E|]. rewrite E.
    eexists. split; [reflexivity|]. rewrite gpr_set_same, gpr_set_same.
    split; [reflexivity | discriminate].
Qed.

(* ----------------------------------------------------------------- *)
(** *** Branches to a bound label *)

Lemma long_stanza_eq (dest : Register) (imm : Z) :
  long_stanza dest imm = patchable_load dest imm ++ [I_mtctr dest; I_bctr DontLinkB].
Proof. reflexivity. Qed.

Lemma ma_bc_cr_bound_short (cr : CRegisterID) (c : Condition) (label : Label)
      (jumpKind : JumpKind) (m : MacroAssembler) :
  bound label = true ->
  BOffImm16_IsInSignedRange (to_int32 (Label_offset label - nextOffset m)) = true ->
  ma_bc_cr cr c label jumpKind m =
  Done label
       (appendInstrs m
          [I_bc (BOffImm16_encode (to_int32 (Label_offset label - nextOffset m)))
                c cr NotLikelyB DontLinkB]).
Proof.
  intros Hb Hr. unfold ma_bc_cr. rewrite Hb.
  unfold bindM at 1. unfold currentOffset at 1. cbv beta iota. rewrite !Hr.
  cbn [JumpKind_eqb]. emit_steps. reflexivity.
Qed.

Lemma ma_bc_cr_bound_long (cr : CRegisterID) (c : Condition) (label : Label)
      (m : MacroAssembler) :
  bound label = true ->
  BOffImm16_IsInSignedRange (to_int32 (Label_offset label - nextOffset m)) = false ->
  ma_bc_cr cr c label LongJump m =
  Done label
       (mkMasm (m_buffer m
                ++ I_bc 32 (InvertCondition c) cr NotLikelyB DontLinkB
                   :: long_stanza SecondScratchReg INVALID_OFFSET)
               (longJumps_ m ++ [nextOffset m + 4])
               (jumps_ m)).
Proof.
  intros Hb Hr. unfold ma_bc_cr. rewrite Hb.
  unfold bindM at 1. unfold currentOffset at 1. cbv beta iota. rewrite !Hr.
  cbn [JumpKind_eqb]. rewrite long_stanza_eq.
  unfold ma_liPatchable, patchable_load. emit_steps. flatten_buffer.
  replace (nextOffset {| m_buffer := m_buffer m ++ [I_bc (8 * 4) (InvertCondition c) cr NotLikelyB DontLinkB];
                         longJumps_ := longJumps_ m; jumps_ := jumps_ m |})
    with (nextOffset m + 4)
    by (unfold nextOffset; cbn [m_buffer]; rewrite length_app, Nat2Z.inj_add; cbn [length]; lia).
  reflexivity.
Qed.

Lemma ma_bc_cr_bound_short_unfit (cr : CRegisterID) (c : Condition) (label : Label)
      (m : MacroAssembler) :
  bound label = true ->
  BOffImm16_IsInSignedRange (to_int32 (Label_offset label - nextOffset m)) = false ->
  ma_bc_cr cr c label ShortJump m = Crashed m.
Proof.
  intros Hb Hr. unfold ma_bc_cr. rewrite Hb.
  unfold bindM at 1. unfold currentOffset at 1. cbv beta iota. rewrite !Hr.
  cbn [JumpKind_eqb]. emit_steps. reflexivity.
Qed.

Lemma emitted_Crashed_same {A : Type} (c : M A) (m : MacroAssembler) :
  c m = Crashed m -> emitted c m = [].
Proof.
  intros H. unfold emitted. rewrite H. cbn [finalMasm].
  rewrite <- (app_nil_r (m_buffer m)) at 2. apply skipn_app_exact.
Qed.

(** C5 (the claim as stated fails): a caller that asks for [ShortJump]
    to a bound label 40000 bytes behind the branch gets no inverted
    branch and no long-branch stanza; the range assertion stops the
    emission and no word is written. *)
Lemma ma_bc_cr_short_jump_out_of_range :
  bound (mkLabel 0 true) = true
  /\ BOffImm16_IsInSignedRange
       (to_int32 (Label_offset (mkLabel 0 true) - nextOffset (masmOfSize 10000))) = false
  /\ emitted (ma_bc_cr cr0 Equal (mkLabel 0 true) ShortJump) (masmOfSize 10000) = []
  /\ completed (ma_bc_cr cr0 Equal (mkLabel 0 true) ShortJump (masmOfSize 10000)) = false
  /\ ~ (exists imm,
          emitted (ma_bc_cr cr0 Equal (mkLabel 0 true) ShortJump) (masmOfSize 10000)
          = I_bc 32 (InvertCondition Equal) cr0 NotLikelyB DontLinkB
            :: patchable_load SecondScratchReg imm
               ++ [I_mtctr SecondScratchReg; I_bctr DontLinkB]).
Proof.
  assert (R : BOffImm16_IsInSignedRange
                (to_int32 (Label_offset (mkLabel 0 true) - nextOffset (masmOfSize 10000)))
              = false) by (vm_compute; reflexivity).
  pose proof (ma_bc_cr_bound_short_unfit cr0 Equal (mkLabel 0 true) (masmOfSize 10000)
                eq_refl R) as H.
  pose proof (emitted_Crashed_same _ _ H) as E.
  split; [reflexivity|]. split; [exact R|]. split; [exact E|].
  split; [now rewrite H|].
  intros [imm Himm]. rewrite E in Himm. discriminate.
Qed.

(** C5 (amended): for every branch emission to an already-bound label,
    when the displacement fits the signed 16-bit range exactly one
    conditional branch is written; when it does not fit and the caller
    asked for [LongJump], an inverted-condition branch over 32 bytes is
    written, followed by the long-branch stanza: the five-word patchable
    load into the second scratch register (holding the placeholder
    [INVALID_OFFSET], its site recorded by [addLongJump]), mtctr and
    bctr; when it does not fit and the caller asked for [ShortJump], the
    range assertion fails and nothing is written. *)
Theorem ma_bc_cr_bound_label :
  forall (cr : CRegisterID) (c : Condition) (label : Label) (jumpKind : JumpKind)
         (m : MacroAssembler),
    bound label = true ->
    (BOffImm16_IsInSignedRange (to_int32 (Label_offset label - nextOffset m)) = true ->
       completed (ma_bc_cr cr c label jumpKind m) = true
       /\ emitted (ma_bc_cr cr c label jumpKind) m =
          [I_bc (BOffImm16_encode (to_int32 (Label_offset label - nextOffset m)))
                c cr NotLikelyB DontLinkB])
    /\ (BOffImm16_IsInSignedRange (to_int32 (Label_offset label - nextOffset m)) = false ->
        jumpKind = LongJump ->
          completed (ma_bc_cr cr c label jumpKind m) = true
          /\ emitted (ma_bc_cr cr c label jumpKind) m =
             I_bc 32 (InvertCondition c) cr NotLikelyB DontLinkB
             :: patchable_load SecondScratchReg INVALID_OFFSET
                ++ [I_mtctr SecondScratchReg; I_bctr DontLinkB]
          /\ longJumps_ (finalMasm (ma_bc_cr cr c label jumpKind m))
             = longJumps_ m ++ [nextOffset m + 4])
    /\ (BOffImm16_IsInSignedRange (to_int32 (Label_offset label - nextOffset m)) = false ->
        jumpKind = ShortJump ->
          completed (ma_bc_cr cr c label jumpKind m) = false
          /\ emitted (ma_bc_cr cr c label jumpKind) m = []).
Proof.
  intros cr c label jumpKind m Hb. repeat split.
  - rewrite (ma_bc_cr_bound_short cr c label jumpKind m Hb H). reflexivity.
  - apply emitted_append with (a := label).
    exact (ma_bc_cr_bound_short cr c label jumpKind m Hb H).
  - subst jumpKind. rewrite (ma_bc_cr_bound_long cr c label m Hb H). reflexivity.
  - subst jumpKind. eapply emitted_of_append.
    + exact (ma_bc_cr_bound_long cr c label m Hb H).
    + reflexivity.
  - subst jumpKind. rewrite (ma_bc_cr_bound_long cr c label m Hb H). reflexivity.
  - subst jumpKind. rewrite (ma_bc_cr_bound_short_unfit cr c label m Hb H). reflexivity.
  - subst jumpKind. apply emitted_Crashed_same.
    exact (ma_bc_cr_bound_short_unfit cr c label m Hb H).
Qed.

Lemma ma_bc_cr_bound_label_witness :
  bound (mkLabel 0 true) = true
  /\ BOffImm16_IsInSignedRange
       (to_int32 (Label_offset (mkLabel 0 true) - nextOffset (masmOfSize 10000))) = false
  /\ LongJump = LongJump
  /\ emitted (ma_bc_cr cr0 Equal (mkLabel 0 true) LongJump) (masmOfSize 10000) =
     I_bc 32 (InvertCondition Equal) cr0 NotLikelyB DontLinkB
     :: patchable_load SecondScratchReg INVALID_OFFSET
        ++ [I_mtctr SecondScratchReg; I_bctr DontLinkB].
Proof.
  split; [reflexivity|]. split; [vm_compute; reflexivity|]. split; [reflexivity|].
  apply (proj2 (ma_bc_cr_bound_label cr0 Equal (mkLabel 0 true) LongJump
                  (masmOfSize 10000) eq_refl)).
  - vm_compute; reflexivity.
  - reflexivity.
Defined.

(* ----------------------------------------------------------------- *)
(** *** Loads and stores through a base register and an offset *)

(** What [ma_li] writes depends on the value alone, not on the buffer it
    is appended to. *)
Lemma ma_li_emits (dest : Register) (value : Z) :
  exists code, forall m, ma_li dest value m = Done tt (appendInstrs m code).
Proof.
  unfold ma_li, appendInstrs.
  repeat (emit_steps;
          match goal with
          | |- context [if ?b then _ else _] => destruct b
          end);
    emit_steps;
    first [ eexists; intros m; flatten_buffer; reflexivity
          | exists []; intros m; destruct m; cbn [m_buffer longJumps_ jumps_];
            rewrite app_nil_r; reflexivity ].
Qed.

Lemma ma_li_Imm32_emits (dest : Register) (imm : Z) :
  exists code, forall m, ma_li_Imm32 dest imm m = Done tt (appendInstrs m code).
Proof. unfold ma_li_Imm32. apply ma_li_emits. Qed.

Lemma to_int16_encode (v : Z) :
  Imm16_IsInSignedRange v = true -> to_int16 (Imm16_encode v) = v.
Proof.
  unfold Imm16_IsInSignedRange, INT16_MIN, INT16_MAX, to_int16, Imm16_encode,
         to_uint16, signed.
  rewrite andb_true_iff, Z.leb_le, Z.leb_le. intros [L U].
  change (2 ^ 16) with 65536. change (2 ^ (16 - 1)) with 32768.
  rewrite Z.mod_mod by lia.
  destruct (Z.lt_ge_cases v 0) as [N|P].
  - assert (E : v mod 65536 = v + 65536).
    { symmetry. apply Z.mod_unique with (q := -1); lia. }
    rewrite E. destruct (Z.ltb_spec (v + 65536) 32768); lia.
  - rewrite (Z.mod_small v) by lia. destruct (Z.ltb_spec v 32768); lia.
Qed.

Lemma valid_size_cases (size : LoadStoreSize) :
  valid_size size = true ->
  size = SizeByte \/ size = SizeHalfWord \/ size = SizeWord \/ size = SizeDouble.
Proof.
  unfold valid_size. rewrite !orb_true_iff, !Z.eqb_eq. tauto.
Qed.

(** Decides the tests of a transfer size against the four enumerators. *)
Ltac size_steps :=
  cbv beta iota delta
    [SizeByte SizeHalfWord SizeWord SizeDouble Z.eqb Pos.eqb
     load_instr store_instr sign_extension].

Lemma ma_load_direct (dest : Register) (address : Address) (size : LoadStoreSize)
      (extension : LoadStoreExtension) (m : MacroAssembler) :
  valid_size size = true ->
  Imm16_IsInSignedRange (offset address) = true ->
  base address <> ScratchRegister ->
  ma_load dest address size extension m =
  Done tt (appendInstrs m (load_instr size dest (base address) (offset address)
                           :: sign_extension size extension dest)).
Proof.
  intros Hs Hr Hb. unfold ma_load, appendInstrs.
  rewrite Hr. destruct (Z.eqb_spec (base address) ScratchRegister); [contradiction|].
  cbn [negb orb]. rewrite (to_int16_encode _ Hr).
  destruct (valid_size_cases size Hs) as [E|[E|[E|E]]]; subst size;
    destruct extension; emit_steps; size_steps; emit_steps; flatten_buffer;
    reflexivity.
Qed.

Lemma ma_store_direct (data : Register) (address : Address) (size : LoadStoreSize)
      (extension : LoadStoreExtension) (m : MacroAssembler) :
  valid_size size = true ->
  Imm16_IsInSignedRange (offset address) = true ->
  base address <> ScratchRegister ->
  ma_store data address size extension m =
  Done tt (appendInstrs m [store_instr size data (base address) (offset address)]).
Proof.
  intros Hs Hr Hb. unfold ma_store, appendInstrs.
  rewrite Hr. destruct (Z.eqb_spec (base address) ScratchRegister); [contradiction|].
  cbn [negb orb]. rewrite (to_int16_encode _ Hr).
  destruct (valid_size_cases size Hs) as [E|[E|[E|E]]]; subst size;
    emit_steps; size_steps; emit_steps; flatten_buffer; reflexivity.
Qed.

Lemma scratch_form_test (address : Address) :
  Imm16_IsInSignedRange (offset address) = false \/ base address = ScratchRegister ->
  negb (Imm16_IsInSignedRange (offset address)) || (base address =? ScratchRegister) = true.
Proof.
  intros [H|H].
  - now rewrite H.
  - rewrite H, Z.eqb_refl. apply orb_true_r.
Qed.

Lemma ma_load_scratch (dest : Register) (address : Address) (size : LoadStoreSize)
      (extension : LoadStoreExtension) (m : MacroAssembler) (li_code : list Instr) :
  valid_size size = true ->
  Imm16_IsInSignedRange (offset address) = false \/ base address = ScratchRegister ->
  base address <> SecondScratchReg ->
  (forall m', ma_li_Imm32 SecondScratchReg (offset address) m'
              = Done tt (appendInstrs m' li_code)) ->
  ma_load dest address size extension m =
  Done tt (appendInstrs m (li_code
                           ++ [I_add SecondScratchReg (base address) SecondScratchReg;
                               load_instr size dest SecondScratchReg 0]
                           ++ sign_extension size extension dest)).
Proof.
  intros Hs Hr Hb Hli. unfold ma_load.
  rewrite (scratch_form_test _ Hr).
  destruct (Z.eqb_spec (base address) SecondScratchReg); [contradiction|].
  cbn [negb]. unfold appendInstrs.
  destruct (valid_size_cases size Hs) as [E|[E|[E|E]]]; subst size;
    destruct extension; cbv beta iota delta [bindM MOZ_ASSERT]; rewrite Hli;
    unfold appendInstrs; emit_steps; size_steps; emit_steps; flatten_buffer;
    reflexivity.
Qed.

Lemma ma_store_scratch (data : Register) (address : Address) (size : LoadStoreSize)
      (extension : LoadStoreExtension) (m : MacroAssembler) (li_code : list Instr) :
  valid_size size = true ->
  Imm16_IsInSignedRange (offset address) = false \/ base address = ScratchRegister ->
  base address <> SecondScratchReg ->
  (forall m', ma_li_Imm32 SecondScratchReg (offset address) m'
              = Done tt (appendInstrs m' li_code)) ->
  ma_store data address size extension m =
  Done tt (appendInstrs m (li_code
                           ++ [I_add SecondScratchReg (base address) SecondScratchReg;
                               store_instr size data SecondScratchReg 0])).
Proof.
  intros Hs Hr Hb Hli. unfold ma_store.
  rewrite (scratch_form_test _ Hr).
  destruct (Z.eqb_spec (base address) SecondScratchReg); [contradiction|].
  cbn [negb]. unfold appendInstrs.
  destruct (valid_size_cases size Hs) as [E|[E|[E|E]]]; subst size;
    cbv beta iota delta [bindM MOZ_ASSERT]; rewrite Hli;
    unfold appendInstrs; emit_steps; size_steps; emit_steps; flatten_buffer;
    reflexivity.
Qed.

(** C7 (the claim as stated fails): with the first scratch register as
    base, an offset that fits the 16-bit field is still materialized, so
    three words are written where the claim promises the one access; and
    with the second scratch register as base and an offset that does not
    fit, the assertion fails and nothing is written. *)
Lemma ma_load_scratch_register_base :
  Imm16_IsInSignedRange (offset (mkAddress ScratchRegister 8)) = true
  /\ emitted (ma_load r3 (mkAddress ScratchRegister 8) SizeDouble ZeroExtend) emptyMasm
     = [I_li SecondScratchReg 8;
        I_add SecondScratchReg ScratchRegister SecondScratchReg;
        I_ld r3 SecondScratchReg 0]
  /\ emitted (ma_load r3 (mkAddress ScratchRegister 8) SizeDouble ZeroExtend) emptyMasm
     <> [I_ld r3 ScratchRegister 8]
  /\ emitted (ma_store r3 (mkAddress ScratchRegister 8) SizeDouble ZeroExtend) emptyMasm
     <> [I_std r3 ScratchRegister 8]
  /\ Imm16_IsInSignedRange (offset (mkAddress SecondScratchReg 40000)) = false
  /\ completed (ma_load r3 (mkAddress SecondScratchReg 40000) SizeDouble ZeroExtend emptyMasm)
     = false
  /\ emitted (ma_load r3 (mkAddress SecondScratchReg 40000) SizeDouble ZeroExtend) emptyMasm
     = [].
Proof.
  repeat split; try (vm_compute; reflexivity); vm_compute; discriminate.
Qed.

(** C7 (amended): for every load or store through a base register plus
    constant offset, when the offset fits the signed 16-bit displacement
    field and the base is not the first scratch register, exactly one
    memory-access instruction is written, with that displacement;
    otherwise, the base not being the second scratch register, the words
    that [ma_li] selects for the offset are written with the second
    scratch register as destination, then the add of the base to that
    register, and the access uses a zero displacement off that register;
    and a load narrower than 64 bits with sign extension requested is
    followed at once by a separate sign-extension instruction. *)
Theorem ma_load_store_selection :
  forall (reg : Register) (address : Address) (size : LoadStoreSize)
         (extension : LoadStoreExtension) (m : MacroAssembler),
    valid_size size = true ->
    (Imm16_IsInSignedRange (offset address) = true ->
     base address <> ScratchRegister ->
       emitted (ma_load reg address size extension) m
       = load_instr size reg (base address) (offset address)
         :: sign_extension size extension reg
       /\ emitted (ma_store reg address size extension) m
          = [store_instr size reg (base address) (offset address)]
       /\ length (filter is_memory_access (emitted (ma_load reg address size extension) m))
          = 1%nat
       /\ length (filter is_memory_access (emitted (ma_store reg address size extension) m))
          = 1%nat)
    /\ ((Imm16_IsInSignedRange (offset address) = false \/ base address = ScratchRegister) ->
        base address <> SecondScratchReg ->
          exists li_code,
            (forall m', ma_li_Imm32 SecondScratchReg (offset address) m'
                        = Done tt (appendInstrs m' li_code))
            /\ emitted (ma_load reg address size extension) m
               = li_code
                 ++ [I_add SecondScratchReg (base address) SecondScratchReg;
                     load_instr size reg SecondScratchReg 0]
                 ++ sign_extension size extension reg
            /\ emitted (ma_store reg address size extension) m
               = li_code
                 ++ [I_add SecondScratchReg (base address) SecondScratchReg;
                     store_instr size reg SecondScratchReg 0]).
Proof.
  intros reg address size extension m Hs. split.
  - intros Hr Hb.
    rewrite (emitted_append _ _ _ _ (ma_load_direct reg address size extension m Hs Hr Hb)).
    rewrite (emitted_append _ _ _ _ (ma_store_direct reg address size extension m Hs Hr Hb)).
    split; [reflexivity|]. split; [reflexivity|].
    destruct (valid_size_cases size Hs) as [E|[E|[E|E]]]; subst size;
      destruct extension; split; reflexivity.
  - intros Hr Hb.
    destruct (ma_li_Imm32_emits SecondScratchReg (offset address)) as [li_code Hli].
    exists li_code. split; [exact Hli|]. split.
    + apply emitted_append with (a := tt). now apply ma_load_scratch.
    + apply emitted_append with (a := tt). now apply ma_store_scratch.
Qed.

Lemma ma_load_store_selection_witness :
  valid_size SizeWord = true
  /\ Imm16_IsInSignedRange (offset (mkAddress r4 (-8))) = true
  /\ base (mkAddress r4 (-8)) <> ScratchRegister
  /\ emitted (ma_load r3 (mkAddress r4 (-8)) SizeWord SignExtend) emptyMasm
     = [I_lwz r3 r4 (-8); I_extsw r3 r3]
  /\ emitted (ma_store r3 (mkAddress r4 (-8)) SizeWord SignExtend) emptyMasm
     = [I_stw r3 r4 (-8)].
Proof.
  split; [reflexivity|]. split; [reflexivity|]. split; [discriminate|].
  pose proof (proj1 (ma_load_store_selection r3 (mkAddress r4 (-8)) SizeWord SignExtend
                       emptyMasm eq_refl) eq_refl) as H.
  assert (Hb : base (mkAddress r4 (-8)) <> ScratchRegister) by discriminate.
  destruct (H Hb) as [Hl [Hst _]].
  split; [exact Hl | exact Hst].
Defined.

(* ----------------------------------------------------------------- *)
(** *** Branches to a label that is not bound yet *)

Lemma ma_bc_cr_unbound_short (cr : CRegisterID) (c : Condition) (label : Label)
      (m : MacroAssembler) :
  bound label = false ->
  ma_bc_cr cr c label ShortJump m =
  Done (Label_use label (nextOffset m))
       (appendInstrs m
          [I_bc 4 c cr NotLikelyB DontLinkB;
           I_word (if used label then Label_offset label else INVALID_OFFSET)]).
Proof.
  intros Hb. unfold ma_bc_cr, appendInstrs. rewrite Hb. cbn [JumpKind_eqb].
  emit_steps. flatten_buffer. reflexivity.
Qed.

Lemma ma_bc_cr_unbound_long (cr : CRegisterID) (c : Condition) (label : Label)
      (m : MacroAssembler) :
  bound label = false ->
  ma_bc_cr cr c label LongJump m =
  Done (Label_use label (nextOffset m + 4))
       (appendInstrs m
          [I_bc 32 (InvertCondition c) cr NotLikelyB DontLinkB;
           I_trap_tagged LongJumpTag;
           I_word (if used label then Label_offset label else INVALID_OFFSET);
           I_nop; I_nop; I_nop; I_nop; I_nop]).
Proof.
  intros Hb. unfold ma_bc_cr, appendInstrs. rewrite Hb. cbn [JumpKind_eqb].
  emit_steps. flatten_buffer.
  replace (nextOffset {| m_buffer := m_buffer m ++ [I_bc (8 * 4) (InvertCondition c) cr NotLikelyB DontLinkB];
                         longJumps_ := longJumps_ m; jumps_ := jumps_ m |})
    with (nextOffset m + 4)
    by (unfold nextOffset; cbn [m_buffer]; rewrite length_app, Nat2Z.inj_add; cbn [length]; lia).
  reflexivity.
Qed.

(** The shapes of what [ma_bc_cr] leaves behind, over all the states of
    the label and both kinds of jump. *)
Lemma ma_bc_cr_shapes (cr : CRegisterID) (c : Condition) (label : Label)
      (jumpKind : JumpKind) (m : MacroAssembler) :
  exists br,
    m_buffer (finalMasm (ma_bc_cr cr c label jumpKind m)) = m_buffer m ++ br
    /\ (completed (ma_bc_cr cr c label jumpKind m) = true ->
        (exists off, br = [I_bc off c cr NotLikelyB DontLinkB])
        \/ (exists w, br = [I_bc 4 c cr NotLikelyB DontLinkB; I_word w])
        \/ (exists rest, br = I_bc 32 (InvertCondition c) cr NotLikelyB DontLinkB :: rest
                         /\ length rest = 7%nat)).
Proof.
  destruct (bound label) eqn:Hb.
  - destruct (BOffImm16_IsInSignedRange (to_int32 (Label_offset label - nextOffset m)))
      eqn:Hr.
    + rewrite (ma_bc_cr_bound_short cr c label jumpKind m Hb Hr).
      eexists. split; [reflexivity|]. intros _. left. eexists. reflexivity.
    + destruct jumpKind.
      * rewrite (ma_bc_cr_bound_long cr c label m Hb Hr).
        eexists. split; [reflexivity|]. intros _. right. right.
        eexists. split; reflexivity.
      * rewrite (ma_bc_cr_bound_short_unfit cr c label m Hb Hr).
        exists []. split; [cbn [finalMasm]; now rewrite app_nil_r | discriminate].
  - destruct jumpKind.
    + rewrite (ma_bc_cr_unbound_long cr c label m Hb).
      eexists. split; [reflexivity|]. intros _. right. right.
      eexists. split; reflexivity.
    + rewrite (ma_bc_cr_unbound_short cr c label m Hb).
      eexists. split; [reflexivity|]. intros _. right. left. eexists. reflexivity.
Qed.

Lemma cond_holds_invert (c : Condition) (f : Machine.CRField) :
  cond_sense c <> BranchAlways ->
  Machine.cond_holds (InvertCondition c) f = negb (Machine.cond_holds c f).
Proof.
  intros H. unfold Machine.cond_holds, InvertCondition; cbn [cond_bit cond_sense].
  destruct (cond_sense c); [reflexivity | now rewrite negb_involutive | contradiction].
Qed.

(** Whatever form [ma_bc_cr] chose, control goes to the label exactly
    when the condition holds on the tested field. *)
Lemma ma_bc_cr_goes_to_label (cr : CRegisterID) (c : Condition) (label : Label)
      (jumpKind : JumpKind) (m : MacroAssembler) (s : Machine.State) :
  cond_sense c <> BranchAlways ->
  completed (ma_bc_cr cr c label jumpKind m) = true ->
  branches_to_label (emitted (ma_bc_cr cr c label jumpKind) m) s
  = Some (Machine.cond_holds c (Machine.cr s cr)).
Proof.
  intros Hc Hd.
  destruct (ma_bc_cr_shapes cr c label jumpKind m) as [br [Hbuf Hshape]].
  unfold emitted. rewrite Hbuf, skipn_app_exact.
  destruct (Hshape Hd) as [[off E]|[[w E]|[rest [E L]]]]; subst br.
  - reflexivity.
  - reflexivity.
  - unfold branches_to_label.
    destruct rest as [|i1 rest]; [discriminate|].
    destruct rest as [|i2 rest]; [discriminate|].
    rewrite L. cbn [Z.of_nat]. change (32 =? 4 * (1 + Z.pos (Pos.of_succ_nat 6))) with true.
    cbv iota. rewrite cond_holds_invert by assumption. rewrite negb_involutive.
    destruct i1; reflexivity.
Qed.

Lemma ma_bc_cr_long_completes (cr : CRegisterID) (c : Condition) (label : Label)
      (m : MacroAssembler) :
  completed (ma_bc_cr cr c label LongJump m) = true.
Proof.
  destruct (bound label) eqn:Hb.
  - destruct (BOffImm16_IsInSignedRange (to_int32 (Label_offset label - nextOffset m)))
      eqn:Hr.
    + now rewrite (ma_bc_cr_bound_short cr c label LongJump m Hb Hr).
    + now rewrite (ma_bc_cr_bound_long cr c label m Hb Hr).
  - now rewrite (ma_bc_cr_unbound_long cr c label m Hb).
Qed.

(** What an emission writes after a prefix it has already written. *)
Lemma emitted_after_prefix {A : Type} (c k : M A) (m : MacroAssembler)
      (pre : list Instr) :
  c m = k (appendInstrs m pre) ->
  (exists br, m_buffer (finalMasm (k (appendInstrs m pre)))
              = m_buffer (appendInstrs m pre) ++ br) ->
  emitted c m = pre ++ emitted k (appendInstrs m pre).
Proof.
  intros Hc [br Hbr]. unfold emitted. rewrite Hc, Hbr.
  rewrite skipn_app_exact. unfold appendInstrs; cbn [m_buffer].
  rewrite <- app_assoc. apply skipn_app_exact.
Qed.

(* ----------------------------------------------------------------- *)
(** *** Arithmetic with an overflow test *)

Lemma ma_addTestOverflow_run (rd rs rt : Register) (overflow : Label) (m : MacroAssembler) :
  rs <> ScratchRegister -> rt <> ScratchRegister ->
  ma_addTestOverflow rd rs rt overflow m =
  ma_bc SOBit overflow default_jumpKind
        (appendInstrs m [I_li ScratchRegister 0; I_mtxer ScratchRegister; I_addo_rc rd rs rt]).
Proof.
  intros Hs Ht. unfold ma_addTestOverflow, appendInstrs.
  destruct (Z.eqb_spec rs ScratchRegister); [contradiction|].
  destruct (Z.eqb_spec rt ScratchRegister); [contradiction|].
  cbn [negb]. emit_steps. flatten_buffer. reflexivity.
Qed.

Lemma ma_subTestOverflow_run (rd rs rt : Register) (overflow : Label) (m : MacroAssembler) :
  rs <> ScratchRegister -> rt <> ScratchRegister ->
  ma_subTestOverflow rd rs rt overflow m =
  ma_bc SOBit overflow default_jumpKind
        (appendInstrs m [I_li ScratchRegister 0; I_mtxer ScratchRegister; I_subfo_rc rd rt rs]).
Proof.
  intros Hs Ht. unfold ma_subTestOverflow, appendInstrs.
  destruct (Z.eqb_spec rs ScratchRegister); [contradiction|].
  destruct (Z.eqb_spec rt ScratchRegister); [contradiction|].
  cbn [negb]. emit_steps. flatten_buffer. reflexivity.
Qed.

(** After XER has been cleared, the SO bit that an overflow-recording
    operation copies to CR0 is the overflow of that operation alone. *)
Lemma cleared_xer_then_arith (s : Machine.State) (rd : Register) (exact : Z) :
  Machine.crSO
    (Machine.cr
       (Machine.arith_o_rc
          (Machine.set_xer (Machine.set_gpr s ScratchRegister 0) false false false)
          rd exact)
       cr0)
  = Machine.overflows exact.
Proof. reflexivity. Qed.

Lemma cleared_xer_then_add (rd rs rt : Register) (s : Machine.State) :
  rs <> ScratchRegister -> rt <> ScratchRegister ->
  exists s',
    Machine.run [I_li ScratchRegister 0; I_mtxer ScratchRegister; I_addo_rc rd rs rt] s
    = Some s'
    /\ Machine.crSO (Machine.cr s' cr0)
       = Machine.overflows (to_int64 (Machine.gpr s rs) + to_int64 (Machine.gpr s rt)).
Proof.
  intros Hs Ht. eexists. split; [reflexivity|].
  cbn [Machine.exec]. rewrite gpr_set_same.
  change (to_uint64 (to_int16 0)) with 0.
  change (Z.testbit 0 31) with false. change (Z.testbit 0 30) with false.
  change (Z.testbit 0 29) with false.
  rewrite cleared_xer_then_arith.
  unfold Machine.set_xer; cbn [Machine.gpr].
  now rewrite !gpr_set_other by assumption.
Qed.

Lemma cleared_xer_then_subtract (rd rs rt : Register) (s : Machine.State) :
  rs <> ScratchRegister -> rt <> ScratchRegister ->
  exists s',
    Machine.run [I_li ScratchRegister 0; I_mtxer ScratchRegister; I_subfo_rc rd rt rs] s
    = Some s'
    /\ Machine.crSO (Machine.cr s' cr0)
       = Machine.overflows (to_int64 (Machine.gpr s rs) - to_int64 (Machine.gpr s rt)).
Proof.
  intros Hs Ht. eexists. split; [reflexivity|].
  cbn [Machine.exec]. rewrite gpr_set_same.
  change (to_uint64 (to_int16 0)) with 0.
  change (Z.testbit 0 31) with false. change (Z.testbit 0 30) with false.
  change (Z.testbit 0 29) with false.
  rewrite cleared_xer_then_arith.
  unfold Machine.set_xer; cbn [Machine.gpr].
  now rewrite !gpr_set_other by assumption.
Qed.

(** The branch on [SOBit] goes to its label exactly when CR0[SO] is set. *)
Lemma SOBit_branch_goes_to_label (overflow : Label) (m : MacroAssembler)
      (s : Machine.State) :
  branches_to_label (emitted (ma_bc SOBit overflow default_jumpKind) m) s
  = Some (Machine.crSO (Machine.cr s cr0)).
Proof.
  unfold ma_bc. rewrite ma_bc_cr_goes_to_label;
    [reflexivity | discriminate | apply ma_bc_cr_long_completes].
Qed.

Lemma ma_bc_extends (c : Condition) (label : Label) (jumpKind : JumpKind)
      (m : MacroAssembler) :
  exists br, m_buffer (finalMasm (ma_bc c label jumpKind m)) = m_buffer m ++ br.
Proof.
  destruct (ma_bc_cr_shapes cr0 c label jumpKind m) as [br [Hbr _]].
  exists br. exact Hbr.
Qed.

Lemma ma_addTestOverflow_imm_run (rd rs : Register) (imm : Z) (overflow : Label)
      (m : MacroAssembler) (li_code : list Instr) :
  rs <> ScratchRegister ->
  (forall m', ma_li_Imm32 SecondScratchReg imm m' = Done tt (appendInstrs m' li_code)) ->
  ma_addTestOverflow_imm rd rs imm overflow m =
  ma_bc SOBit overflow default_jumpKind
        (appendInstrs m (li_code ++ [I_li ScratchRegister 0; I_mtxer ScratchRegister;
                                     I_addo_rc rd rs SecondScratchReg])).
Proof.
  intros Hs Hli. unfold ma_addTestOverflow_imm.
  rewrite (bind_Done _ _ _ _ _ (Hli m)).
  rewrite ma_addTestOverflow_run by (assumption || discriminate).
  now rewrite appendInstrs_app.
Qed.

(* ----------------------------------------------------------------- *)
(** *** Doublewords as bit vectors *)

Lemma testbit_above_64 (x j : Z) :
  0 <= x < 2 ^ 64 -> 64 <= j -> Z.testbit x j = false.
Proof.
  intros [L U] Hj. destruct (Z.eq_dec x 0) as [->|N].
  - apply Z.bits_0.
  - apply Z.bits_above_log2; [assumption|].
    assert (Z.log2 x < 64) by (apply Z.log2_lt_pow2; lia). lia.
Qed.

Lemma below_pow2_of_bits (x n : Z) :
  0 <= n -> 0 <= x -> (forall j, n <= j -> Z.testbit x j = false) -> x < 2 ^ n.
Proof.
  intros Hn Hx H.
  assert (E : x mod 2 ^ n = x).
  { apply Z.bits_inj'. intros i Hi. destruct (Z.lt_ge_cases i n).
    - now apply Z.mod_pow2_bits_low.
    - rewrite Z.mod_pow2_bits_high by lia. symmetry. now apply H. }
  rewrite <- E. apply Z.mod_pos_bound. apply Z.pow_pos_nonneg; lia.
Qed.


(** srdi: rotating left by [64 - n] and keeping the low [64 - n] bits is
    the logical shift right by [n]. *)
Lemma srdi_shifts_right (x n : Z) :
  0 <= x < 2 ^ 64 -> 0 < n < 64 ->
  Z.land (rotl64 x (64 - n)) (MASK n 63) = Z.shiftr x n.
Proof.
  intros Hx Hn. unfold rotl64, MASK, ones_from, to_uint64.
  destruct (Z.leb_spec n 63); [|lia].
  rewrite (Z.mod_small x) by lia. rewrite (Z.mod_small (64 - n)) by lia.
  replace (64 - (64 - n)) with n by lia.
  replace (64 - (63 + 1)) with 0 by lia. change (2 ^ 0 - 1) with 0.
  rewrite Z.sub_0_r. replace (2 ^ (64 - n) - 1) with (Z.ones (64 - n))
    by (rewrite Z.ones_equiv; lia).
  apply Z.bits_inj'. intros i Hi. rewrite Z.land_spec, Z.shiftr_spec by lia.
  destruct (Z.lt_ge_cases i (64 - n)) as [Lo|Hi'].
  - rewrite Z.ones_spec_low by lia. rewrite andb_true_r.
    rewrite Z.mod_pow2_bits_low by lia.
    rewrite Z.lor_spec, Z.shiftl_spec, Z.shiftr_spec by lia.
    rewrite (Z.testbit_neg_r x (i - (64 - n))) by lia. reflexivity.
  - rewrite Z.ones_spec_high by lia. rewrite andb_false_r.
    symmetry. apply testbit_above_64; [assumption | lia].
Qed.





(* ----------------------------------------------------------------- *)
(** *** Fallible unboxing *)







(* ----------------------------------------------------------------- *)
(** *** Signed and unsigned compares *)


(** On -1 and 1 the signed less-than branch and the unsigned less-than
    branch that [ma_bc] synthesizes disagree. *)
Lemma signed_and_unsigned_less_than_disagree (lhs rhs : Register) :
  lhs <> rhs ->
  exists s1 s2,
    Machine.run [I_cmpd lhs rhs] (with_operands lhs rhs (to_uint64 (-1)) 1) = Some s1
    /\ Machine.cond_holds LessThan (Machine.cr s1 cr0) = true
    /\ Machine.run [I_cmpld lhs rhs] (with_operands lhs rhs (to_uint64 (-1)) 1) = Some s2
    /\ Machine.cond_holds Below (Machine.cr s2 cr0) = false.
Proof.
  intros H. do 2 eexists.
  split; [reflexivity|]. split.
  - unfold with_operands. cbn [Machine.cr Machine.set_cr CRegisterID_eqb].
    rewrite gpr_set_same, gpr_set_other, gpr_set_same by assumption. reflexivity.
  - split; [reflexivity|].
    unfold with_operands. cbn [Machine.cr Machine.set_cr CRegisterID_eqb].
    rewrite gpr_set_same, gpr_set_other, gpr_set_same by assumption. reflexivity.
Qed.

Lemma ma_cmp_set_emits (rd rs rt : Register) (c : Condition) (m : MacroAssembler) :
  In c [Equal; NotEqual; Above; AboveOrEqual; GreaterThanOrEqual; Below; LessThan;
        BelowOrEqual; LessThanOrEqual; GreaterThan] ->
  exists sh tail,
    ma_cmp_set rd rs rt c m =
    Done tt (appendInstrs m ([I_mfcr rd; I_cmpd rs rt; I_mfcr rd; I_rlwinm rd rd sh 30 31]
                             ++ tail))
    /\ (tail = [] \/ tail = [I_xori rd rd 1]).
Proof.
  destruct m as [b l j]. cbn [In].
  intros [H|[H|[H|[H|[H|[H|[H|[H|[H|[H|[]]]]]]]]]]]; subst c;
    do 2 eexists; (split; [cbv -[app]; flatten_buffer; reflexivity|]); auto.
Qed.

(** C6 (as the code has it): the compare-and-set on two registers writes
    the signed compare cmpd for every condition it accepts, the four
    that carry the unsigned modifier included; so for [Below] it writes
    word for word what it writes for [LessThan], and the two cannot
    disagree on any pair of operands. *)
Theorem ma_cmp_set_compares_signed_whatever_the_condition :
  forall (rd rs rt : Register) (m : MacroAssembler),
    ConditionUnsigned Below = true
    /\ emitted (ma_cmp_set rd rs rt Below) m
       = [I_mfcr rd; I_cmpd rs rt; I_mfcr rd; I_rlwinm rd rd 28 30 31]
    /\ emitted (ma_cmp_set rd rs rt Below) m = emitted (ma_cmp_set rd rs rt LessThan) m
    /\ emitted (ma_cmp_set rd rs rt Above) m = emitted (ma_cmp_set rd rs rt GreaterThan) m
    /\ Forall (fun c => ConditionUnsigned c = true
                        /\ existsb is_signed_compare (emitted (ma_cmp_set rd rs rt c) m) = true
                        /\ existsb is_unsigned_compare (emitted (ma_cmp_set rd rs rt c) m)
                           = false)
              [Above; AboveOrEqual; Below; BelowOrEqual].
Proof.
  intros rd rs rt m.
  assert (E : forall c code,
             ma_cmp_set rd rs rt c m = Done tt (appendInstrs m code) ->
             emitted (ma_cmp_set rd rs rt c) m = code)
    by (intros c code H; now apply emitted_append with (a := tt)).
  assert (R : forall c code, (forall b l j, ma_cmp_set rd rs rt c (mkMasm b l j)
                                            = Done tt (appendInstrs (mkMasm b l j) code)) ->
                             emitted (ma_cmp_set rd rs rt c) m = code)
    by (intros c code H; apply E; destruct m; apply H).
  assert (EB : emitted (ma_cmp_set rd rs rt Below) m
               = [I_mfcr rd; I_cmpd rs rt; I_mfcr rd; I_rlwinm rd rd 28 30 31])
    by (apply R; intros; cbv -[app]; flatten_buffer; reflexivity).
  assert (EL : emitted (ma_cmp_set rd rs rt LessThan) m
               = [I_mfcr rd; I_cmpd rs rt; I_mfcr rd; I_rlwinm rd rd 28 30 31])
    by (apply R; intros; cbv -[app]; flatten_buffer; reflexivity).
  assert (EA : emitted (ma_cmp_set rd rs rt Above) m
               = [I_mfcr rd; I_cmpd rs rt; I_mfcr rd; I_rlwinm rd rd 30 30 31])
    by (apply R; intros; cbv -[app]; flatten_buffer; reflexivity).
  assert (EG : emitted (ma_cmp_set rd rs rt GreaterThan) m
               = [I_mfcr rd; I_cmpd rs rt; I_mfcr rd; I_rlwinm rd rd 30 30 31])
    by (apply R; intros; cbv -[app]; flatten_buffer; reflexivity).
  assert (EAE : emitted (ma_cmp_set rd rs rt AboveOrEqual) m
                = [I_mfcr rd; I_cmpd rs rt; I_mfcr rd; I_rlwinm rd rd 28 30 31;
                   I_xori rd rd 1])
    by (apply R; intros; cbv -[app]; flatten_buffer; reflexivity).
  assert (EBE : emitted (ma_cmp_set rd rs rt BelowOrEqual) m
                = [I_mfcr rd; I_cmpd rs rt; I_mfcr rd; I_rlwinm rd rd 30 30 31;
                   I_xori rd rd 1])
    by (apply R; intros; cbv -[app]; flatten_buffer; reflexivity).
  split; [reflexivity|]. split; [exact EB|].
  split; [now rewrite EB, EL|]. split; [now rewrite EA, EG|].
  repeat constructor; rewrite ?EA, ?EAE, ?EB, ?EBE; reflexivity.
Qed.

(* ----------------------------------------------------------------- *)
(** *** Retry loops of the atomic sequences *)

(** What a store-conditional leaves in CR0[EQ]: whether the reservation
    was still held for the address. *)
Lemma store_conditional_reports (s : Machine.State) (rs ra rb : Register) (n : nat) :
  Machine.crEQ (Machine.cr (Machine.store_conditional s rs ra rb n) cr0)
  = match Machine.reserve s with
    | Some a => a =? to_uint64 (Machine.base_or_zero s ra + Machine.gpr s rb)
    | None => false
    end.
Proof. reflexivity. Qed.

Lemma gpr_store_conditional (s : Machine.State) (rs ra rb r : Register) (n : nat) :
  Machine.gpr (Machine.store_conditional s rs ra rb n) r = Machine.gpr s r.
Proof.
  unfold Machine.store_conditional.
  destruct (match Machine.reserve s with Some a => _ | None => false end); reflexivity.
Qed.

(** A branch on CR0 straight after the store-conditional, as
    [AtomicExchange64] and the word-sized [CompareExchange] have it, is
    taken exactly when the reservation was lost. *)
Lemma branch_after_store_conditional (s : Machine.State) (rs ra rb : Register) (n : nat)
      (off : Z) :
  Machine.branch_taken (I_bc off NotEqual cr0 NotLikelyB DontLinkB)
                       (Machine.store_conditional s rs ra rb n)
  = Some (negb (Machine.crEQ (Machine.cr (Machine.store_conditional s rs ra rb n) cr0))).
Proof. reflexivity. Qed.

Lemma AtomicExchange64_retries_on_lost_reservation
      (sync : Synchronization) (src output : Register) :
  emitted (AtomicExchange64 sync (mkAddress r3 16) src output) emptyMasm
  = [I_addi SecondScratchReg r3 16; I_lwsync;
     I_ldarx output r0 SecondScratchReg;
     I_stdcx src r0 SecondScratchReg;
     I_bc (BOffImm16_encode (-8)) NotEqual cr0 NotLikelyB DontLinkB;
     I_lwsync].
Proof. reflexivity. Qed.

Lemma CompareExchange_word_retries_on_lost_reservation
      (sync : Synchronization) (oldval newval output : Register) :
  emitted (CompareExchange Int32 sync (mkAddress r3 16) oldval newval
             InvalidReg InvalidReg InvalidReg output) emptyMasm
  = [I_addi SecondScratchReg r3 16; I_lwsync;
     I_lwarx output r0 SecondScratchReg;
     I_cmpd output oldval;
     I_bc (BOffImm16_encode 20) NotEqual cr0 NotLikelyB DontLinkB;
     I_nop;
     I_stwcx newval r0 SecondScratchReg;
     I_bc (BOffImm16_encode (-20)) NotEqual cr0 NotLikelyB DontLinkB;
     I_lwsync].
Proof. reflexivity. Qed.

(** In [AtomicFetchOp64] too the retry branch follows a compare of a
    register with itself. *)
Lemma AtomicFetchOp64_retry_branch_never_taken
      (sync : Synchronization) (value temp output : Register) (s : Machine.State) :
  emitted (AtomicFetchOp64 sync AtomicFetchAddOp value (mkAddress r3 16) temp output)
          emptyMasm
  = [I_addi SecondScratchReg r3 16; I_lwsync;
     I_ldarx output r0 SecondScratchReg;
     I_add temp output value;
     I_stdcx temp r0 SecondScratchReg;
     I_cmpd temp temp;
     I_bc (BOffImm16_encode (-16)) NotEqual cr0 NotLikelyB DontLinkB;
     I_lwsync]
  /\ exists s',
       Machine.run [I_stdcx temp r0 SecondScratchReg; I_cmpd temp temp] s = Some s'
       /\ Machine.branch_taken
            (I_bc (BOffImm16_encode (-16)) NotEqual cr0 NotLikelyB DontLinkB) s'
          = Some false.
Proof.
  split; [reflexivity|]. eexists. split; [reflexivity|].
  cbn [Machine.branch_taken Machine.cr Machine.set_cr CRegisterID_eqb].
  unfold Machine.cond_holds, Machine.compare; cbn [cond_bit cond_sense NotEqual
    base_condition Machine.crEQ]. now rewrite Z.eqb_refl.
Qed.

(** In the byte and half-word [CompareExchange] the retry branch tests
    whether the word that was to be stored is zero. *)
Lemma CompareExchange_byte_retry_branch_tests_the_stored_word
      (sync : Synchronization) (oldval newval valueTemp offsetTemp maskTemp output : Register)
      (s : Machine.State) :
  skipn 19 (emitted (CompareExchange Uint8 sync (mkAddress r3 16) oldval newval
                       valueTemp offsetTemp maskTemp output) emptyMasm)
  = [I_stwcx ScratchRegister r0 SecondScratchReg;
     I_cmpdi ScratchRegister 0;
     I_bc (BOffImm16_encode (-48)) Zero cr0 NotLikelyB DontLinkB;
     I_lwsync]
  /\ exists s',
       Machine.run [I_stwcx ScratchRegister r0 SecondScratchReg; I_cmpdi ScratchRegister 0] s
       = Some s'
       /\ Machine.branch_taken
            (I_bc (BOffImm16_encode (-48)) Zero cr0 NotLikelyB DontLinkB) s'
          = Some (to_int64 (Machine.gpr s ScratchRegister) =? 0).
Proof.
  split; [reflexivity|]. eexists. split; [reflexivity|].
  cbn [Machine.branch_taken Machine.cr Machine.set_cr CRegisterID_eqb].
  rewrite gpr_store_conditional. reflexivity.
Qed.

(** C4 (as the code has it): in the sequence of [CompareExchange64] the
    retry branch does target the load-reserve (word 2, from word 9, over
    -28 bytes), but between the store-conditional and the branch the
    scratch register is compared with itself, which overwrites what the
    store-conditional reported in CR0; the compare always finds equality,
    so the branch on not-equal is never taken, whether the reservation
    was lost or not, and the loop never retries. *)
Theorem CompareExchange64_retry_branch_never_taken :
  forall (sync : Synchronization) (expect replace output : Register) (s : Machine.State),
    nth_error (emitted (CompareExchange64 sync (mkAddress r3 16) expect replace output)
                 emptyMasm) 2
    = Some (I_ldarx output r0 SecondScratchReg)
    /\ skipn 7 (emitted (CompareExchange64 sync (mkAddress r3 16) expect replace output)
                  emptyMasm)
       = [I_stdcx ScratchRegister r0 SecondScratchReg;
          I_cmpd ScratchRegister ScratchRegister;
          I_bc (BOffImm16_encode (-28)) NotEqual cr0 NotLikelyB DontLinkB;
          I_lwsync]
    /\ to_int16 (BOffImm16_encode (-28)) = 4 * (2 - 9)
    /\ Machine.crEQ (Machine.cr (Machine.store_conditional
                                   s ScratchRegister r0 SecondScratchReg 8) cr0)
       = match Machine.reserve s with
         | Some a => a =? to_uint64 (Machine.gpr s SecondScratchReg)
         | None => false
         end
    /\ exists s',
         Machine.run [I_stdcx ScratchRegister r0 SecondScratchReg;
                      I_cmpd ScratchRegister ScratchRegister] s = Some s'
         /\ Machine.branch_taken
              (I_bc (BOffImm16_encode (-28)) NotEqual cr0 NotLikelyB DontLinkB) s'
            = Some false.
Proof.
  intros sync expect replace output s.
  split; [reflexivity|]. split; [reflexivity|]. split; [reflexivity|].
  split; [reflexivity|].
  eexists. split; [reflexivity|].
  cbn [Machine.branch_taken Machine.cr Machine.set_cr CRegisterID_eqb].
  unfold Machine.cond_holds, Machine.compare; cbn [cond_bit cond_sense NotEqual
    base_condition Machine.crEQ]. now rewrite Z.eqb_refl.
Qed.

(* ----------------------------------------------------------------- *)
(** *** The patchable load brings every doubleword back *)

Lemma testbit_mod_pow2 (a n i : Z) :
  0 <= n -> 0 <= i -> Z.testbit (a mod 2 ^ n) i = (i <? n) && Z.testbit a i.
Proof.
  intros Hn Hi. destruct (Z.ltb_spec i n).
  - now rewrite Z.mod_pow2_bits_low.
  - now rewrite Z.mod_pow2_bits_high by lia.
Qed.

Lemma testbit_signed (w x i : Z) :
  0 < w -> 0 <= i < w -> Z.testbit (signed w x) i = Z.testbit x i.
Proof.
  intros Hw Hi. unfold signed.
  assert (P : 0 < 2 ^ w) by (apply Z.pow_pos_nonneg; lia).
  destruct (x mod 2 ^ w <? 2 ^ (w - 1)).
  - rewrite Z.mod_pow2_bits_low by lia. reflexivity.
  - rewrite <- (Z.mod_pow2_bits_low (x mod 2 ^ w - 2 ^ w) w i) by lia.
    replace (x mod 2 ^ w - 2 ^ w) with (x mod 2 ^ w + (-1) * 2 ^ w) by lia.
    rewrite Z.mod_add by lia. rewrite Z.mod_mod by lia.
    now rewrite Z.mod_pow2_bits_low by lia.
Qed.

Lemma testbit_halfword_mask (i : Z) : 0 <= i -> Z.testbit 0xffff i = (i <? 16).
Proof.
  intros Hi. change 0xffff with (Z.ones 16). destruct (Z.ltb_spec i 16).
  - now apply Z.ones_spec_low.
  - now apply Z.ones_spec_high.
Qed.

Lemma testbit_halfword (x i : Z) :
  0 <= i -> Z.testbit (to_uint16 x) i = (i <? 16) && Z.testbit x i.
Proof. intros. unfold to_uint16. now apply testbit_mod_pow2. Qed.

Lemma testbit_Imm16_Lower (x i : Z) :
  0 <= i ->
  Z.testbit (Imm16_encode (Imm16_Lower (Imm32 x))) i = (i <? 16) && Z.testbit x i.
Proof.
  intros Hi. unfold Imm16_encode, Imm16_Lower, Imm32, to_uint16, to_int32.
  rewrite testbit_mod_pow2 by lia. rewrite Z.land_spec, testbit_halfword_mask by lia.
  destruct (Z.ltb_spec i 16); [|reflexivity].
  rewrite testbit_signed by lia. now rewrite andb_true_r.
Qed.

Lemma testbit_Imm16_Upper (x i : Z) :
  0 <= i ->
  Z.testbit (Imm16_encode (Imm16_Upper (Imm32 x))) i = (i <? 16) && Z.testbit x (i + 16).
Proof.
  intros Hi. unfold Imm16_encode, Imm16_Upper, Imm32, to_uint16, to_int32.
  rewrite testbit_mod_pow2 by lia. rewrite Z.land_spec, testbit_halfword_mask by lia.
  rewrite Z.shiftr_spec by lia.
  destruct (Z.ltb_spec i 16); [|reflexivity].
  rewrite testbit_signed by lia. now rewrite andb_true_r.
Qed.

(** lis: in the low word, the halfword sits in bits 16 to 31. *)
Lemma testbit_lis (a i : Z) :
  0 <= i < 32 ->
  Z.testbit (to_uint64 (to_int16 a * 65536)) i = (16 <=? i) && Z.testbit a (i - 16).
Proof.
  intros Hi. unfold to_uint64, to_int16. rewrite Z.mod_pow2_bits_low by lia.
  change 65536 with (2 ^ 16). rewrite <- Z.shiftl_mul_pow2 by lia.
  rewrite Z.shiftl_spec by lia.
  destruct (Z.leb_spec 16 i).
  - rewrite testbit_signed by lia. reflexivity.
  - now rewrite Z.testbit_neg_r by lia.
Qed.

(** rldicr by 32 with mask end 31: the low word moves to the high word
    and the low word is cleared, so whatever sign extension lis left in
    the high word is gone. *)
Lemma testbit_rldicr_32_31 (x i : Z) :
  0 <= i ->
  Z.testbit (Z.land (rotl64 x 32) (MASK 0 31)) i
  = (32 <=? i) && (i <? 64) && Z.testbit x (i - 32).
Proof.
  intros Hi. rewrite Z.land_spec.
  change (MASK 0 31) with (Z.shiftl (Z.ones 32) 32).
  unfold rotl64, to_uint64. change (32 mod 64) with 32. change (64 - 32) with 32.
  rewrite testbit_mod_pow2 by lia.
  rewrite Z.lor_spec, !Z.shiftl_spec, Z.shiftr_spec by lia.
  destruct (Z.leb_spec 32 i).
  - destruct (Z.ltb_spec i 64).
    + rewrite Z.ones_spec_low by lia. rewrite testbit_mod_pow2 by lia.
      replace (i - 32 <? 64) with true by (symmetry; apply Z.ltb_lt; lia).
      cbn [andb]. rewrite andb_true_r.
      rewrite testbit_mod_pow2 by lia.
      replace (i + 32 <? 64) with false by (symmetry; apply Z.ltb_ge; lia).
      cbn [andb]. now rewrite orb_false_r.
    + reflexivity.
  - rewrite (Z.testbit_neg_r (Z.ones 32)) by lia. now rewrite andb_false_r.
Qed.

(** Where [ma_li] goes wrong the patchable form does not: its five words
    load every doubleword exactly. *)
Lemma ma_liPatchable_roundtrip (dest : Register) (imm : Z) (m : MacroAssembler)
      (s : Machine.State) :
  0 <= imm < 2 ^ 64 ->
  exists s', Machine.run (emitted (ma_liPatchable dest imm) m) s = Some s'
             /\ Machine.gpr s' dest = imm.
Proof.
  intros Himm.
  rewrite (emitted_append _ _ _ _ (ma_liPatchable_emits dest imm m)).
  eexists. split; [reflexivity|].
  rewrite !gpr_set_same.
  assert (E : to_uint64 imm = imm) by (apply Z.mod_small; exact Himm).
  rewrite E.
  apply Z.bits_inj'. intros i Hi.
  rewrite !Z.lor_spec, testbit_rldicr_32_31 by lia.
  rewrite (Z.shiftl_spec _ 16 i) by lia.
  rewrite (testbit_halfword _ i), testbit_Imm16_Lower by lia.
  destruct (Z.lt_ge_cases i 16) as [C1|C1].
  - (* the low halfword comes from the last ori *)
    rewrite (Z.testbit_neg_r _ (i - 16)) by lia.
    replace (32 <=? i) with false by (symmetry; apply Z.leb_gt; lia).
    replace (i <? 16) with true by (symmetry; apply Z.ltb_lt; lia).
    reflexivity.
  - replace (i <? 16) with false by (symmetry; apply Z.ltb_ge; lia).
    cbn [andb]. rewrite orb_false_r.
    rewrite (testbit_halfword _ (i - 16)), testbit_Imm16_Upper by lia.
    replace (i - 16 + 16) with i by lia.
    destruct (Z.lt_ge_cases i 32) as [C2|C2].
    + (* the second halfword comes from oris *)
      replace (32 <=? i) with false by (symmetry; apply Z.leb_gt; lia).
      replace (i - 16 <? 16) with true by (symmetry; apply Z.ltb_lt; lia).
      reflexivity.
    + replace (32 <=? i) with true by (symmetry; apply Z.leb_le; lia).
      replace (i - 16 <? 16) with false by (symmetry; apply Z.ltb_ge; lia).
      cbn [andb]. rewrite orb_false_r.
      destruct (Z.lt_ge_cases i 64) as [C3|C3].
      * (* the high word was built in the low word and rotated up *)
        replace (i <? 64) with true by (symmetry; apply Z.ltb_lt; lia).
        cbn [andb]. rewrite Z.lor_spec, testbit_lis by lia.
        rewrite (testbit_halfword _ (i - 32)), testbit_Imm16_Lower by lia.
        rewrite Z.shiftr_spec by lia. replace (i - 32 + 32) with i by lia.
        destruct (Z.lt_ge_cases i 48) as [C4|C4].
        -- replace (16 <=? i - 32) with false by (symmetry; apply Z.leb_gt; lia).
           replace (i - 32 <? 16) with true by (symmetry; apply Z.ltb_lt; lia).
           reflexivity.
        -- replace (16 <=? i - 32) with true by (symmetry; apply Z.leb_le; lia).
           replace (i - 32 <? 16) with false by (symmetry; apply Z.ltb_ge; lia).
           cbn [andb]. rewrite orb_false_r.
           rewrite testbit_Imm16_Upper by lia.
           replace (i - 32 - 16 <? 16) with true by (symmetry; apply Z.ltb_lt; lia).
           cbn [andb]. rewrite Z.shiftr_spec by lia. f_equal. lia.
      * replace (i <? 64) with false by (symmetry; apply Z.ltb_ge; lia).
        cbn [andb]. symmetry. apply testbit_above_64; assumption.
Qed.

(* ----------------------------------------------------------------- *)
(** *** Displacements *)

(** The displacement field of a short branch gives the displacement
    back: the branch lands on the bound offset. *)
Lemma BOffImm16_encode_decodes (off : Z) :
  BOffImm16_IsInSignedRange off = true -> off mod 4 = 0 ->
  to_int16 (BOffImm16_encode off) = off.
Proof.
  intros Hr H4.
  assert (E : BOffImm16_encode off = Imm16_encode off).
  { unfold BOffImm16_encode, Imm16_encode, to_uint16.
    apply Z.bits_inj'. intros i Hi.
    rewrite Z.land_spec, testbit_mod_pow2 by lia.
    change 0xFFFC with (Z.shiftl (Z.ones 14) 2). rewrite Z.shiftl_spec by lia.
    destruct (Z.lt_ge_cases i 2) as [Lo|Hi2].
    - rewrite (Z.testbit_neg_r _ (i - 2)) by lia. rewrite andb_false_r.
      assert (D : off = 2 ^ 2 * (off / 4)).
      { change (2 ^ 2) with 4. rewrite (Z.div_mod off 4) at 1 by lia. lia. }
      rewrite D, Z.mul_comm, Z.mul_pow2_bits_low by lia.
      now rewrite andb_false_r.
    - destruct (Z.ltb_spec i 16).
      + rewrite Z.ones_spec_low by lia. now rewrite andb_true_r.
      + rewrite Z.ones_spec_high by lia. now rewrite andb_false_r. }
  rewrite E. now apply to_int16_encode.
Qed.

(** The sign extension of [ma_li] reaches the loads and stores: an
    offset of 40000 does not fit the displacement field, and the address
    that the emitted words form is 25536 bytes below the base instead of
    40000 above it. *)
Lemma ma_load_offset_40000_forms_wrong_address (s : Machine.State) :
  emitted (ma_load r3 (mkAddress r4 40000) SizeDouble ZeroExtend) emptyMasm
  = [I_li SecondScratchReg 40000; I_add SecondScratchReg r4 SecondScratchReg;
     I_ld r3 SecondScratchReg 0]
  /\ exists s',
       Machine.run [I_li SecondScratchReg 40000;
                    I_add SecondScratchReg r4 SecondScratchReg] s = Some s'
       /\ Machine.gpr s' SecondScratchReg = to_uint64 (Machine.gpr s r4 - 25536).
Proof.
  split; [reflexivity|]. eexists. split; [reflexivity|].
  rewrite gpr_set_same, gpr_set_same, gpr_set_other by discriminate.
  change (to_uint64 (to_int16 40000)) with (2 ^ 64 - 25536).
  unfold to_uint64.
  replace (Machine.gpr s r4 + (2 ^ 64 - 25536))
    with (Machine.gpr s r4 - 25536 + 1 * 2 ^ 64) by lia.
  now rewrite Z.mod_add by lia.
Qed.

(* ================================================================= *)
(** ** Properties of the further operations *)

Lemma only_gpr_changed_refl (d : Register) (s : Machine.State) : only_gpr_changed d s s.
Proof. repeat split. Qed.

Lemma only_gpr_changed_set (d : Register) (s s' : Machine.State) (v : Z) :
  only_gpr_changed d s s' -> only_gpr_changed d s (Machine.set_gpr s' d v).
Proof.
  intros (G & H). split; [|exact H].
  intros r Hr. rewrite gpr_set_other by exact Hr. now apply G.
Qed.

Lemma testbit_small (y n i : Z) : 0 <= y < 2 ^ n -> n <= i -> Z.testbit y i = false.
Proof.
  intros Hy Hi.
  assert (0 <= n \/ n < 0) as [Hn|Hn] by lia.
  - apply Z.testbit_false; [lia|].
    assert (2 ^ n <= 2 ^ i) by (apply Z.pow_le_mono_r; lia).
    rewrite Z.div_small by lia. reflexivity.
  - rewrite Z.pow_neg_r in Hy by lia. lia.
Qed.

Lemma testbit_small_negative (z n i : Z) :
  0 <= n -> - 2 ^ n <= z < 0 -> n <= i -> Z.testbit z i = true.
Proof.
  intros Hn Hz Hi.
  apply Z.testbit_true; [lia|].
  assert (P : 2 ^ n <= 2 ^ i) by (apply Z.pow_le_mono_r; lia).
  assert (Q : 0 < 2 ^ n) by (apply Z.pow_pos_nonneg; lia).
  replace (z / 2 ^ i) with (-1); [reflexivity|].
  apply Z.div_unique with (z + 2 ^ i); lia.
Qed.

Lemma testbit_top (y n : Z) : 0 <= n -> 2 ^ n <= y < 2 ^ (n + 1) -> Z.testbit y n = true.
Proof.
  intros Hn Hy. apply Z.testbit_true; [lia|].
  replace (n + 1) with (Z.succ n) in Hy by lia.
  rewrite Z.pow_succ_r in Hy by lia.
  replace (y / 2 ^ n) with 1; [reflexivity|].
  apply Z.div_unique with (y - 2 ^ n); lia.
Qed.

(** Sign extension: the bits from the sign bit up are copies of it. *)
Lemma testbit_signed_full (w x i : Z) :
  0 < w -> 0 <= i -> Z.testbit (signed w x) i = Z.testbit x (Z.min i (w - 1)).
Proof.
  intros Hw Hi.
  destruct (Z.lt_ge_cases i w) as [L|G].
  - rewrite Z.min_l by lia. apply testbit_signed; lia.
  - rewrite Z.min_r by lia. unfold signed.
    assert (P : 0 < 2 ^ (w - 1)) by (apply Z.pow_pos_nonneg; lia).
    assert (E : 2 ^ w = 2 * 2 ^ (w - 1)).
    { replace w with (Z.succ (w - 1)) at 1 by lia. apply Z.pow_succ_r. lia. }
    assert (B : 0 <= x mod 2 ^ w < 2 ^ w) by (apply Z.mod_pos_bound; lia).
    assert (T : Z.testbit x (w - 1) = Z.testbit (x mod 2 ^ w) (w - 1))
      by (now rewrite Z.mod_pow2_bits_low by lia).
    rewrite T.
    destruct (Z.ltb_spec (x mod 2 ^ w) (2 ^ (w - 1))) as [S|S].
    + rewrite (testbit_small _ (w - 1) i) by lia.
      now rewrite (testbit_small _ (w - 1) (w - 1)) by lia.
    + rewrite (testbit_small_negative _ (w - 1) i) by lia.
      symmetry. apply testbit_top; [lia|].
      replace (w - 1 + 1) with w by lia. lia.
Qed.

(** li: the halfword, with its sign bit copied into every bit above. *)
Lemma testbit_li (a i : Z) :
  0 <= i ->
  Z.testbit (to_uint64 (to_int16 a)) i = (i <? 64) && Z.testbit a (Z.min i 15).
Proof.
  intros Hi. unfold to_uint64, to_int16. rewrite testbit_mod_pow2 by lia.
  now rewrite testbit_signed_full by lia.
Qed.

(** lis: the halfword in bits 16 to 31, its sign bit in every bit above. *)
Lemma testbit_lis_full (a i : Z) :
  0 <= i ->
  Z.testbit (to_uint64 (to_int16 a * 65536)) i
  = (i <? 64) && (16 <=? i) && Z.testbit a (Z.min (i - 16) 15).
Proof.
  intros Hi. unfold to_uint64, to_int16. rewrite testbit_mod_pow2 by lia.
  change 65536 with (2 ^ 16). rewrite <- Z.shiftl_mul_pow2 by lia.
  rewrite Z.shiftl_spec by lia.
  destruct (Z.leb_spec 16 i).
  - rewrite testbit_signed_full by lia. now rewrite andb_true_r.
  - rewrite Z.testbit_neg_r by lia. now rewrite !andb_false_r.
Qed.

Lemma testbit_word_mask (i : Z) : 0 <= i -> Z.testbit 0xffffffff i = (i <? 32).
Proof.
  intros Hi. change 0xffffffff with (Z.ones 32). destruct (Z.ltb_spec i 32).
  - now apply Z.ones_spec_low.
  - now apply Z.ones_spec_high.
Qed.

Lemma testbit_field (lo len i : Z) :
  0 <= lo -> 0 <= len -> 0 <= i ->
  Z.testbit (Z.shiftl (Z.ones len) lo) i = (lo <=? i) && (i <? lo + len).
Proof.
  intros Hlo Hlen Hi. rewrite Z.shiftl_spec by lia.
  destruct (Z.leb_spec lo i).
  - destruct (Z.ltb_spec i (lo + len)).
    + now rewrite Z.ones_spec_low by lia.
    + now rewrite Z.ones_spec_high by lia.
  - now rewrite Z.testbit_neg_r by lia.
Qed.

Lemma land_field_zero (x lo len : Z) :
  0 <= lo -> 0 <= len ->
  Z.land x (Z.shiftl (Z.ones len) lo) = 0 ->
  forall k, lo <= k < lo + len -> Z.testbit x k = false.
Proof.
  intros Hlo Hlen E k Hk.
  assert (T : Z.testbit (Z.land x (Z.shiftl (Z.ones len) lo)) k = false)
    by (rewrite E; apply Z.bits_0).
  rewrite Z.land_spec, testbit_field in T by lia.
  replace (lo <=? k) with true in T by (symmetry; apply Z.leb_le; lia).
  replace (k <? lo + len) with true in T by (symmetry; apply Z.ltb_lt; lia).
  now rewrite andb_true_r in T.
Qed.

Lemma to_uint64_cases (value : Z) :
  INT64_MIN <= value <= INT64_MAX ->
  (0 <= value /\ to_uint64 value = value)
  \/ (value < 0 /\ to_uint64 value = value + 2 ^ 64).
Proof.
  unfold INT64_MIN, INT64_MAX, to_uint64. intros H.
  destruct (Z.lt_ge_cases value 0).
  - right. split; [lia|]. symmetry. apply Z.mod_unique with (q := -1); lia.
  - left. split; [lia|]. apply Z.mod_small. lia.
Qed.

Lemma testbit_to_uint64 (x i : Z) :
  0 <= i -> Z.testbit (to_uint64 x) i = (i <? 64) && Z.testbit x i.
Proof. intros. unfold to_uint64. now apply testbit_mod_pow2. Qed.

Lemma testbit_to_uint32 (x i : Z) :
  0 <= i -> Z.testbit (to_uint32 x) i = (i <? 32) && Z.testbit x i.
Proof. intros. unfold to_uint32. now apply testbit_mod_pow2. Qed.

Lemma testbit_to_int16 (x i : Z) :
  0 <= i -> Z.testbit (to_int16 x) i = Z.testbit x (Z.min i 15).
Proof. intros. unfold to_int16. now rewrite testbit_signed_full by lia. Qed.

Lemma testbit_to_int32 (x i : Z) :
  0 <= i -> Z.testbit (to_int32 x) i = Z.testbit x (Z.min i 31).
Proof. intros. unfold to_int32. now rewrite testbit_signed_full by lia. Qed.

(** Splits the bit index [i] at the halfword boundaries. *)
Ltac split_halfwords i :=
  let C := fresh "C" in
  destruct (Z.lt_ge_cases i 16) as [C|C];
  [|destruct (Z.lt_ge_cases i 32) as [?|?];
    [|destruct (Z.lt_ge_cases i 48) as [?|?];
      [|destruct (Z.lt_ge_cases i 64) as [?|?]]]].

(** Pushes [Z.testbit] through the operations the instructions are made
    of, down to the bits of the operands. *)
Ltac bit_step :=
  first
    [ rewrite testbit_rldicr_32_31 by lia
    | rewrite testbit_lis_full by lia
    | rewrite Z.lor_spec | rewrite Z.land_spec | rewrite Z.lxor_spec
    | rewrite testbit_to_uint64 by lia
    | rewrite testbit_to_uint32 by lia
    | rewrite testbit_to_int16 by lia
    | rewrite testbit_to_int32 by lia
    | rewrite testbit_halfword by lia
    | rewrite testbit_halfword_mask by lia
    | rewrite testbit_word_mask by lia
    | rewrite Z.shiftr_spec by lia
    | rewrite Z.shiftl_spec_low by lia
    | rewrite Z.shiftl_spec_high by lia ].

(** Settles the comparisons and minima that the context decides. *)
Ltac decide_cmp :=
  repeat match goal with
    | |- context [?a <? ?b] =>
        first [ replace (a <? b) with true by (symmetry; apply Z.ltb_lt; lia)
              | replace (a <? b) with false by (symmetry; apply Z.ltb_ge; lia) ]
    | |- context [?a <=? ?b] =>
        first [ replace (a <=? b) with true by (symmetry; apply Z.leb_le; lia)
              | replace (a <=? b) with false by (symmetry; apply Z.leb_gt; lia) ]
    | |- context [Z.min ?a ?b] =>
        first [ rewrite (Z.min_l a b) by lia | rewrite (Z.min_r a b) by lia ]
    end;
  cbn [andb orb negb];
  rewrite ?andb_true_r, ?andb_false_r, ?orb_false_r, ?orb_true_r;
  cbn [andb orb negb].

Ltac bits := repeat first [ progress decide_cmp | bit_step ].

(** Rewrites with the bits that the context knows. *)
Ltac use_bits :=
  repeat match goal with
    | H : forall k, _ -> Z.testbit ?v k = _ |- context [Z.testbit ?v ?e] =>
        rewrite (H e) by lia
    end;
  cbn [andb orb negb];
  rewrite ?andb_true_r, ?andb_false_r, ?orb_false_r, ?orb_true_r;
  cbn [andb orb negb].

Ltac same_bit := first [ reflexivity | f_equal; lia ].


Lemma to_int16_small (v : Z) : INT16_MIN <= v <= INT16_MAX -> to_int16 v = v.
Proof.
  unfold INT16_MIN, INT16_MAX, to_int16, signed. intros H.
  change (2 ^ 16) with 65536. change (2 ^ (16 - 1)) with 32768.
  destruct (Z.lt_ge_cases v 0) as [N|P].
  - assert (E : v mod 65536 = v + 65536).
    { symmetry. apply Z.mod_unique with (q := -1); lia. }
    rewrite E. destruct (Z.ltb_spec (v + 65536) 32768); lia.
  - rewrite (Z.mod_small v) by lia. destruct (Z.ltb_spec v 32768); lia.
Qed.

(** A doubleword whose bits from [n] up are clear is below [2^n]. *)
Lemma nonneg_below (value n : Z) :
  INT64_MIN <= value <= INT64_MAX -> 0 <= n <= 63 ->
  (forall k, n <= k < 64 -> Z.testbit value k = false) ->
  0 <= value < 2 ^ n.
Proof.
  unfold INT64_MIN, INT64_MAX. intros Hv Hn Hb.
  assert (P : 0 <= value).
  { destruct (Z.lt_ge_cases value 0) as [N|P]; [|exact P].
    assert (T : Z.testbit value 63 = true)
      by (apply (testbit_small_negative value 63 63); lia).
    rewrite Hb in T by lia. discriminate. }
  split; [exact P|].
  apply below_pow2_of_bits; [lia|exact P|].
  intros j Hj. destruct (Z.lt_ge_cases j 64).
  - apply Hb. lia.
  - apply (testbit_small value 63 j); lia.
Qed.

(** A doubleword whose bits from [n] up are set is negative, and not
    below [- 2^n]. *)
Lemma negative_above (value n : Z) :
  INT64_MIN <= value <= INT64_MAX -> 0 <= n <= 63 ->
  (forall k, n <= k < 64 -> Z.testbit value k = true) ->
  - 2 ^ n <= value < 0.
Proof.
  intros Hv Hn Hb.
  assert (B : 0 <= Z.lnot value < 2 ^ n).
  { apply nonneg_below; [|exact Hn|].
    - unfold Z.lnot, INT64_MIN, INT64_MAX in *. lia.
    - intros k Hk. rewrite Z.lnot_spec by lia. now rewrite Hb. }
  unfold Z.lnot in B. lia.
Qed.

Lemma low_halfword_clear (value : Z) :
  (forall k, 0 <= k < 16 -> Z.testbit value k = false) -> value mod 2 ^ 16 = 0.
Proof.
  intros Hb. apply Z.bits_inj'. intros i Hi.
  rewrite testbit_mod_pow2 by lia. rewrite Z.bits_0.
  destruct (Z.ltb_spec i 16); [|reflexivity]. cbn [andb]. apply Hb. lia.
Qed.

Lemma ma_li_misloads_false (value : Z) :
  ma_li_misloads value = false ->
  ~ (2 ^ 15 <= value < 2 ^ 16)
  /\ ~ (2 ^ 31 <= value < 2 ^ 32)
  /\ ~ (2 ^ 47 <= value < 2 ^ 48)
  /\ ~ (- 2 ^ 32 <= value < - 2 ^ 31 /\ value mod 2 ^ 16 = 0).
Proof.
  unfold ma_li_misloads. rewrite !orb_false_iff, !andb_false_iff.
  rewrite !Z.leb_gt, !Z.ltb_ge, Z.eqb_neq. lia.
Qed.

(** What a test of [ma_li] on one halfword of the value says about the
    bits of the value. *)
Lemma halfword_test (value M lo : Z) :
  M = Z.shiftl (Z.ones 16) lo -> 0 <= lo -> lo + 16 <= 64 ->
  negb (Z.land (to_uint64 value) M =? 0) = false ->
  forall k, lo <= k < lo + 16 -> Z.testbit value k = false.
Proof.
  intros -> Hlo Hhi T k Hk.
  apply negb_false_iff, Z.eqb_eq in T.
  generalize (land_field_zero _ lo 16 Hlo ltac:(lia) T k Hk).
  rewrite testbit_to_uint64 by lia.
  replace (k <? 64) with true by (symmetry; apply Z.ltb_lt; lia). trivial.
Qed.

Lemma low_word_test (value M lo : Z) :
  M = Z.shiftl (Z.ones 16) lo -> 0 <= lo -> lo + 16 <= 32 ->
  negb (Z.land (Z.land (to_uint64 value) 0xffffffff) M =? 0) = false ->
  forall k, lo <= k < lo + 16 -> Z.testbit value k = false.
Proof.
  intros -> Hlo Hhi T k Hk.
  apply negb_false_iff, Z.eqb_eq in T.
  generalize (land_field_zero _ lo 16 Hlo ltac:(lia) T k Hk).
  rewrite Z.land_spec, testbit_word_mask, testbit_to_uint64 by lia.
  replace (k <? 64) with true by (symmetry; apply Z.ltb_lt; lia).
  replace (k <? 32) with true by (symmetry; apply Z.ltb_lt; lia).
  cbn [andb]. now rewrite andb_true_r.
Qed.

Ltac note_tests :=
  repeat match goal with
    | T : negb (Z.land (to_uint64 ?v) ?M =? 0) = false |- _ =>
        let Z := fresh "Zb" in
        first [ pose proof (halfword_test v M 48 eq_refl ltac:(lia) ltac:(lia) T) as Z
              | pose proof (halfword_test v M 32 eq_refl ltac:(lia) ltac:(lia) T) as Z ];
        clear T
    | T : negb (Z.land (Z.land (to_uint64 ?v) _) ?M =? 0) = false |- _ =>
        let Z := fresh "Zb" in
        first [ pose proof (low_word_test v M 16 eq_refl ltac:(lia) ltac:(lia) T) as Z
              | pose proof (low_word_test v M 0 eq_refl ltac:(lia) ltac:(lia) T) as Z ];
        clear T
    end.

(** A bit that one of the facts at hand settles. *)
Ltac known_bit :=
  match goal with
  | H : forall k, _ -> Z.testbit ?v k = _ |- Z.testbit ?v ?e = _ => apply (H e); lia
  end.

Ltac li_semantics :=
  rewrite !gpr_set_same; apply Z.bits_inj'; intros i Hi;
  split_halfwords i; bits; use_bits; bits; same_bit.

Ltac li_leaf :=
  eexists; eexists; split;
  [ intros m; emit_steps; flatten_buffer; reflexivity
  | split; [reflexivity|]; split;
    [ li_semantics
    | repeat apply only_gpr_changed_set; apply only_gpr_changed_refl ] ].

Lemma ma_li_run (dest : Register) (value : Z) (s : Machine.State) :
  INT64_MIN <= value <= INT64_MAX ->
  ma_li_misloads value = false ->
  exists code s',
    (forall m, ma_li dest value m = Done tt (appendInstrs m code))
    /\ Machine.run code s = Some s'
    /\ Machine.gpr s' dest = to_uint64 value
    /\ only_gpr_changed dest s s'.
Proof.
  intros Hv Hok.
  apply ma_li_misloads_false in Hok. destruct Hok as (N15 & N31 & N47 & Nneg).
  (* what the ranges that are loaded exactly say about single bits *)
  assert (F47 : (forall k, 48 <= k < 64 -> Z.testbit value k = false) ->
                forall k, k = 47 -> Z.testbit value k = false).
  { intros Hb k ->. pose proof (nonneg_below value 48 Hv ltac:(lia) Hb).
    apply (testbit_small value 47 47); lia. }
  assert (F31 : (forall k, 32 <= k < 64 -> Z.testbit value k = false) ->
                forall k, k = 31 -> Z.testbit value k = false).
  { intros Hb k ->. pose proof (nonneg_below value 32 Hv ltac:(lia) Hb).
    apply (testbit_small value 31 31); lia. }
  unfold ma_li. cbv zeta.
  destruct ((value >? -32769) && (value <? 32768)) eqn:T16.
  { (* li *)
    apply andb_true_iff in T16. destruct T16 as [L U].
    apply Z.gtb_lt in L. apply Z.ltb_lt in U.
    eexists; eexists; split;
      [ intros m; emit_steps; flatten_buffer; reflexivity | ].
    split; [reflexivity|]. split.
    - rewrite gpr_set_same. rewrite to_int16_small by (unfold INT16_MIN, INT16_MAX; lia).
      reflexivity.
    - apply only_gpr_changed_set, only_gpr_changed_refl. }
  assert (R16 : value < -32768 \/ 32768 <= value).
  { apply andb_false_iff in T16. rewrite Z.gtb_ltb, Z.ltb_ge, Z.ltb_ge in T16. lia. }
  clear T16.
  destruct ((Z.land (to_uint64 value) 0xffffffff0000ffff =? 0)
          || (Z.land (to_uint64 value) 0xffffffff0000ffff =? 0xffffffff00000000)) eqn:Tlis.
  { (* lis *)
    apply orb_true_iff in Tlis.
    assert (M : forall k, 0 <= k ->
                  Z.testbit 0xffffffff0000ffff k = (k <? 16) || ((32 <=? k) && (k <? 64))).
    { intros k Hk.
      change 0xffffffff0000ffff with (Z.lor (Z.ones 16) (Z.shiftl (Z.ones 32) 32)).
      rewrite Z.lor_spec, testbit_field by lia. f_equal.
      destruct (Z.ltb_spec k 16).
      - now apply Z.ones_spec_low.
      - now apply Z.ones_spec_high. }
    assert (B : forall k, 0 <= k < 64 ->
                  Z.testbit (Z.land (to_uint64 value) 0xffffffff0000ffff) k
                  = Z.testbit value k && ((k <? 16) || (32 <=? k))).
    { intros k Hk. rewrite Z.land_spec, M, testbit_to_uint64 by lia.
      replace (k <? 64) with true by (symmetry; apply Z.ltb_lt; lia).
      now rewrite andb_true_r. }
    destruct Tlis as [T|T]; apply Z.eqb_eq in T.
    - assert (Zlo : forall k, 0 <= k < 16 -> Z.testbit value k = false).
      { intros k Hk. generalize (B k ltac:(lia)). rewrite T, Z.bits_0.
        replace (k <? 16) with true by (symmetry; apply Z.ltb_lt; lia).
        cbn [orb]. rewrite andb_true_r. auto. }
      assert (Zhi : forall k, 32 <= k < 64 -> Z.testbit value k = false).
      { intros k Hk. generalize (B k ltac:(lia)). rewrite T, Z.bits_0.
        replace (32 <=? k) with true by (symmetry; apply Z.leb_le; lia).
        rewrite orb_true_r, andb_true_r. auto. }
      pose proof (F31 Zhi) as Z31.
      li_leaf.
    - assert (Zlo : forall k, 0 <= k < 16 -> Z.testbit value k = false).
      { intros k Hk. generalize (B k ltac:(lia)). rewrite T.
        change 0xffffffff00000000 with (Z.shiftl (Z.ones 32) 32).
        rewrite testbit_field by lia.
        replace (32 <=? k) with false by (symmetry; apply Z.leb_gt; lia).
        replace (k <? 16) with true by (symmetry; apply Z.ltb_lt; lia).
        cbn [orb andb]. rewrite andb_true_r. auto. }
      assert (Ohi : forall k, 32 <= k < 64 -> Z.testbit value k = true).
      { intros k Hk. generalize (B k ltac:(lia)). rewrite T.
        change 0xffffffff00000000 with (Z.shiftl (Z.ones 32) 32).
        rewrite testbit_field by lia.
        replace (32 <=? k) with true by (symmetry; apply Z.leb_le; lia).
        replace (32 + 32) with 64 by lia.
        replace (k <? 64) with true by (symmetry; apply Z.ltb_lt; lia).
        rewrite orb_true_r, !andb_true_r. intros E. now rewrite <- E. }
      assert (O31 : forall k, k = 31 -> Z.testbit value k = true).
      { intros k ->. pose proof (negative_above value 32 Hv ltac:(lia) Ohi).
        pose proof (low_halfword_clear value Zlo).
        apply (testbit_small_negative value 31 31); lia. }
      li_leaf. }
  clear Tlis.
  destruct (negb (Z.land (to_uint64 value) 0xffff000000000000 =? 0)) eqn:T3;
  destruct (negb (Z.land (to_uint64 value) 0x0000ffff00000000 =? 0)) eqn:T2;
  destruct (negb (Z.land (Z.land (to_uint64 value) 0x00000000ffffffff) 0xffff0000 =? 0)) eqn:T1;
  destruct (negb (Z.land (Z.land (to_uint64 value) 0x00000000ffffffff) 0x0000ffff =? 0)) eqn:T0;
  note_tests.
  all: try (li_leaf; fail).
  (* the top halfword is clear: a halfword loaded with li or lis must
     not have its sign bit set *)
  all: assert (Z47 : forall k, k = 47 -> Z.testbit value k = false)
         by (apply F47; intros k Hk; known_bit).
  all: try (li_leaf; fail).
  all: assert (Zhi : forall k, 32 <= k < 64 -> Z.testbit value k = false)
         by (intros k Hk; destruct (Z.lt_ge_cases k 48); known_bit).
  all: pose proof (F31 Zhi) as Z31.
  all: try (li_leaf; fail).
  (* what is left fits a halfword and is not a signed halfword *)
  all: exfalso;
       assert (Zall : forall k, 16 <= k < 64 -> Z.testbit value k = false)
         by (intros k Hk; destruct (Z.lt_ge_cases k 32); known_bit);
       pose proof (nonneg_below value 16 Hv ltac:(lia) Zall);
       change (2 ^ 15) with 32768 in N15; lia.
Qed.

(** The converse of [halfword_test]: a clear halfword fails the test. *)
Lemma halfword_clear (value M lo : Z) :
  M = Z.shiftl (Z.ones 16) lo -> 0 <= lo -> lo + 16 <= 64 ->
  (forall k, lo <= k < lo + 16 -> Z.testbit value k = false) ->
  negb (Z.land (to_uint64 value) M =? 0) = false.
Proof.
  intros -> Hlo Hhi Hb. apply negb_false_iff, Z.eqb_eq.
  apply Z.bits_inj'. intros i Hi.
  rewrite Z.land_spec, testbit_field, testbit_to_uint64, Z.bits_0 by lia.
  destruct (Z.leb_spec lo i); [|now rewrite andb_false_r].
  destruct (Z.ltb_spec i (lo + 16)); [|now rewrite andb_false_r].
  rewrite Hb by lia. now rewrite andb_false_r.
Qed.

Lemma low_word_clear (value M lo : Z) :
  M = Z.shiftl (Z.ones 16) lo -> 0 <= lo -> lo + 16 <= 32 ->
  (forall k, lo <= k < lo + 16 -> Z.testbit value k = false) ->
  negb (Z.land (Z.land (to_uint64 value) 0xffffffff) M =? 0) = false.
Proof.
  intros -> Hlo Hhi Hb. apply negb_false_iff, Z.eqb_eq.
  apply Z.bits_inj'. intros i Hi.
  rewrite !Z.land_spec, testbit_field, testbit_to_uint64, Z.bits_0 by lia.
  destruct (Z.leb_spec lo i); [|now rewrite andb_false_r].
  destruct (Z.ltb_spec i (lo + 16)); [|now rewrite andb_false_r].
  rewrite Hb by lia. now rewrite andb_false_r.
Qed.

Lemma testbit_lis_mask (k : Z) :
  0 <= k ->
  Z.testbit 0xffffffff0000ffff k = (k <? 16) || ((32 <=? k) && (k <? 64)).
Proof.
  intros Hk.
  change 0xffffffff0000ffff with (Z.lor (Z.ones 16) (Z.shiftl (Z.ones 32) 32)).
  rewrite Z.lor_spec, testbit_field by lia. f_equal.
  destruct (Z.ltb_spec k 16).
  - now apply Z.ones_spec_low.
  - now apply Z.ones_spec_high.
Qed.

(** A doubleword of the shape 0xFFFFFFFF_hhhh0000 passes the second
    test of the lis case. *)
Lemma lis_test_ones (value : Z) :
  (forall k, 0 <= k < 16 -> Z.testbit value k = false) ->
  (forall k, 32 <= k < 64 -> Z.testbit value k = true) ->
  Z.land (to_uint64 value) 0xffffffff0000ffff = 0xffffffff00000000.
Proof.
  intros Hlo Hhi. apply Z.bits_inj'. intros i Hi.
  rewrite Z.land_spec, testbit_lis_mask, testbit_to_uint64 by lia.
  change 0xffffffff00000000 with (Z.shiftl (Z.ones 32) 32).
  rewrite testbit_field by lia. change (32 + 32) with 64.
  destruct (Z.ltb_spec i 16).
  - rewrite Hlo by lia. rewrite andb_false_r.
    replace (32 <=? i) with false by (symmetry; apply Z.leb_gt; lia). reflexivity.
  - cbn [orb]. destruct (Z.leb_spec 32 i); [|now rewrite andb_false_r].
    destruct (Z.ltb_spec i 64); [|reflexivity].
    now rewrite Hhi by lia.
Qed.

Ltac refute_test :=
  match goal with
  | T : negb (Z.land (to_uint64 ?v) ?M =? 0) = true |- _ =>
      first [ rewrite (halfword_clear v M 48 eq_refl ltac:(lia) ltac:(lia)
                         ltac:(intros; known_bit)) in T
            | rewrite (halfword_clear v M 32 eq_refl ltac:(lia) ltac:(lia)
                         ltac:(intros; known_bit)) in T ];
      discriminate T
  | T : negb (Z.land (Z.land (to_uint64 ?v) _) ?M =? 0) = true |- _ =>
      first [ rewrite (low_word_clear v M 16 eq_refl ltac:(lia) ltac:(lia)
                         ltac:(intros; known_bit)) in T
            | rewrite (low_word_clear v M 0 eq_refl ltac:(lia) ltac:(lia)
                         ltac:(intros; known_bit)) in T ];
      discriminate T
  end.

(** Two facts at hand that disagree on bit [p]. *)
Ltac clash_at p :=
  match goal with
  | H1 : forall k, _ -> Z.testbit ?v k = false,
    H2 : forall k, _ -> Z.testbit ?v k = true |- _ =>
      let A := fresh in
      let B := fresh in
      assert (A := H1 p ltac:(lia)); assert (B := H2 p ltac:(lia));
      rewrite A in B; discriminate B
  end.

Ltac clash := first [ clash_at 15 | clash_at 31 | clash_at 47 | clash_at 63 ].

(** The leaf of [ma_li] that is reached: the doubleword it leaves
    differs from the value in its sign bit. *)
Ltac li_wrong_leaf :=
  eexists; eexists; split;
  [ intros m; emit_steps; flatten_buffer; reflexivity
  | split; [reflexivity|];
    rewrite !gpr_set_same;
    let E := fresh "E" in
    intros E; apply (f_equal (fun x => Z.testbit x 63)) in E; cbv beta in E;
    revert E; bits; use_bits; bits; discriminate ].

Lemma ma_li_misload_run (dest : Register) (value : Z) (s : Machine.State) :
  INT64_MIN <= value <= INT64_MAX ->
  ma_li_misloads value = true ->
  exists code s',
    (forall m, ma_li dest value m = Done tt (appendInstrs m code))
    /\ Machine.run code s = Some s'
    /\ Machine.gpr s' dest <> to_uint64 value.
Proof.
  intros Hv Hbad.
  assert (Classes :
    (exists n, (n = 16 \/ n = 32 \/ n = 48) /\ 2 ^ (n - 1) <= value < 2 ^ n)
    \/ (- 2 ^ 32 <= value < - 2 ^ 31 /\ value mod 2 ^ 16 = 0)).
  { unfold ma_li_misloads in Hbad.
    rewrite !orb_true_iff, !andb_true_iff, !Z.leb_le, !Z.ltb_lt, Z.eqb_eq in Hbad.
    destruct Hbad as [[[H|H]|H]|H].
    - left. exists 16. split; [auto|]. exact H.
    - left. exists 32. split; [auto|]. exact H.
    - left. exists 48. split; [auto|]. exact H.
    - right. tauto. }
  clear Hbad.
  destruct Classes as [(n & Hn & Hr)|[Hr Hlow]].
  - (* a positive value whose top halfword has its sign bit set *)
    assert (Kz : forall k, n <= k -> Z.testbit value k = false).
    { intros k Hk. apply (testbit_small value n k); [|lia].
      assert (0 < 2 ^ (n - 1)) by (apply Z.pow_pos_nonneg; lia). lia. }
    assert (Ks : forall k, k = n - 1 -> Z.testbit value k = true).
    { intros k ->. apply testbit_top; [lia|]. now replace (n - 1 + 1) with n by lia. }
    assert (N16 : 32768 <= value).
    { apply Z.le_trans with (2 ^ (n - 1)); [|lia].
      change 32768 with (2 ^ 15). apply Z.pow_le_mono_r; lia. }
    clear Hr.
    unfold ma_li. cbv zeta.
    destruct ((value >? -32769) && (value <? 32768)) eqn:T16.
    { apply andb_true_iff in T16. destruct T16 as [_ U]. apply Z.ltb_lt in U. lia. }
    clear T16.
    destruct ((Z.land (to_uint64 value) 0xffffffff0000ffff =? 0)
            || (Z.land (to_uint64 value) 0xffffffff0000ffff =? 0xffffffff00000000)) eqn:Tlis.
    { apply orb_true_iff in Tlis.
      assert (B : forall k, 0 <= k < 64 ->
                    Z.testbit (Z.land (to_uint64 value) 0xffffffff0000ffff) k
                    = Z.testbit value k && ((k <? 16) || (32 <=? k))).
      { intros k Hk. rewrite Z.land_spec, testbit_lis_mask, testbit_to_uint64 by lia.
        replace (k <? 64) with true by (symmetry; apply Z.ltb_lt; lia).
        now rewrite andb_true_r. }
      destruct Tlis as [T|T]; apply Z.eqb_eq in T.
      - assert (Zlo : forall k, 0 <= k < 16 -> Z.testbit value k = false).
        { intros k Hk. generalize (B k ltac:(lia)). rewrite T, Z.bits_0.
          replace (k <? 16) with true by (symmetry; apply Z.ltb_lt; lia).
          cbn [orb]. rewrite andb_true_r. auto. }
        assert (Zhi : forall k, 32 <= k < 64 -> Z.testbit value k = false).
        { intros k Hk. generalize (B k ltac:(lia)). rewrite T, Z.bits_0.
          replace (32 <=? k) with true by (symmetry; apply Z.leb_le; lia).
          rewrite orb_true_r, andb_true_r. auto. }
        destruct Hn as [-> | [-> | ->]]; first [ clash | li_wrong_leaf ].
      - exfalso. generalize (B 63 ltac:(lia)). rewrite T, Kz by lia. discriminate. }
    clear Tlis.
    destruct (negb (Z.land (to_uint64 value) 0xffff000000000000 =? 0)) eqn:T3;
    destruct (negb (Z.land (to_uint64 value) 0x0000ffff00000000 =? 0)) eqn:T2;
    destruct (negb (Z.land (Z.land (to_uint64 value) 0x00000000ffffffff) 0xffff0000 =? 0)) eqn:T1;
    destruct (negb (Z.land (Z.land (to_uint64 value) 0x00000000ffffffff) 0x0000ffff =? 0)) eqn:T0;
    note_tests;
    destruct Hn as [-> | [-> | ->]];
    first [ exfalso; refute_test | exfalso; clash | li_wrong_leaf ].
  - (* 0xFFFFFFFF_hhhh0000 with the sign bit of the halfword clear *)
    assert (Ko : forall k, 32 <= k < 64 -> Z.testbit value k = true).
    { intros k Hk. apply (testbit_small_negative value 32 k); lia. }
    assert (K31 : forall k, k = 31 -> Z.testbit value k = false).
    { intros k ->.
      rewrite <- (Z.mod_pow2_bits_low value 32 31) by lia.
      replace (value mod 2 ^ 32) with (value + 2 ^ 32).
      - apply (testbit_small _ 31 31); lia.
      - apply Z.mod_unique with (q := -1); lia. }
    assert (Klo : forall k, 0 <= k < 16 -> Z.testbit value k = false).
    { intros k Hk. rewrite <- (Z.mod_pow2_bits_low value 16 k) by lia.
      rewrite Hlow. apply Z.bits_0. }
    unfold ma_li. cbv zeta.
    destruct ((value >? -32769) && (value <? 32768)) eqn:T16.
    { apply andb_true_iff in T16. destruct T16 as [L _]. apply Z.gtb_lt in L. lia. }
    clear T16.
    rewrite (lis_test_ones value Klo Ko). rewrite Z.eqb_refl, orb_true_r.
    li_wrong_leaf.
Qed.

Lemma to_int32_id (v : Z) : INT32_MIN <= v <= INT32_MAX -> to_int32 v = v.
Proof.
  unfold INT32_MIN, INT32_MAX, to_int32, signed. intros H.
  change (2 ^ 32) with 4294967296. change (2 ^ (32 - 1)) with 2147483648.
  destruct (Z.lt_ge_cases v 0) as [N|P].
  - assert (E : v mod 4294967296 = v + 4294967296).
    { symmetry. apply Z.mod_unique with (q := -1); lia. }
    rewrite E. destruct (Z.ltb_spec (v + 4294967296) 2147483648); lia.
  - rewrite (Z.mod_small v) by lia. destruct (Z.ltb_spec v 2147483648); lia.
Qed.

Lemma to_int64_to_uint64 (v : Z) :
  INT64_MIN <= v <= INT64_MAX -> to_int64 (to_uint64 v) = v.
Proof.
  intros H. unfold to_int64, signed.
  assert (E : to_uint64 v mod 2 ^ 64 = to_uint64 v).
  { unfold to_uint64. apply Z.mod_mod. lia. }
  rewrite E. unfold INT64_MIN, INT64_MAX in H.
  destruct (to_uint64_cases v) as [[P ->]|[N ->]];
    [unfold INT64_MIN, INT64_MAX; lia| |].
  - destruct (Z.ltb_spec v (2 ^ (64 - 1))); [reflexivity|].
    change (2 ^ (64 - 1)) with (2 ^ 63) in *. lia.
  - destruct (Z.ltb_spec (v + 2 ^ 64) (2 ^ (64 - 1))); [|lia].
    change (2 ^ (64 - 1)) with (2 ^ 63) in *. lia.
Qed.

Lemma Imm32_as_int64 (imm : Z) :
  INT32_MIN <= imm <= INT32_MAX -> to_int64 (to_uint64 (Imm32 imm)) = imm.
Proof.
  intros H. unfold Imm32. rewrite to_int32_id by exact H.
  apply to_int64_to_uint64. unfold INT32_MIN, INT32_MAX, INT64_MIN, INT64_MAX in *. lia.
Qed.

(** The immediates of 32 bits that [ma_li] loads as they are: all but
    those from 32768 to 65535. *)
Lemma ma_li_Imm32_run (dest : Register) (imm : Z) (s : Machine.State) :
  INT32_MIN <= imm <= INT32_MAX ->
  ~ (32768 <= imm <= 65535) ->
  exists code s',
    (forall m, ma_li_Imm32 dest imm m = Done tt (appendInstrs m code))
    /\ Machine.run code s = Some s'
    /\ Machine.gpr s' dest = to_uint64 imm
    /\ only_gpr_changed dest s s'.
Proof.
  intros H N. unfold ma_li_Imm32. rewrite Imm32_as_int64 by exact H.
  apply ma_li_run.
  - unfold INT32_MIN, INT32_MAX, INT64_MIN, INT64_MAX in *. lia.
  - unfold ma_li_misloads, INT32_MIN, INT32_MAX in *.
    rewrite !orb_false_iff, !andb_false_iff, !Z.leb_gt, !Z.ltb_ge.
    change (2 ^ 15) with 32768. change (2 ^ 16) with 65536.
    repeat split; lia.
Qed.

(** X1: [ma_li] loads a 64-bit value as it is exactly when the value is
    outside four ranges.  Three of them are the positive values whose
    topmost occupied halfword has its sign bit set and is loaded with li
    or lis, which sign-extend: from 2^15 to 2^16 - 1, from 2^31 to
    2^32 - 1 and from 2^47 to 2^48 - 1.  The fourth is the values from
    -2^32 to -2^31 - 1 whose low halfword is zero, which take the single
    lis and come out with a clear high word.  Everywhere else the
    destination ends up holding the value. *)
Theorem ma_li_loads_the_value_unless_a_sign_bit_leaks :
  forall (dest : Register) (value : Z) (m : MacroAssembler) (s : Machine.State),
    INT64_MIN <= value <= INT64_MAX ->
    exists s',
      Machine.run (emitted (ma_li dest value) m) s = Some s'
      /\ (Machine.gpr s' dest = to_uint64 value <-> ma_li_misloads value = false).
Proof.
  intros dest value m s Hv.
  destruct (ma_li_misloads value) eqn:B.
  - destruct (ma_li_misload_run dest value s Hv B) as (code & s' & E & R & G).
    rewrite (emitted_append _ _ _ _ (E m)).
    exists s'. split; [exact R|]. split; [intros H; contradiction|discriminate].
  - destruct (ma_li_run dest value s Hv B) as (code & s' & E & R & G & _).
    rewrite (emitted_append _ _ _ _ (E m)).
    exists s'. split; [exact R|]. split; [reflexivity|intros _; exact G].
Qed.

Lemma ma_li_loads_the_value_unless_a_sign_bit_leaks_witness :
  INT64_MIN <= 0x123456789A <= INT64_MAX
  /\ exists s',
       Machine.run (emitted (ma_li r3 0x123456789A) emptyMasm) (Machine.init 0) = Some s'
       /\ (Machine.gpr s' r3 = to_uint64 0x123456789A
           <-> ma_li_misloads 0x123456789A = false).
Proof.
  assert (H : INT64_MIN <= 0x123456789A <= INT64_MAX) by (split; discriminate).
  split; [exact H|].
  apply (ma_li_loads_the_value_unless_a_sign_bit_leaks r3 0x123456789A emptyMasm
           (Machine.init 0) H).
Defined.


Lemma Some_eq {A : Type} (a b : A) : Some a = Some b -> a = b.
Proof. intros H. now inversion H. Qed.

(** X2: the five words of [ma_liPatchable] load every doubleword as it
    is: run from any state, they leave the immediate in the destination,
    whatever its halfwords are. *)
Theorem ma_liPatchable_loads_every_doubleword :
  forall (dest : Register) (imm : Z) (m : MacroAssembler) (s : Machine.State),
    0 <= imm < 2 ^ 64 ->
    exists s',
      Machine.run (emitted (ma_liPatchable dest imm) m) s = Some s'
      /\ Machine.gpr s' dest = imm
      /\ forall r, r <> dest -> Machine.gpr s' r = Machine.gpr s r.
Proof.
  intros dest imm m s Himm.
  destruct (ma_liPatchable_roundtrip dest imm m s Himm) as (s' & R & G).
  exists s'. split; [exact R|]. split; [exact G|].
  rewrite (emitted_append _ _ _ _ (ma_liPatchable_emits dest imm m)) in R.
  cbv beta iota delta [patchable_load Machine.run Machine.exec] in R.
  apply Some_eq in R. rewrite <- R.
  intros r Hr. now rewrite !gpr_set_other by exact Hr.
Qed.

Lemma ma_liPatchable_loads_every_doubleword_witness :
  0 <= 0x8000FFFF80008000 < 2 ^ 64
  /\ exists s',
       Machine.run (emitted (ma_liPatchable r3 0x8000FFFF80008000) emptyMasm)
                   (Machine.init 0) = Some s'
       /\ Machine.gpr s' r3 = 0x8000FFFF80008000.
Proof.
  assert (H : 0 <= 0x8000FFFF80008000 < 2 ^ 64) by (split; [discriminate|reflexivity]).
  split; [exact H|].
  destruct (ma_liPatchable_loads_every_doubleword r3 0x8000FFFF80008000 emptyMasm
              (Machine.init 0) H) as (s' & R & G & _).
  exists s'. split; [exact R|exact G].
Defined.

(** Where the sign bit leaks out of the low halfword: [ma_li] writes a
    single li and the register ends up 65536 below the value. *)
Lemma ma_li_halfword_run (dest : Register) (value : Z) (s : Machine.State) :
  2 ^ 15 <= value < 2 ^ 16 ->
  exists code s',
    (forall m, ma_li dest value m = Done tt (appendInstrs m code))
    /\ Machine.run code s = Some s'
    /\ Machine.gpr s' dest = to_uint64 (value - 65536)
    /\ only_gpr_changed dest s s'.
Proof.
  intros Hr.
  assert (Kz : forall k, 16 <= k -> Z.testbit value k = false).
  { intros k Hk. apply (testbit_small value 16 k); lia. }
  assert (Ks : forall k, k = 16 - 1 -> Z.testbit value k = true).
  { intros k ->. apply testbit_top; [lia|]. exact Hr. }
  assert (S : value - 65536 = signed 16 value).
  { unfold signed. rewrite (Z.mod_small value) by lia.
    destruct (Z.ltb_spec value (2 ^ (16 - 1))); [|reflexivity].
    change (2 ^ (16 - 1)) with (2 ^ 15) in *. lia. }
  rewrite S.
  unfold ma_li. cbv zeta.
  destruct ((value >? -32769) && (value <? 32768)) eqn:T16.
  { apply andb_true_iff in T16. destruct T16 as [_ U]. apply Z.ltb_lt in U.
    change (2 ^ 15) with 32768 in Hr. lia. }
  clear T16.
  destruct ((Z.land (to_uint64 value) 0xffffffff0000ffff =? 0)
          || (Z.land (to_uint64 value) 0xffffffff0000ffff =? 0xffffffff00000000)) eqn:Tlis.
  { exfalso. apply orb_true_iff in Tlis.
    assert (B : forall k, 0 <= k < 64 ->
                  Z.testbit (Z.land (to_uint64 value) 0xffffffff0000ffff) k
                  = Z.testbit value k && ((k <? 16) || (32 <=? k))).
    { intros k Hk. rewrite Z.land_spec, testbit_lis_mask, testbit_to_uint64 by lia.
      replace (k <? 64) with true by (symmetry; apply Z.ltb_lt; lia).
      now rewrite andb_true_r. }
    destruct Tlis as [T|T]; apply Z.eqb_eq in T.
    - generalize (B 15 ltac:(lia)). rewrite T, Z.bits_0, Ks by lia. discriminate.
    - generalize (B 63 ltac:(lia)). rewrite T, Kz by lia. discriminate. }
  clear Tlis.
  destruct (negb (Z.land (to_uint64 value) 0xffff000000000000 =? 0)) eqn:T3;
  destruct (negb (Z.land (to_uint64 value) 0x0000ffff00000000 =? 0)) eqn:T2;
  destruct (negb (Z.land (Z.land (to_uint64 value) 0x00000000ffffffff) 0xffff0000 =? 0)) eqn:T1;
  destruct (negb (Z.land (Z.land (to_uint64 value) 0x00000000ffffffff) 0x0000ffff =? 0)) eqn:T0;
  note_tests;
  first [ exfalso; refute_test | exfalso; clash | idtac ].
  eexists; eexists; split;
    [ intros m; emit_steps; flatten_buffer; reflexivity | ].
  split; [reflexivity|]. split.
  - rewrite !gpr_set_same. apply Z.bits_inj'. intros i Hi.
    rewrite (testbit_to_uint64 (signed 16 value)) by lia.
    rewrite testbit_signed_full by lia.
    split_halfwords i; bits; use_bits; bits; same_bit.
  - repeat apply only_gpr_changed_set; apply only_gpr_changed_refl.
Qed.

Lemma ma_li_Imm32_halfword_run (dest : Register) (imm : Z) (s : Machine.State) :
  32768 <= imm <= 65535 ->
  exists code s',
    (forall m, ma_li_Imm32 dest imm m = Done tt (appendInstrs m code))
    /\ Machine.run code s = Some s'
    /\ Machine.gpr s' dest = to_uint64 (imm - 65536)
    /\ only_gpr_changed dest s s'.
Proof.
  intros H. unfold ma_li_Imm32.
  rewrite Imm32_as_int64 by (unfold INT32_MIN, INT32_MAX; lia).
  apply ma_li_halfword_run. change (2 ^ 15) with 32768. change (2 ^ 16) with 65536. lia.
Qed.

Lemma MASK_low (mb : Z) : 0 <= mb <= 63 -> MASK mb 63 = Z.ones (64 - mb).
Proof.
  intros H. unfold MASK, ones_from.
  replace (mb <=? 63) with true by (symmetry; apply Z.leb_le; lia).
  rewrite Z.ones_equiv. change (63 + 1) with 64. change (64 - 64) with 0.
  change (2 ^ 0) with 1. lia.
Qed.

Lemma MASK_high (me : Z) :
  0 <= me <= 63 -> MASK 0 me = Z.shiftl (Z.ones (me + 1)) (63 - me).
Proof.
  intros H. unfold MASK, ones_from.
  replace (0 <=? me) with true by (symmetry; apply Z.leb_le; lia).
  rewrite Z.shiftl_mul_pow2, Z.ones_equiv by lia.
  replace (64 - (me + 1)) with (63 - me) by lia.
  assert (E : 2 ^ (64 - 0) = 2 ^ (me + 1) * 2 ^ (63 - me)).
  { rewrite <- Z.pow_add_r by lia. f_equal. lia. }
  rewrite E. lia.
Qed.

(** Rotation moves bit [i - n] to bit [i], around the doubleword. *)
Lemma testbit_rotl64 (x n i : Z) :
  0 <= n < 64 -> 0 <= i ->
  Z.testbit (rotl64 x n) i = (i <? 64) && Z.testbit x ((i - n) mod 64).
Proof.
  intros Hn Hi. unfold rotl64. rewrite (Z.mod_small n 64) by lia.
  rewrite testbit_to_uint64 by lia.
  destruct (Z.ltb_spec i 64); [|reflexivity]. cbn [andb].
  rewrite Z.lor_spec, Z.shiftr_spec by lia.
  destruct (Z.lt_ge_cases i n).
  - rewrite Z.shiftl_spec_low by lia. cbn [orb].
    rewrite testbit_to_uint64 by lia.
    replace (i + (64 - n) <? 64) with true by (symmetry; apply Z.ltb_lt; lia).
    cbn [andb]. f_equal. apply Z.mod_unique with (q := -1); lia.
  - rewrite Z.shiftl_spec_high by lia.
    rewrite !testbit_to_uint64 by lia.
    replace (i - n <? 64) with true by (symmetry; apply Z.ltb_lt; lia).
    replace (i + (64 - n) <? 64) with false by (symmetry; apply Z.ltb_ge; lia).
    cbn [andb]. rewrite orb_false_r. f_equal. symmetry. apply Z.mod_small. lia.
Qed.

(** rldicr by [n] with mask end [63 - n], "sldi": a shift left. *)
Lemma sldi_shifts_left (x n : Z) :
  0 <= n < 64 ->
  Z.land (rotl64 x n) (MASK 0 (63 - n)) = to_uint64 (Z.shiftl x n).
Proof.
  intros Hn. rewrite MASK_high by lia.
  replace (63 - n + 1) with (64 - n) by lia. replace (63 - (63 - n)) with n by lia.
  apply Z.bits_inj'. intros i Hi.
  rewrite Z.land_spec, testbit_rotl64, testbit_field, testbit_to_uint64 by lia.
  replace (n + (64 - n)) with 64 by lia.
  destruct (Z.ltb_spec i 64); [|reflexivity]. cbn [andb]. rewrite andb_true_r.
  destruct (Z.leb_spec n i).
  - rewrite Z.shiftl_spec_high by lia. rewrite andb_true_r.
    f_equal. apply Z.mod_small. lia.
  - rewrite Z.shiftl_spec_low by lia. now rewrite andb_false_r.
Qed.

Lemma rldicl_keeps_low (x sh mb : Z) :
  0 <= mb <= 63 ->
  Z.land (rotl64 x sh) (MASK mb 63) = rotl64 x sh mod 2 ^ (64 - mb).
Proof.
  intros H. rewrite MASK_low by lia. apply Z.land_ones. lia.
Qed.

Lemma rotl64_range (x n : Z) : 0 <= rotl64 x n < 2 ^ 64.
Proof. unfold rotl64, to_uint64. apply Z.mod_pos_bound. lia. Qed.

Lemma rotl64_0 (x : Z) : rotl64 x 0 = to_uint64 x.
Proof.
  apply Z.bits_inj'. intros i Hi.
  rewrite testbit_rotl64, testbit_to_uint64 by lia.
  destruct (Z.ltb_spec i 64); [|reflexivity]. cbn [andb].
  f_equal. rewrite Z.sub_0_r. apply Z.mod_small. lia.
Qed.

(** Sets the tests of the assertions that the hypotheses decide. *)
Ltac decide_tests :=
  repeat match goal with
    | H : ?a <> ?b |- context [?a =? ?b] =>
        replace (a =? b) with false by (symmetry; apply Z.eqb_neq; exact H)
    | |- context [?a =? ?a] => rewrite (Z.eqb_refl a)
    | |- context [?a <? ?b] =>
        first [ replace (a <? b) with true by (symmetry; apply Z.ltb_lt; lia)
              | replace (a <? b) with false by (symmetry; apply Z.ltb_ge; lia) ]
    | |- context [?a <=? ?b] =>
        first [ replace (a <=? b) with true by (symmetry; apply Z.leb_le; lia)
              | replace (a <=? b) with false by (symmetry; apply Z.leb_gt; lia) ]
    end;
  cbn [negb andb orb].

Lemma ma_dsll_emits (rd rt : Register) (shift : Z) (m : MacroAssembler) :
  shift < 64 ->
  ma_dsll rd rt shift m = Done tt (appendInstrs m [I_rldicr rd rt shift (63 - shift)]).
Proof. intros H. unfold ma_dsll. decide_tests. emit_steps. reflexivity. Qed.

Lemma ma_dsrl_emits (rd rt : Register) (shift : Z) (m : MacroAssembler) :
  shift < 64 ->
  ma_dsrl rd rt shift m = Done tt (appendInstrs m [I_rldicl rd rt (64 - shift) shift]).
Proof. intros H. unfold ma_dsrl. decide_tests. emit_steps. reflexivity. Qed.

(** X6: for a shift count from 0 to 63, the word of [ma_dsll] leaves in
    [rd] the doubleword of [rt] shifted left by the count, the bits that
    leave the doubleword being lost; for a count from 1 to 63 the word of
    [ma_dsrl] leaves the doubleword of [rt] shifted right by the count,
    zeros coming in from the top.  A count of 64 or more trips the
    assertion of either function and nothing is written. *)
Theorem ma_dsll_ma_dsrl_shift_the_doubleword :
  forall (rd rt : Register) (shift : Z) (m : MacroAssembler) (s : Machine.State),
    0 <= Machine.gpr s rt < 2 ^ 64 ->
    (0 <= shift < 64 ->
       exists s', Machine.run (emitted (ma_dsll rd rt shift) m) s = Some s'
                  /\ Machine.gpr s' rd = (Machine.gpr s rt * 2 ^ shift) mod 2 ^ 64)
    /\ (0 < shift < 64 ->
          exists s', Machine.run (emitted (ma_dsrl rd rt shift) m) s = Some s'
                     /\ Machine.gpr s' rd = Machine.gpr s rt / 2 ^ shift)
    /\ (64 <= shift ->
          completed (ma_dsll rd rt shift m) = false
          /\ completed (ma_dsrl rd rt shift m) = false
          /\ emitted (ma_dsll rd rt shift) m = []
          /\ emitted (ma_dsrl rd rt shift) m = []).
Proof.
  intros rd rt shift m s Hx. split; [|split].
  - intros Hn. rewrite (emitted_append _ _ _ _ (ma_dsll_emits rd rt shift m ltac:(lia))).
    eexists. split; [reflexivity|]. rewrite gpr_set_same.
    rewrite sldi_shifts_left by lia. unfold to_uint64.
    now rewrite Z.shiftl_mul_pow2 by lia.
  - intros Hn. rewrite (emitted_append _ _ _ _ (ma_dsrl_emits rd rt shift m ltac:(lia))).
    eexists. split; [reflexivity|]. rewrite gpr_set_same.
    rewrite srdi_shifts_right by lia. apply Z.shiftr_div_pow2. lia.
  - intros Hn.
    assert (A : ma_dsll rd rt shift m = Crashed m).
    { unfold ma_dsll. decide_tests. reflexivity. }
    assert (B : ma_dsrl rd rt shift m = Crashed m).
    { unfold ma_dsrl. decide_tests. reflexivity. }
    rewrite (emitted_Crashed_same _ _ A), (emitted_Crashed_same _ _ B), A, B.
    repeat split.
Qed.

Lemma ma_dsll_ma_dsrl_shift_the_doubleword_witness :
  0 <= Machine.gpr (Machine.init 0xF00000000000000F) r4 < 2 ^ 64
  /\ 0 <= 4 < 64
  /\ exists s', Machine.run (emitted (ma_dsll r3 r4 4) emptyMasm)
                            (Machine.init 0xF00000000000000F) = Some s'
                /\ Machine.gpr s' r3 = 0xF0.
Proof.
  split; [cbn; lia|]. split; [lia|].
  destruct (ma_dsll_ma_dsrl_shift_the_doubleword r3 r4 4 emptyMasm
              (Machine.init 0xF00000000000000F)) as [L _]; [cbn; lia|].
  destruct (L ltac:(lia)) as (s' & R & G).
  exists s'. split; [exact R|]. rewrite G. reflexivity.
Defined.

Lemma lshiftPtr_emits (imm : Z) (dest : Register) (m : MacroAssembler) :
  0 <= imm < 64 ->
  lshiftPtr imm dest m = Done tt (appendInstrs m [I_rldicr dest dest imm (63 - imm)]).
Proof.
  intros H. unfold lshiftPtr. decide_tests.
  cbv beta iota delta [bindM MOZ_ASSERT]. apply ma_dsll_emits. lia.
Qed.

Lemma rshiftPtr_emits (imm : Z) (dest : Register) (m : MacroAssembler) :
  0 <= imm < 64 ->
  rshiftPtr imm dest m = Done tt (appendInstrs m [I_rldicl dest dest (64 - imm) imm]).
Proof.
  intros H. unfold rshiftPtr. decide_tests.
  cbv beta iota delta [bindM MOZ_ASSERT]. apply ma_dsrl_emits. lia.
Qed.

(** X7: [lshiftPtr] by a count from 1 to 63 followed by [rshiftPtr] by
    the same count clears that many bits at the top of the register and
    keeps the others; a count that is negative or above 63 trips the
    assertion of either function and nothing is written. *)
Theorem lshiftPtr_then_rshiftPtr_clears_the_top_bits :
  forall (imm : Z) (dest : Register) (m m' : MacroAssembler) (s : Machine.State),
    0 <= Machine.gpr s dest < 2 ^ 64 ->
    (0 < imm < 64 ->
       exists s1 s2,
         Machine.run (emitted (lshiftPtr imm dest) m) s = Some s1
         /\ Machine.run (emitted (rshiftPtr imm dest) m') s1 = Some s2
         /\ Machine.gpr s2 dest = Machine.gpr s dest mod 2 ^ (64 - imm))
    /\ (imm < 0 \/ 64 <= imm ->
          completed (lshiftPtr imm dest m) = false
          /\ completed (rshiftPtr imm dest m) = false
          /\ emitted (lshiftPtr imm dest) m = []
          /\ emitted (rshiftPtr imm dest) m = []).
Proof.
  intros imm dest m m' s Hx. split.
  - intros Hn.
    rewrite (emitted_append _ _ _ _ (lshiftPtr_emits imm dest m ltac:(lia))).
    rewrite (emitted_append _ _ _ _ (rshiftPtr_emits imm dest m' ltac:(lia))).
    eexists. eexists. split; [reflexivity|]. split; [reflexivity|].
    rewrite !gpr_set_same.
    rewrite sldi_shifts_left by lia.
    rewrite srdi_shifts_right by (unfold to_uint64; try apply Z.mod_pos_bound; lia).
    unfold to_uint64. rewrite Z.shiftl_mul_pow2, Z.shiftr_div_pow2 by lia.
    assert (E : 2 ^ 64 = 2 ^ (64 - imm) * 2 ^ imm).
    { rewrite <- Z.pow_add_r by lia. f_equal. lia. }
    assert (P : 0 < 2 ^ imm) by (apply Z.pow_pos_nonneg; lia).
    assert (Q : 0 < 2 ^ (64 - imm)) by (apply Z.pow_pos_nonneg; lia).
    rewrite E, Z.mul_mod_distr_r by lia.
    apply Z.div_mul. lia.
  - intros Hn.
    assert (A : lshiftPtr imm dest m = Crashed m).
    { unfold lshiftPtr. destruct Hn; decide_tests; reflexivity. }
    assert (B : rshiftPtr imm dest m = Crashed m).
    { unfold rshiftPtr. destruct Hn; decide_tests; reflexivity. }
    rewrite (emitted_Crashed_same _ _ A), (emitted_Crashed_same _ _ B), A, B.
    repeat split.
Qed.

Lemma lshiftPtr_then_rshiftPtr_clears_the_top_bits_witness :
  0 <= Machine.gpr (Machine.init 0xFFFFFFFFFFFFFFFF) r3 < 2 ^ 64
  /\ 0 < 16 < 64
  /\ exists s1 s2,
       Machine.run (emitted (lshiftPtr 16 r3) emptyMasm) (Machine.init 0xFFFFFFFFFFFFFFFF)
       = Some s1
       /\ Machine.run (emitted (rshiftPtr 16 r3) emptyMasm) s1 = Some s2
       /\ Machine.gpr s2 r3 = 0xFFFFFFFFFFFF.
Proof.
  split; [cbn; lia|]. split; [lia|].
  destruct (lshiftPtr_then_rshiftPtr_clears_the_top_bits 16 r3 emptyMasm emptyMasm
              (Machine.init 0xFFFFFFFFFFFFFFFF)) as [L _]; [cbn; lia|].
  destruct (L ltac:(lia)) as (s1 & s2 & R1 & R2 & G).
  exists s1, s2. split; [exact R1|]. split; [exact R2|]. rewrite G. reflexivity.
Defined.

Lemma ma_dext_emits (rt rs : Register) (pos size : Z) (m : MacroAssembler) :
  ma_dext rt rs pos size m
  = Done tt (appendInstrs m [I_rldicl rt rs (pos + size) (64 - size)]).
Proof. unfold ma_dext. emit_steps. reflexivity. Qed.

(** The field that rldicl by [pos + size] with mask begin [64 - size]
    extracts. *)
Lemma rldicl_extracts (x pos size : Z) :
  0 <= pos -> 0 < size -> pos + size < 64 ->
  Z.land (rotl64 x (pos + size)) (MASK (64 - size) 63)
  = Z.land (Z.shiftr x (64 - (pos + size))) (Z.ones size).
Proof.
  intros Hp Hs Hps. rewrite MASK_low by lia.
  replace (64 - (64 - size)) with size by lia.
  apply Z.bits_inj'. intros i Hi.
  rewrite !Z.land_spec, testbit_rotl64, Z.shiftr_spec by lia.
  destruct (Z.ltb_spec i size).
  - rewrite Z.ones_spec_low by lia. rewrite !andb_true_r.
    replace (i <? 64) with true by (symmetry; apply Z.ltb_lt; lia).
    cbn [andb]. f_equal. symmetry. apply Z.mod_unique with (q := -1); lia.
  - rewrite Z.ones_spec_high by lia. now rewrite !andb_false_r.
Qed.

(** X8: [ma_dext] counts the position of the field from the top of the
    doubleword: for a field of [size] bits at position [pos] it leaves in
    [rt], right-justified, the [size] bits of [rs] that lie [pos] bits
    below the most significant one.  [unboxBoolean], which asks for the
    32 bits at position 0, leaves the upper word of the value. *)
Theorem ma_dext_takes_the_field_from_the_top :
  forall (rt rs : Register) (pos size : Z) (m : MacroAssembler) (s : Machine.State),
    0 <= pos -> 0 < size -> pos + size < 64 ->
    (exists s',
       Machine.run (emitted (ma_dext rt rs pos size) m) s = Some s'
       /\ Machine.gpr s' rt
          = Z.land (Z.shiftr (Machine.gpr s rs) (64 - (pos + size))) (Z.ones size))
    /\ (0 <= Machine.gpr s rs < 2 ^ 64 ->
        exists s',
          Machine.run (emitted (unboxBoolean rs rt) m) s = Some s'
          /\ Machine.gpr s' rt = Machine.gpr s rs / 2 ^ 32).
Proof.
  intros rt rs pos size m s Hp Hs Hps. split.
  - rewrite (emitted_append _ _ _ _ (ma_dext_emits rt rs pos size m)).
    eexists. split; [reflexivity|]. rewrite gpr_set_same.
    now apply rldicl_extracts.
  - intros Hx. unfold unboxBoolean.
    rewrite (emitted_append _ _ _ _ (ma_dext_emits rt rs 0 32 m)).
    eexists. split; [reflexivity|]. rewrite gpr_set_same.
    rewrite (rldicl_extracts _ 0 32) by lia.
    change (64 - (0 + 32)) with 32.
    rewrite Z.land_ones, Z.shiftr_div_pow2 by lia.
    apply Z.mod_small. split.
    + apply Z.div_pos; lia.
    + apply Z.div_lt_upper_bound; lia.
Qed.

Lemma ma_dext_takes_the_field_from_the_top_witness :
  0 <= 0 /\ 0 < 32 /\ 0 + 32 < 64
  /\ 0 <= Machine.gpr (Machine.init 0xFFF9000000000001) r4 < 2 ^ 64
  /\ exists s',
       Machine.run (emitted (unboxBoolean r4 r3) emptyMasm)
                   (Machine.init 0xFFF9000000000001) = Some s'
       /\ Machine.gpr s' r3 = 0xFFF90000.
Proof.
  assert (H : 0 <= Machine.gpr (Machine.init 0xFFF9000000000001) r4 < 2 ^ 64)
    by (cbn; lia).
  split; [lia|]. split; [lia|]. split; [lia|]. split; [exact H|].
  destruct (proj2 (ma_dext_takes_the_field_from_the_top r3 r4 0 32 emptyMasm
                     (Machine.init 0xFFF9000000000001)
                     ltac:(lia) ltac:(lia) ltac:(lia)) H) as (s' & R & G).
  exists s'. split; [exact R|]. rewrite G. reflexivity.
Defined.

Lemma to_uint64_add_r (a b : Z) : to_uint64 (a + to_uint64 b) = to_uint64 (a + b).
Proof. unfold to_uint64. now rewrite Zplus_mod_idemp_r. Qed.

Lemma to_uint64_sub_r (a b : Z) : to_uint64 (a - to_uint64 b) = to_uint64 (a - b).
Proof. unfold to_uint64. now rewrite Zminus_mod_idemp_r. Qed.

Lemma to_uint64_add_l (a b : Z) : to_uint64 (to_uint64 a + b) = to_uint64 (a + b).
Proof. unfold to_uint64. now rewrite Zplus_mod_idemp_l. Qed.

(** X9: [computeScaledAddress] leaves in [dest] the base plus the index
    times the scale, as a doubleword.  With a scale other than one the
    scaled index goes through the scratch register, and a base that is
    the scratch register trips the assertion. *)
Theorem computeScaledAddress_adds_the_scaled_index :
  forall (address : BaseIndex) (dest : Register) (m : MacroAssembler) (s : Machine.State),
    (bi_scale address = TimesOne \/ bi_base address <> ScratchRegister ->
       exists s',
         Machine.run (emitted (computeScaledAddress address dest) m) s = Some s'
         /\ Machine.gpr s' dest
            = (Machine.gpr s (bi_base address)
               + Machine.gpr s (bi_index address) * 2 ^ ShiftOf (bi_scale address))
              mod 2 ^ 64)
    /\ (bi_scale address <> TimesOne -> bi_base address = ScratchRegister ->
          completed (computeScaledAddress address dest m) = false
          /\ emitted (computeScaledAddress address dest) m = []).
Proof.
  intros [b i sc off] dest m s. cbn [bi_scale bi_base bi_index]. split.
  - intros H. unfold computeScaledAddress. cbn [bi_scale bi_base bi_index].
    destruct sc; cbn [ShiftOf Z.eqb negb Pos.eqb];
      try (destruct H as [H|H]; [discriminate H|]).
    + (* times one *)
      rewrite (emitted_append _ m tt [I_add dest b i]) by (emit_steps; reflexivity).
      eexists. split; [reflexivity|]. rewrite gpr_set_same.
      change (2 ^ 0) with 1. now rewrite Z.mul_1_r.
    + rewrite (emitted_append _ m tt [I_rldicr ScratchRegister i 1 (63 - 1);
                                      I_add dest b ScratchRegister])
        by (decide_tests; unfold ma_dsll; decide_tests; emit_steps; flatten_buffer;
            reflexivity).
      eexists. split; [reflexivity|].
      rewrite gpr_set_same, gpr_set_same, gpr_set_other by exact H.
      rewrite sldi_shifts_left, Z.shiftl_mul_pow2 by lia. apply to_uint64_add_r.
    + rewrite (emitted_append _ m tt [I_rldicr ScratchRegister i 2 (63 - 2);
                                      I_add dest b ScratchRegister])
        by (decide_tests; unfold ma_dsll; decide_tests; emit_steps; flatten_buffer;
            reflexivity).
      eexists. split; [reflexivity|].
      rewrite gpr_set_same, gpr_set_same, gpr_set_other by exact H.
      rewrite sldi_shifts_left, Z.shiftl_mul_pow2 by lia. apply to_uint64_add_r.
    + rewrite (emitted_append _ m tt [I_rldicr ScratchRegister i 3 (63 - 3);
                                      I_add dest b ScratchRegister])
        by (decide_tests; unfold ma_dsll; decide_tests; emit_steps; flatten_buffer;
            reflexivity).
      eexists. split; [reflexivity|].
      rewrite gpr_set_same, gpr_set_same, gpr_set_other by exact H.
      rewrite sldi_shifts_left, Z.shiftl_mul_pow2 by lia. apply to_uint64_add_r.
  - intros Hs Hb. subst b.
    assert (A : computeScaledAddress (mkBaseIndex ScratchRegister i sc off) dest m
                = Crashed m).
    { unfold computeScaledAddress. cbn [bi_scale bi_base bi_index].
      destruct sc; [congruence| | |]; reflexivity. }
    rewrite (emitted_Crashed_same _ _ A), A. split; reflexivity.
Qed.

Lemma computeScaledAddress_adds_the_scaled_index_witness :
  (bi_scale (mkBaseIndex r3 r4 TimesEight 0) = TimesOne
   \/ bi_base (mkBaseIndex r3 r4 TimesEight 0) <> ScratchRegister)
  /\ exists s',
       Machine.run (emitted (computeScaledAddress (mkBaseIndex r3 r4 TimesEight 0) r5)
                      emptyMasm) (with_operands r3 r4 0x1000 5) = Some s'
       /\ Machine.gpr s' r5 = 0x1028.
Proof.
  assert (H : bi_scale (mkBaseIndex r3 r4 TimesEight 0) = TimesOne
              \/ bi_base (mkBaseIndex r3 r4 TimesEight 0) <> ScratchRegister)
    by (right; discriminate).
  split; [exact H|].
  destruct (proj1 (computeScaledAddress_adds_the_scaled_index
                     (mkBaseIndex r3 r4 TimesEight 0) r5 emptyMasm
                     (with_operands r3 r4 0x1000 5)) H) as (s' & R & G).
  exists s'. split; [exact R|]. rewrite G. reflexivity.
Defined.

Lemma mulBy3_emits (src dest : Register) (m : MacroAssembler) :
  src <> ScratchRegister ->
  mulBy3 src dest m
  = Done tt (appendInstrs m [I_add ScratchRegister src src; I_add dest ScratchRegister src]).
Proof.
  intros H. unfold mulBy3. decide_tests. emit_steps. flatten_buffer. reflexivity.
Qed.

(** X10: [mulBy3] leaves in [dest] three times the doubleword of [src],
    modulo 2^64, also when [dest] is [src]; a [src] that is the scratch
    register trips the assertion. *)
Theorem mulBy3_triples :
  forall (src dest : Register) (m : MacroAssembler) (s : Machine.State),
    (src <> ScratchRegister ->
       exists s',
         Machine.run (emitted (mulBy3 src dest) m) s = Some s'
         /\ Machine.gpr s' dest = (3 * Machine.gpr s src) mod 2 ^ 64)
    /\ (src = ScratchRegister ->
          completed (mulBy3 src dest m) = false /\ emitted (mulBy3 src dest) m = []).
Proof.
  intros src dest m s. split.
  - intros H. rewrite (emitted_append _ _ _ _ (mulBy3_emits src dest m H)).
    eexists. split; [reflexivity|].
    rewrite gpr_set_same, gpr_set_same, gpr_set_other by exact H.
    rewrite to_uint64_add_l. unfold to_uint64. f_equal. lia.
  - intros ->.
    assert (A : mulBy3 ScratchRegister dest m = Crashed m) by reflexivity.
    rewrite (emitted_Crashed_same _ _ A), A. split; reflexivity.
Qed.

Lemma mulBy3_triples_witness :
  r3 <> ScratchRegister
  /\ exists s',
       Machine.run (emitted (mulBy3 r3 r3) emptyMasm) (Machine.init 0x8000000000000001)
       = Some s'
       /\ Machine.gpr s' r3 = 0x8000000000000003.
Proof.
  assert (H : r3 <> ScratchRegister) by discriminate.
  split; [exact H|].
  destruct (proj1 (mulBy3_triples r3 r3 emptyMasm (Machine.init 0x8000000000000001)) H)
    as (s' & R & G).
  exists s'. split; [exact R|]. rewrite G. reflexivity.
Defined.

Lemma rotateLeft64_emits (count : Z) (src dest : Register) (m : MacroAssembler) :
  rotateLeft64 count src dest InvalidReg m
  = Done tt (appendInstrs m [I_rldicl dest src count 0]).
Proof. unfold rotateLeft64. emit_steps. reflexivity. Qed.

Lemma rotateRight64_emits (count : Z) (src dest : Register) (m : MacroAssembler) :
  rotateRight64 count src dest InvalidReg m
  = Done tt (appendInstrs m [I_rldicl dest src (64 - count) 0]).
Proof. unfold rotateRight64. emit_steps. reflexivity. Qed.

Lemma rldicl_0_rotates (x n : Z) : Z.land (rotl64 x n) (MASK 0 63) = rotl64 x n.
Proof.
  rewrite rldicl_keeps_low by lia. apply Z.mod_small. apply rotl64_range.
Qed.

Lemma rotl64_back (x n : Z) : 0 < n < 64 -> rotl64 (rotl64 x n) (64 - n) = to_uint64 x.
Proof.
  intros Hn. apply Z.bits_inj'. intros i Hi.
  rewrite testbit_rotl64, testbit_to_uint64 by lia.
  destruct (Z.ltb_spec i 64); [|reflexivity]. cbn [andb].
  rewrite testbit_rotl64 by (try apply Z.mod_pos_bound; lia).
  assert (B : 0 <= (i - (64 - n)) mod 64 < 64) by (apply Z.mod_pos_bound; lia).
  replace ((i - (64 - n)) mod 64 <? 64) with true by (symmetry; apply Z.ltb_lt; lia).
  cbn [andb]. f_equal.
  rewrite Zminus_mod_idemp_l. symmetry. apply Z.mod_unique with (q := -1); lia.
Qed.

(** X11: [rotateLeft64] by a count from 1 to 63 followed by
    [rotateRight64] by the same count gives the doubleword back, and each
    of them is a rotation: no bit is lost.  A [temp] other than
    [InvalidReg] trips the assertion of either function. *)
Theorem rotateLeft64_then_rotateRight64_is_the_identity :
  forall (count : Z) (src mid dest temp : Register) (m m' : MacroAssembler)
         (s : Machine.State),
    (0 < count < 64 ->
     0 <= Machine.gpr s src < 2 ^ 64 ->
       exists s1 s2,
         Machine.run (emitted (rotateLeft64 count src mid InvalidReg) m) s = Some s1
         /\ Machine.gpr s1 mid = rotl64 (Machine.gpr s src) count
         /\ Machine.run (emitted (rotateRight64 count mid dest InvalidReg) m') s1 = Some s2
         /\ Machine.gpr s2 dest = Machine.gpr s src)
    /\ (temp <> InvalidReg ->
          completed (rotateLeft64 count src dest temp m) = false
          /\ completed (rotateRight64 count src dest temp m) = false).
Proof.
  intros count src mid dest temp m m' s. split.
  - intros Hc Hx.
    rewrite (emitted_append _ _ _ _ (rotateLeft64_emits count src mid m)).
    rewrite (emitted_append _ _ _ _ (rotateRight64_emits count mid dest m')).
    eexists. eexists. split; [reflexivity|]. split.
    + rewrite gpr_set_same. apply rldicl_0_rotates.
    + split; [reflexivity|]. rewrite !gpr_set_same.
      rewrite !rldicl_0_rotates, rotl64_back by lia.
      apply Z.mod_small. exact Hx.
  - intros Ht. unfold rotateLeft64, rotateRight64. decide_tests. split; reflexivity.
Qed.

Lemma rotateLeft64_then_rotateRight64_is_the_identity_witness :
  0 < 8 < 64
  /\ 0 <= Machine.gpr (Machine.init 0xAB00000000000012) r3 < 2 ^ 64
  /\ exists s1 s2,
       Machine.run (emitted (rotateLeft64 8 r3 r4 InvalidReg) emptyMasm)
                   (Machine.init 0xAB00000000000012) = Some s1
       /\ Machine.gpr s1 r4 = 0x12AB
       /\ Machine.run (emitted (rotateRight64 8 r4 r5 InvalidReg) emptyMasm) s1 = Some s2
       /\ Machine.gpr s2 r5 = 0xAB00000000000012.
Proof.
  assert (H : 0 <= Machine.gpr (Machine.init 0xAB00000000000012) r3 < 2 ^ 64)
    by (cbn; lia).
  split; [lia|]. split; [exact H|].
  destruct (proj1 (rotateLeft64_then_rotateRight64_is_the_identity 8 r3 r4 r5 InvalidReg
                     emptyMasm emptyMasm (Machine.init 0xAB00000000000012))
              ltac:(lia) H) as (s1 & s2 & R1 & G1 & R2 & G2).
  exists s1, s2. split; [exact R1|]. split; [rewrite G1; reflexivity|].
  split; [exact R2|]. rewrite G2. reflexivity.
Defined.

(** Sign extension reads the low [w] bits only. *)
Lemma signed_low_bits (w x y : Z) :
  x mod 2 ^ w = y mod 2 ^ w -> signed w x = signed w y.
Proof. intros E. unfold signed. now rewrite E. Qed.

Lemma to_uint64_signed_low (w v x : Z) :
  0 < w <= v -> v <= 64 ->
  to_uint64 (signed v x) mod 2 ^ w = x mod 2 ^ w.
Proof.
  intros Hw Hv. apply Z.bits_inj'. intros i Hi.
  rewrite !testbit_mod_pow2, testbit_to_uint64 by lia.
  destruct (Z.ltb_spec i w); [|reflexivity]. cbn [andb].
  replace (i <? 64) with true by (symmetry; apply Z.ltb_lt; lia).
  cbn [andb]. apply testbit_signed; lia.
Qed.

(** X12: [move32ZeroExtendToPtr] clears the upper word: the destination
    holds the low word of the source.  [move32To64ZeroExtend] copies the
    whole register: the destination holds the correctly zero-extended low
    word exactly when the upper word of the source was already clear. *)
Theorem move32ZeroExtendToPtr_clears_and_move32To64ZeroExtend_copies :
  forall (src dest : Register) (m : MacroAssembler) (s : Machine.State),
    0 <= Machine.gpr s src < 2 ^ 64 ->
    (exists s',
       Machine.run (emitted (move32ZeroExtendToPtr src dest) m) s = Some s'
       /\ Machine.gpr s' dest = Machine.gpr s src mod 2 ^ 32)
    /\ (exists s',
          Machine.run (emitted (move32To64ZeroExtend src dest) m) s = Some s'
          /\ Machine.gpr s' dest = Machine.gpr s src
          /\ (Machine.gpr s' dest = Machine.gpr s src mod 2 ^ 32
              <-> Machine.gpr s src < 2 ^ 32)).
Proof.
  intros src dest m s Hx. split.
  - rewrite (emitted_append _ m tt [I_rldicl dest src 0 32])
      by (unfold move32ZeroExtendToPtr; emit_steps; reflexivity).
    eexists. split; [reflexivity|]. rewrite gpr_set_same.
    rewrite rldicl_keeps_low, rotl64_0 by lia. change (64 - 32) with 32.
    unfold to_uint64. now rewrite (Z.mod_small _ (2 ^ 64)) by exact Hx.
  - rewrite (emitted_append _ m tt [I_or dest src src])
      by (unfold move32To64ZeroExtend; emit_steps; reflexivity).
    eexists. split; [reflexivity|]. rewrite gpr_set_same, Z.lor_diag.
    split; [reflexivity|]. split.
    + intros E. rewrite E. apply Z.mod_pos_bound. lia.
    + intros L. symmetry. apply Z.mod_small. lia.
Qed.

Lemma move32ZeroExtendToPtr_clears_and_move32To64ZeroExtend_copies_witness :
  0 <= Machine.gpr (Machine.init 0xFFFFFFFF00000007) r3 < 2 ^ 64
  /\ (exists s',
        Machine.run (emitted (move32ZeroExtendToPtr r3 r4) emptyMasm)
                    (Machine.init 0xFFFFFFFF00000007) = Some s'
        /\ Machine.gpr s' r4 = 7)
  /\ (exists s',
        Machine.run (emitted (move32To64ZeroExtend r3 r4) emptyMasm)
                    (Machine.init 0xFFFFFFFF00000007) = Some s'
        /\ Machine.gpr s' r4 = 0xFFFFFFFF00000007).
Proof.
  assert (H : 0 <= Machine.gpr (Machine.init 0xFFFFFFFF00000007) r3 < 2 ^ 64)
    by (cbn; lia).
  split; [exact H|].
  destruct (move32ZeroExtendToPtr_clears_and_move32To64ZeroExtend_copies r3 r4 emptyMasm
              (Machine.init 0xFFFFFFFF00000007) H) as [(s1 & R1 & G1) (s2 & R2 & G2 & _)].
  split.
  - exists s1. split; [exact R1|]. rewrite G1. reflexivity.
  - exists s2. split; [exact R2|]. rewrite G2. reflexivity.
Defined.

(** X13: [move8To64SignExtend] and [move16To64SignExtend] leave in the
    destination the sign extension of the low byte, respectively the low
    halfword, of the source: the word extension that they start with
    does not disturb the narrower one that follows. *)
Theorem move8To64SignExtend_extends_the_low_byte :
  forall (src dest : Register) (m : MacroAssembler) (s : Machine.State),
    (exists s',
       Machine.run (emitted (move8To64SignExtend src dest) m) s = Some s'
       /\ Machine.gpr s' dest = to_uint64 (signed 8 (Machine.gpr s src)))
    /\ (exists s',
          Machine.run (emitted (move16To64SignExtend src dest) m) s = Some s'
          /\ Machine.gpr s' dest = to_uint64 (signed 16 (Machine.gpr s src))).
Proof.
  intros src dest m s. split.
  - rewrite (emitted_append _ m tt [I_extsw dest src; I_extsb dest dest])
      by (unfold move8To64SignExtend, move32To64SignExtend, move8SignExtend;
          emit_steps; flatten_buffer; reflexivity).
    eexists. split; [reflexivity|]. rewrite !gpr_set_same.
    f_equal. apply signed_low_bits. apply to_uint64_signed_low; lia.
  - rewrite (emitted_append _ m tt [I_extsw dest src; I_extsh dest dest])
      by (unfold move16To64SignExtend, move32To64SignExtend, move16SignExtend;
          emit_steps; flatten_buffer; reflexivity).
    eexists. split; [reflexivity|]. rewrite !gpr_set_same.
    f_equal. apply signed_low_bits. apply to_uint64_signed_low; lia.
Qed.

Lemma land_31 (x : Z) : Z.land x (to_uint16 31) = x mod 32.
Proof. change (to_uint16 31) with (Z.ones 5). rewrite Z.land_ones by lia. reflexivity. Qed.

(** X14: [lshift32] and [rshift32] take the shift count from a register
    modulo 32, as JavaScript expects: the low word of [dest] is shifted
    by the low five bits of [src], the result is a word with a clear
    upper word, and the scratch register is left holding the count.  A
    [src] that is the scratch register trips the assertion. *)
Theorem lshift32_rshift32_take_the_count_modulo_32 :
  forall (src dest : Register) (m : MacroAssembler) (s : Machine.State),
    (src <> ScratchRegister -> dest <> ScratchRegister ->
       (exists s',
          Machine.run (emitted (lshift32 src dest) m) s = Some s'
          /\ Machine.gpr s' dest
             = (Machine.gpr s dest mod 2 ^ 32 * 2 ^ (Machine.gpr s src mod 32)) mod 2 ^ 32)
       /\ (exists s',
             Machine.run (emitted (rshift32 src dest) m) s = Some s'
             /\ Machine.gpr s' dest
                = (Machine.gpr s dest mod 2 ^ 32) / 2 ^ (Machine.gpr s src mod 32)))
    /\ (src = ScratchRegister ->
          completed (lshift32 src dest m) = false
          /\ completed (rshift32 src dest m) = false).
Proof.
  intros src dest m s. split.
  - intros Hs Hd.
    assert (B : 0 <= Machine.gpr s src mod 32 < 32) by (apply Z.mod_pos_bound; lia).
    split.
    + rewrite (emitted_append _ m tt [I_andi_rc ScratchRegister src 31;
                                      I_slw dest dest ScratchRegister])
        by (unfold lshift32; decide_tests; emit_steps; flatten_buffer; reflexivity).
      eexists. split; [reflexivity|].
      cbn [Machine.gpr Machine.set_gpr Machine.set_cr].
      rewrite !Z.eqb_refl.
      replace (dest =? ScratchRegister) with false by (symmetry; apply Z.eqb_neq; exact Hd).
      rewrite land_31, (Z.mod_small (Machine.gpr s src mod 32) 64) by lia.
      replace (Machine.gpr s src mod 32 <? 32) with true by (symmetry; apply Z.ltb_lt; lia).
      unfold to_uint32. now rewrite Z.shiftl_mul_pow2 by lia.
    + rewrite (emitted_append _ m tt [I_andi_rc ScratchRegister src 31;
                                      I_srw dest dest ScratchRegister])
        by (unfold rshift32; decide_tests; emit_steps; flatten_buffer; reflexivity).
      eexists. split; [reflexivity|].
      cbn [Machine.gpr Machine.set_gpr Machine.set_cr].
      rewrite !Z.eqb_refl.
      replace (dest =? ScratchRegister) with false by (symmetry; apply Z.eqb_neq; exact Hd).
      rewrite land_31, (Z.mod_small (Machine.gpr s src mod 32) 64) by lia.
      replace (Machine.gpr s src mod 32 <? 32) with true by (symmetry; apply Z.ltb_lt; lia).
      unfold to_uint32. now rewrite Z.shiftr_div_pow2 by lia.
  - intros ->. split; reflexivity.
Qed.

Lemma lshift32_rshift32_take_the_count_modulo_32_witness :
  r4 <> ScratchRegister /\ r3 <> ScratchRegister
  /\ exists s',
       Machine.run (emitted (lshift32 r4 r3) emptyMasm) (with_operands r3 r4 1 33) = Some s'
       /\ Machine.gpr s' r3 = 2.
Proof.
  assert (H4 : r4 <> ScratchRegister) by discriminate.
  assert (H3 : r3 <> ScratchRegister) by discriminate.
  split; [exact H4|]. split; [exact H3|].
  destruct (proj1 (lshift32_rshift32_take_the_count_modulo_32 r4 r3 emptyMasm
                     (with_operands r3 r4 1 33)) H4 H3) as [(s' & R & G) _].
  exists s'. split; [exact R|]. rewrite G. reflexivity.
Defined.

(** An immediate load followed by one more word. *)
Lemma then_one_more (c : M unit) (i : Instr) (code : list Instr) (m : MacroAssembler) :
  c m = Done tt (appendInstrs m code) ->
  (c ;; writeInst i ;; ret tt) m = Done tt (appendInstrs m (code ++ [i])).
Proof.
  intros E. unfold bindM. rewrite E. unfold writeInst, ret, appendInstrs.
  cbn [m_buffer longJumps_ jumps_]. now rewrite app_assoc.
Qed.

Lemma unchanged_elsewhere (d r : Register) (s s' : Machine.State) :
  only_gpr_changed d s s' -> r <> d -> Machine.gpr s' r = Machine.gpr s r.
Proof. intros (G & _) H. now apply G. Qed.

Lemma ma_add_small (rd rs : Register) (imm : Z) (m : MacroAssembler) :
  rs <> ScratchRegister -> Imm16_IsInSignedRange imm = true ->
  ma_add rd rs imm m = Done tt (appendInstrs m [I_addi rd rs imm]).
Proof.
  intros H R. unfold ma_add. decide_tests. rewrite R. emit_steps. reflexivity.
Qed.

Lemma ma_add_large (rd rs : Register) (imm : Z) (m : MacroAssembler) (code : list Instr) :
  rs <> ScratchRegister -> Imm16_IsInSignedRange imm = false ->
  (forall m', ma_li_Imm32 ScratchRegister imm m' = Done tt (appendInstrs m' code)) ->
  ma_add rd rs imm m = Done tt (appendInstrs m (code ++ [I_add rd rs ScratchRegister])).
Proof.
  intros H R E. unfold ma_add. decide_tests. rewrite R.
  cbv beta iota delta [bindM MOZ_ASSERT]. unfold as_add.
  apply (then_one_more _ _ _ _ (E m)).
Qed.

Lemma signed_range_cases (imm : Z) :
  (Imm16_IsInSignedRange imm = true /\ INT16_MIN <= imm <= INT16_MAX)
  \/ (Imm16_IsInSignedRange imm = false /\ (imm < INT16_MIN \/ INT16_MAX < imm)).
Proof.
  unfold Imm16_IsInSignedRange.
  destruct (Z.leb_spec INT16_MIN imm); destruct (Z.leb_spec imm INT16_MAX); cbn [andb];
    [left|right|right|right]; split; try reflexivity; lia.
Qed.

Lemma base_or_zero_other (s : Machine.State) (r : Register) :
  r <> ScratchRegister -> Machine.base_or_zero s r = Machine.gpr s r.
Proof.
  intros H. unfold Machine.base_or_zero.
  now replace (r =? 0) with false by (symmetry; apply Z.eqb_neq; exact H).
Qed.

(** X3: [ma_add] with a 32-bit immediate leaves in [rd] the sum of [rs]
    and the immediate, modulo 2^64, for every immediate outside 32768 to
    65535.  For the immediates in that range, which do not fit addi and
    which [ma_li] loads sign-extended, the result is 65536 less than the
    sum.  An [rs] that is the scratch register trips the assertion. *)
Theorem ma_add_adds_the_immediate_outside_one_range :
  forall (rd rs : Register) (imm : Z) (m : MacroAssembler) (s : Machine.State),
    INT32_MIN <= imm <= INT32_MAX ->
    (rs <> ScratchRegister ->
       exists s',
         Machine.run (emitted (ma_add rd rs imm) m) s = Some s'
         /\ Machine.gpr s' rd
            = (Machine.gpr s rs + (if (32768 <=? imm) && (imm <=? 65535)
                                   then imm - 65536 else imm)) mod 2 ^ 64)
    /\ (rs = ScratchRegister ->
          completed (ma_add rd rs imm m) = false /\ emitted (ma_add rd rs imm) m = []).
Proof.
  intros rd rs imm m s Hi. split.
  - intros Hrs.
    destruct (signed_range_cases imm) as [[R B]|[R B]].
    + rewrite (emitted_append _ _ _ _ (ma_add_small rd rs imm m Hrs R)).
      eexists. split; [reflexivity|]. rewrite gpr_set_same.
      rewrite base_or_zero_other, to_int16_small by assumption.
      unfold INT16_MIN, INT16_MAX in B.
      replace ((32768 <=? imm) && (imm <=? 65535)) with false; [reflexivity|].
      symmetry. apply andb_false_iff. left. apply Z.leb_gt. lia.
    + assert (exists v code s1,
                 (forall m', ma_li_Imm32 ScratchRegister imm m'
                             = Done tt (appendInstrs m' code))
                 /\ Machine.run code s = Some s1
                 /\ Machine.gpr s1 ScratchRegister = to_uint64 v
                 /\ only_gpr_changed ScratchRegister s s1
                 /\ v = (if (32768 <=? imm) && (imm <=? 65535) then imm - 65536 else imm))
        as (v & code & s1 & E & R1 & G & F & V).
      { destruct (Z.leb_spec 32768 imm); destruct (Z.leb_spec imm 65535); cbn [andb].
        - destruct (ma_li_Imm32_halfword_run ScratchRegister imm s ltac:(lia))
            as (code & s1 & E & R1 & G & F).
          exists (imm - 65536), code, s1. auto.
        - destruct (ma_li_Imm32_run ScratchRegister imm s Hi ltac:(lia))
            as (code & s1 & E & R1 & G & F).
          exists imm, code, s1. auto.
        - destruct (ma_li_Imm32_run ScratchRegister imm s Hi ltac:(lia))
            as (code & s1 & E & R1 & G & F).
          exists imm, code, s1. auto.
        - destruct (ma_li_Imm32_run ScratchRegister imm s Hi ltac:(lia))
            as (code & s1 & E & R1 & G & F).
          exists imm, code, s1. auto. }
      rewrite <- V.
      rewrite (emitted_append _ _ _ _ (ma_add_large rd rs imm m code Hrs R E)).
      rewrite (run_app _ _ _ _ R1).
      eexists. split; [reflexivity|]. rewrite gpr_set_same.
      rewrite G, (unchanged_elsewhere _ _ _ _ F Hrs). apply to_uint64_add_r.
  - intros ->.
    assert (A : ma_add rd ScratchRegister imm m = Crashed m) by reflexivity.
    rewrite (emitted_Crashed_same _ _ A), A. split; reflexivity.
Qed.

Lemma ma_add_adds_the_immediate_outside_one_range_witness :
  INT32_MIN <= 100000 <= INT32_MAX
  /\ r4 <> ScratchRegister
  /\ exists s',
       Machine.run (emitted (ma_add r3 r4 100000) emptyMasm) (Machine.init 5) = Some s'
       /\ Machine.gpr s' r3 = 100005.
Proof.
  assert (H : INT32_MIN <= 100000 <= INT32_MAX) by (split; discriminate).
  assert (H4 : r4 <> ScratchRegister) by discriminate.
  split; [exact H|]. split; [exact H4|].
  destruct (proj1 (ma_add_adds_the_immediate_outside_one_range r3 r4 100000 emptyMasm
                     (Machine.init 5) H) H4) as (s' & R & G).
  exists s'. split; [exact R|]. rewrite G. reflexivity.
Defined.

Lemma ma_dsubu_small (rd rs : Register) (imm : Z) (m : MacroAssembler) :
  rs <> ScratchRegister -> Imm16_IsInSignedRange (- imm) = true ->
  ma_dsubu rd rs imm m = Done tt (appendInstrs m [I_addi rd rs (- imm)]).
Proof.
  intros H R. unfold ma_dsubu. decide_tests. rewrite R. emit_steps. reflexivity.
Qed.

Lemma ma_dsubu_large (rd rs : Register) (imm : Z) (m : MacroAssembler) (code : list Instr) :
  rs <> ScratchRegister -> Imm16_IsInSignedRange (- imm) = false ->
  (forall m', ma_li_Imm32 ScratchRegister imm m' = Done tt (appendInstrs m' code)) ->
  ma_dsubu rd rs imm m = Done tt (appendInstrs m (code ++ [I_subf rd ScratchRegister rs])).
Proof.
  intros H R E. unfold ma_dsubu. decide_tests. rewrite R.
  cbv beta iota delta [bindM MOZ_ASSERT]. unfold as_subf.
  apply (then_one_more _ _ _ _ (E m)).
Qed.

(** What [ma_li] leaves in the register for an immediate of 32 bits. *)
Lemma ma_li_Imm32_any (dest : Register) (imm : Z) (s : Machine.State) :
  INT32_MIN <= imm <= INT32_MAX ->
  exists code s1,
    (forall m', ma_li_Imm32 dest imm m' = Done tt (appendInstrs m' code))
    /\ Machine.run code s = Some s1
    /\ Machine.gpr s1 dest
       = to_uint64 (if (32768 <=? imm) && (imm <=? 65535) then imm - 65536 else imm)
    /\ only_gpr_changed dest s s1.
Proof.
  intros Hi.
  destruct (Z.leb_spec 32768 imm); destruct (Z.leb_spec imm 65535); cbn [andb].
  - apply ma_li_Imm32_halfword_run. lia.
  - apply ma_li_Imm32_run; [exact Hi|lia].
  - apply ma_li_Imm32_run; [exact Hi|lia].
  - apply ma_li_Imm32_run; [exact Hi|lia].
Qed.

(* ----------------------------------------------------------------- *)
(** *** The overflow test of an addition or subtraction *)

(** C9 (as the code has it): [ma_addTestOverflow] and
    [ma_subTestOverflow] on registers write li and mtxer, which clear XER
    and with it the summary-overflow bit, then the overflow-recording add
    or subtract, then the branch on CR0[SO]: whatever overflow earlier
    operations left in the state, control goes to the overflow label if
    and only if this addition (of rs and rt) or this subtraction (of rt
    from rs) overflows the signed doubleword.  [ma_addTestOverflow] with
    an immediate first loads the immediate into the second scratch
    register with [ma_li]; run as a whole from any state, its words send
    control to the label if and only if the sum of rs and what [ma_li]
    loaded overflows, and that is the immediate itself only outside 32768
    to 65535: an immediate in that range is loaded as 65536 less.  So
    with rs holding 2^63 - 11 and the immediate 40000 the addition
    overflows and the branch is not taken. *)
Theorem ma_TestOverflow_immediate_misses_the_overflow :
  (forall (rd rs rt : Register) (overflow : Label) (m : MacroAssembler)
          (s : Machine.State),
      rs <> ScratchRegister ->
      rt <> ScratchRegister ->
      (exists s',
         emitted (ma_addTestOverflow rd rs rt overflow) m
         = [I_li ScratchRegister 0; I_mtxer ScratchRegister; I_addo_rc rd rs rt]
           ++ emitted (ma_bc SOBit overflow default_jumpKind)
                (appendInstrs m [I_li ScratchRegister 0; I_mtxer ScratchRegister;
                                 I_addo_rc rd rs rt])
         /\ Machine.run [I_li ScratchRegister 0; I_mtxer ScratchRegister;
                         I_addo_rc rd rs rt] s
            = Some s'
         /\ branches_to_label
              (emitted (ma_bc SOBit overflow default_jumpKind)
                 (appendInstrs m [I_li ScratchRegister 0; I_mtxer ScratchRegister;
                                  I_addo_rc rd rs rt])) s'
            = Some (Machine.overflows
                      (to_int64 (Machine.gpr s rs) + to_int64 (Machine.gpr s rt))))
      /\ (exists s',
            emitted (ma_subTestOverflow rd rs rt overflow) m
            = [I_li ScratchRegister 0; I_mtxer ScratchRegister; I_subfo_rc rd rt rs]
              ++ emitted (ma_bc SOBit overflow default_jumpKind)
                   (appendInstrs m [I_li ScratchRegister 0; I_mtxer ScratchRegister;
                                    I_subfo_rc rd rt rs])
            /\ Machine.run [I_li ScratchRegister 0; I_mtxer ScratchRegister;
                            I_subfo_rc rd rt rs] s
               = Some s'
            /\ branches_to_label
                 (emitted (ma_bc SOBit overflow default_jumpKind)
                    (appendInstrs m [I_li ScratchRegister 0; I_mtxer ScratchRegister;
                                     I_subfo_rc rd rt rs])) s'
               = Some (Machine.overflows
                         (to_int64 (Machine.gpr s rs) - to_int64 (Machine.gpr s rt)))))
  /\ (forall (rd rs : Register) (imm : Z) (overflow : Label) (m : MacroAssembler)
             (s : Machine.State),
         INT32_MIN <= imm <= INT32_MAX ->
         rs <> ScratchRegister ->
         rs <> SecondScratchReg ->
         exists li_code s',
           (forall m', ma_li_Imm32 SecondScratchReg imm m'
                       = Done tt (appendInstrs m' li_code))
           /\ emitted (ma_addTestOverflow_imm rd rs imm overflow) m
              = (li_code ++ [I_li ScratchRegister 0; I_mtxer ScratchRegister;
                             I_addo_rc rd rs SecondScratchReg])
                ++ emitted (ma_bc SOBit overflow default_jumpKind)
                     (appendInstrs m (li_code ++ [I_li ScratchRegister 0;
                                                  I_mtxer ScratchRegister;
                                                  I_addo_rc rd rs SecondScratchReg]))
           /\ Machine.run (li_code ++ [I_li ScratchRegister 0; I_mtxer ScratchRegister;
                                       I_addo_rc rd rs SecondScratchReg]) s
              = Some s'
           /\ branches_to_label
                (emitted (ma_bc SOBit overflow default_jumpKind)
                   (appendInstrs m (li_code ++ [I_li ScratchRegister 0;
                                                I_mtxer ScratchRegister;
                                                I_addo_rc rd rs SecondScratchReg]))) s'
              = Some (Machine.overflows
                        (to_int64 (Machine.gpr s rs)
                         + (if (32768 <=? imm) && (imm <=? 65535)
                            then imm - 65536 else imm))))
  /\ (exists s',
        emitted (ma_addTestOverflow_imm r5 r3 40000 newLabel) emptyMasm
        = [I_li SecondScratchReg 40000; I_li ScratchRegister 0; I_mtxer ScratchRegister;
           I_addo_rc r5 r3 SecondScratchReg]
          ++ emitted (ma_bc SOBit newLabel default_jumpKind)
               (appendInstrs emptyMasm
                  [I_li SecondScratchReg 40000; I_li ScratchRegister 0;
                   I_mtxer ScratchRegister; I_addo_rc r5 r3 SecondScratchReg])
        /\ Machine.run [I_li SecondScratchReg 40000; I_li ScratchRegister 0;
                        I_mtxer ScratchRegister; I_addo_rc r5 r3 SecondScratchReg]
                       (with_operands r3 r4 (2 ^ 63 - 11) 0)
           = Some s'
        /\ branches_to_label
             (emitted (ma_bc SOBit newLabel default_jumpKind)
                (appendInstrs emptyMasm
                   [I_li SecondScratchReg 40000; I_li ScratchRegister 0;
                    I_mtxer ScratchRegister; I_addo_rc r5 r3 SecondScratchReg])) s'
           = Some false
        /\ Machine.gpr s' SecondScratchReg = to_uint64 (-25536)
        /\ Machine.overflows
             (to_int64 (Machine.gpr (with_operands r3 r4 (2 ^ 63 - 11) 0) r3) + 40000)
           = true).
Proof.
  split; [|split].
  - intros rd rs rt overflow m s Hs Ht. split.
    + destruct (cleared_xer_then_add rd rs rt s Hs Ht) as [s' [Hrun Hso]].
      exists s'. split; [|split; [exact Hrun|]].
      * apply emitted_after_prefix; [now apply ma_addTestOverflow_run | apply ma_bc_extends].
      * now rewrite SOBit_branch_goes_to_label, Hso.
    + destruct (cleared_xer_then_subtract rd rs rt s Hs Ht) as [s' [Hrun Hso]].
      exists s'. split; [|split; [exact Hrun|]].
      * apply emitted_after_prefix; [now apply ma_subTestOverflow_run | apply ma_bc_extends].
      * now rewrite SOBit_branch_goes_to_label, Hso.
  - intros rd rs imm overflow m s Hi Hs Hs2.
    destruct (ma_li_Imm32_any SecondScratchReg imm s Hi) as (li_code & s1 & E & R1 & G & F).
    assert (H12 : SecondScratchReg <> ScratchRegister) by discriminate.
    destruct (cleared_xer_then_add rd rs SecondScratchReg s1 Hs H12) as [s' [Hrun Hso]].
    exists li_code, s'. split; [exact E|]. split; [|split].
    + apply emitted_after_prefix; [now apply ma_addTestOverflow_imm_run | apply ma_bc_extends].
    + rewrite (run_app _ _ _ _ R1). exact Hrun.
    + rewrite SOBit_branch_goes_to_label, Hso, G, (unchanged_elsewhere _ _ _ _ F Hs2).
      rewrite to_int64_to_uint64; [reflexivity|].
      unfold INT32_MIN, INT32_MAX, INT64_MIN, INT64_MAX in *.
      destruct ((32768 <=? imm) && (imm <=? 65535)); lia.
  - eexists. split; [|split; [reflexivity|]].
    + apply emitted_after_prefix; [|apply ma_bc_extends].
      apply (ma_addTestOverflow_imm_run r5 r3 40000 newLabel emptyMasm
               [I_li SecondScratchReg 40000]); [discriminate|].
      intros m'. destruct m'. reflexivity.
    + split; [rewrite SOBit_branch_goes_to_label; vm_compute; reflexivity|].
      split; vm_compute; reflexivity.
Qed.

Lemma ma_TestOverflow_immediate_misses_the_overflow_witness :
  r3 <> ScratchRegister
  /\ r4 <> ScratchRegister
  /\ Machine.xer_so (stale_overflow 1) = true
  /\ exists s',
       Machine.run [I_li ScratchRegister 0; I_mtxer ScratchRegister; I_addo_rc r5 r3 r4]
                   (stale_overflow 1) = Some s'
       /\ branches_to_label
            (emitted (ma_bc SOBit newLabel default_jumpKind)
               (appendInstrs emptyMasm
                  [I_li ScratchRegister 0; I_mtxer ScratchRegister; I_addo_rc r5 r3 r4])) s'
          = Some false.
Proof.
  assert (H3 : r3 <> ScratchRegister) by discriminate.
  assert (H4 : r4 <> ScratchRegister) by discriminate.
  split; [exact H3|]. split; [exact H4|]. split; [reflexivity|].
  destruct (proj1 (proj1 ma_TestOverflow_immediate_misses_the_overflow r5 r3 r4 newLabel
                     emptyMasm (stale_overflow 1) H3 H4)) as [s' [_ [Hrun Hbr]]].
  exists s'. split; [exact Hrun|]. rewrite Hbr. reflexivity.
Defined.

(** X4: [ma_dsubu] with a 32-bit immediate leaves in [rd] the difference
    of [rs] and the immediate, modulo 2^64, for every immediate outside
    32769 to 65535; 32768 is subtracted by adding -32768 with addi.  For
    the immediates from 32769 to 65535, which [ma_li] loads
    sign-extended, the result is 65536 more than the difference.  An
    [rs] that is the scratch register trips the assertion. *)
Theorem ma_dsubu_subtracts_the_immediate_outside_one_range :
  forall (rd rs : Register) (imm : Z) (m : MacroAssembler) (s : Machine.State),
    INT32_MIN <= imm <= INT32_MAX ->
    (rs <> ScratchRegister ->
       exists s',
         Machine.run (emitted (ma_dsubu rd rs imm) m) s = Some s'
         /\ Machine.gpr s' rd
            = (Machine.gpr s rs - (if (32769 <=? imm) && (imm <=? 65535)
                                   then imm - 65536 else imm)) mod 2 ^ 64)
    /\ (rs = ScratchRegister ->
          completed (ma_dsubu rd rs imm m) = false /\ emitted (ma_dsubu rd rs imm) m = []).
Proof.
  intros rd rs imm m s Hi. split.
  - intros Hrs.
    destruct (signed_range_cases (- imm)) as [[R B]|[R B]].
    + rewrite (emitted_append _ _ _ _ (ma_dsubu_small rd rs imm m Hrs R)).
      eexists. split; [reflexivity|]. rewrite gpr_set_same.
      rewrite base_or_zero_other, to_int16_small by assumption.
      unfold INT16_MIN, INT16_MAX in B.
      replace ((32769 <=? imm) && (imm <=? 65535)) with false.
      * unfold to_uint64. f_equal; lia.
      * symmetry. apply andb_false_iff. left. apply Z.leb_gt. lia.
    + destruct (ma_li_Imm32_any ScratchRegister imm s Hi) as (code & s1 & E & R1 & G & F).
      rewrite (emitted_append _ _ _ _ (ma_dsubu_large rd rs imm m code Hrs R E)).
      rewrite (run_app _ _ _ _ R1).
      eexists. split; [reflexivity|]. rewrite gpr_set_same.
      rewrite G, (unchanged_elsewhere _ _ _ _ F Hrs), to_uint64_sub_r.
      unfold INT16_MIN, INT16_MAX in B.
      replace (32769 <=? imm) with (32768 <=? imm); [reflexivity|].
      destruct (Z.leb_spec 32768 imm); destruct (Z.leb_spec 32769 imm);
        try reflexivity; lia.
  - intros ->.
    assert (A : ma_dsubu rd ScratchRegister imm m = Crashed m) by reflexivity.
    rewrite (emitted_Crashed_same _ _ A), A. split; reflexivity.
Qed.

Lemma ma_dsubu_subtracts_the_immediate_outside_one_range_witness :
  INT32_MIN <= 32768 <= INT32_MAX
  /\ r4 <> ScratchRegister
  /\ exists s',
       Machine.run (emitted (ma_dsubu r3 r4 32768) emptyMasm) (Machine.init 40000) = Some s'
       /\ Machine.gpr s' r3 = 7232.
Proof.
  assert (H : INT32_MIN <= 32768 <= INT32_MAX) by (split; discriminate).
  assert (H4 : r4 <> ScratchRegister) by discriminate.
  split; [exact H|]. split; [exact H4|].
  destruct (proj1 (ma_dsubu_subtracts_the_immediate_outside_one_range r3 r4 32768 emptyMasm
                     (Machine.init 40000) H) H4) as (s' & R & G).
  exists s'. split; [exact R|]. rewrite G. reflexivity.
Defined.

Lemma unsigned_range_cases (imm : Z) :
  (Imm16_IsInUnsignedRange imm = true /\ 0 <= imm <= 65535)
  \/ (Imm16_IsInUnsignedRange imm = false /\ (imm < 0 \/ 65535 < imm)).
Proof.
  unfold Imm16_IsInUnsignedRange.
  destruct (Z.leb_spec 0 imm); destruct (Z.leb_spec imm 65535); cbn [andb];
    [left|right|right|right]; split; try reflexivity; lia.
Qed.

Lemma to_uint16_small (v : Z) : 0 <= v <= 65535 -> to_uint16 v = v.
Proof. intros H. unfold to_uint16. apply Z.mod_small. lia. Qed.

Lemma to_uint64_small (v : Z) : 0 <= v < 2 ^ 64 -> to_uint64 v = v.
Proof. intros H. unfold to_uint64. now apply Z.mod_small. Qed.

(** X5: the logical operations with a 32-bit immediate are exact for
    every immediate: [ma_and], [ma_or] and [ma_xor] leave in [rd] the
    AND, OR and XOR of [rs] with the immediate sign-extended to a
    doubleword.  The immediates from 0 to 65535 go into the instruction,
    which zero-extends them; all the others are loaded with [ma_li],
    which loads those exactly, into the scratch register, so that [rs]
    must then not be the scratch register. *)
Theorem ma_and_ma_or_ma_xor_with_any_immediate :
  forall (rd rs : Register) (imm : Z) (m : MacroAssembler) (s : Machine.State),
    INT32_MIN <= imm <= INT32_MAX ->
    (Imm16_IsInUnsignedRange imm = false -> rs <> ScratchRegister) ->
    (exists s',
       Machine.run (emitted (ma_and_imm rd rs imm) m) s = Some s'
       /\ Machine.gpr s' rd = Z.land (Machine.gpr s rs) (to_uint64 imm))
    /\ (exists s',
          Machine.run (emitted (ma_or_imm rd rs imm) m) s = Some s'
          /\ Machine.gpr s' rd = Z.lor (Machine.gpr s rs) (to_uint64 imm))
    /\ (exists s',
          Machine.run (emitted (ma_xor_imm rd rs imm) m) s = Some s'
          /\ Machine.gpr s' rd = Z.lxor (Machine.gpr s rs) (to_uint64 imm)).
Proof.
  intros rd rs imm m s Hi Hrs.
  destruct (unsigned_range_cases imm) as [[R B]|[R B]].
  - assert (E16 : to_uint16 imm = imm) by (apply to_uint16_small; lia).
    assert (E64 : to_uint64 imm = imm) by (apply to_uint64_small; lia).
    rewrite E64. split; [|split].
    + rewrite (emitted_append _ m tt [I_andi_rc rd rs imm])
        by (unfold ma_and_imm; rewrite R; emit_steps; reflexivity).
      eexists. split; [reflexivity|].
      cbn [Machine.gpr Machine.set_gpr Machine.set_cr]. rewrite Z.eqb_refl.
      now rewrite E16.
    + rewrite (emitted_append _ m tt [I_ori rd rs imm])
        by (unfold ma_or_imm; rewrite R; emit_steps; reflexivity).
      eexists. split; [reflexivity|]. rewrite gpr_set_same. now rewrite E16.
    + rewrite (emitted_append _ m tt [I_xori rd rs imm])
        by (unfold ma_xor_imm; rewrite R; emit_steps; reflexivity).
      eexists. split; [reflexivity|]. rewrite gpr_set_same. now rewrite E16.
  - specialize (Hrs R).
    destruct (ma_li_Imm32_run ScratchRegister imm s Hi ltac:(lia))
      as (code & s1 & E & R1 & G & F).
    split; [|split].
    + rewrite (emitted_append _ m tt (code ++ [I_and rd rs ScratchRegister]))
        by (unfold ma_and_imm; rewrite R; unfold as_and;
            apply (then_one_more _ _ _ _ (E m))).
      rewrite (run_app _ _ _ _ R1). eexists. split; [reflexivity|].
      rewrite gpr_set_same. now rewrite G, (unchanged_elsewhere _ _ _ _ F Hrs).
    + rewrite (emitted_append _ m tt (code ++ [I_or rd rs ScratchRegister]))
        by (unfold ma_or_imm; rewrite R; unfold as_or;
            apply (then_one_more _ _ _ _ (E m))).
      rewrite (run_app _ _ _ _ R1). eexists. split; [reflexivity|].
      rewrite gpr_set_same. now rewrite G, (unchanged_elsewhere _ _ _ _ F Hrs).
    + rewrite (emitted_append _ m tt (code ++ [I_xor rd rs ScratchRegister]))
        by (unfold ma_xor_imm; rewrite R; unfold as_xor;
            apply (then_one_more _ _ _ _ (E m))).
      rewrite (run_app _ _ _ _ R1). eexists. split; [reflexivity|].
      rewrite gpr_set_same. now rewrite G, (unchanged_elsewhere _ _ _ _ F Hrs).
Qed.

Lemma ma_and_ma_or_ma_xor_with_any_immediate_witness :
  INT32_MIN <= -256 <= INT32_MAX
  /\ (Imm16_IsInUnsignedRange (-256) = false -> r4 <> ScratchRegister)
  /\ exists s',
       Machine.run (emitted (ma_and_imm r3 r4 (-256)) emptyMasm) (Machine.init 0x12345)
       = Some s'
       /\ Machine.gpr s' r3 = 0x12300.
Proof.
  assert (H : INT32_MIN <= -256 <= INT32_MAX) by (split; discriminate).
  assert (H4 : Imm16_IsInUnsignedRange (-256) = false -> r4 <> ScratchRegister)
    by (intros _; discriminate).
  split; [exact H|]. split; [exact H4|].
  destruct (ma_and_ma_or_ma_xor_with_any_immediate r3 r4 (-256) emptyMasm
              (Machine.init 0x12345) H H4) as [(s' & R & G) _].
  exists s'. split; [exact R|]. rewrite G. reflexivity.
Defined.

Lemma store_bytes_outside (n : nat) :
  forall (m : Z -> Z) (a v a' : Z),
    a' < a \/ a + Z.of_nat n <= a' ->
    Machine.store_bytes m a n v a' = m a'.
Proof.
  induction n as [|n IH]; intros m a v a' H; [reflexivity|].
  cbn [Machine.store_bytes]. rewrite IH by lia.
  now replace (a' =? a) with false by (symmetry; apply Z.eqb_neq; lia).
Qed.

Lemma load_bytes_ext (n : nat) :
  forall (m m' : Z -> Z) (a : Z),
    (forall k, a <= k < a + Z.of_nat n -> m k = m' k) ->
    Machine.load_bytes m a n = Machine.load_bytes m' a n.
Proof.
  induction n as [|n IH]; intros m m' a H; [reflexivity|].
  cbn [Machine.load_bytes]. rewrite (H a) by lia.
  rewrite (IH m m' (a + 1)); [reflexivity|]. intros k Hk. apply H. lia.
Qed.

(** What is stored is what is loaded back, as many bytes as were
    stored. *)
Lemma load_bytes_store_bytes (n : nat) :
  forall (m : Z -> Z) (a v : Z),
    Machine.load_bytes (Machine.store_bytes m a n v) a n = v mod 256 ^ Z.of_nat n.
Proof.
  induction n as [|n IH]; intros m a v.
  - cbn. now rewrite Z.mod_1_r.
  - cbn [Machine.load_bytes Machine.store_bytes].
    rewrite store_bytes_outside by lia. rewrite Z.eqb_refl.
    rewrite IH. rewrite Z.mod_mod by lia.
    rewrite Nat2Z.inj_succ, Z.pow_succ_r by lia.
    assert (P : 0 < 256 ^ Z.of_nat n) by (apply Z.pow_pos_nonneg; lia).
    rewrite Z.rem_mul_r by lia. reflexivity.
Qed.

Lemma load_bytes_range (n : nat) :
  forall (m : Z -> Z) (a : Z), 0 <= Machine.load_bytes m a n < 256 ^ Z.of_nat n.
Proof.
  induction n as [|n IH]; intros m a.
  - cbn. lia.
  - cbn [Machine.load_bytes]. rewrite Nat2Z.inj_succ, Z.pow_succ_r by lia.
    specialize (IH m (a + 1)).
    assert (B : 0 <= m a mod 256 < 256) by (apply Z.mod_pos_bound; lia).
    lia.
Qed.

Lemma size_bytes_pow (size : LoadStoreSize) :
  valid_size size = true -> 256 ^ Z.of_nat (size_bytes size) = 2 ^ size.
Proof.
  intros V. destruct (valid_size_cases size V) as [-> | [-> | [-> | ->]]]; reflexivity.
Qed.

Lemma run_store_instr (size : LoadStoreSize) (rs ra : Register) (d : Z) (s : Machine.State) :
  valid_size size = true ->
  Machine.run [store_instr size rs ra d] s = Some (Machine.store s rs ra d (size_bytes size)).
Proof.
  intros V. destruct (valid_size_cases size V) as [-> | [-> | [-> | ->]]]; reflexivity.
Qed.

Lemma run_load_instr (size : LoadStoreSize) (rt ra : Register) (d : Z) (s : Machine.State) :
  valid_size size = true ->
  Machine.run [load_instr size rt ra d] s = Some (Machine.load s rt ra d (size_bytes size)).
Proof.
  intros V. destruct (valid_size_cases size V) as [-> | [-> | [-> | ->]]]; reflexivity.
Qed.

(** The extension that follows a load, on a register that holds what a
    load of that size leaves. *)
Lemma run_sign_extension (size : LoadStoreSize) (extension : LoadStoreExtension)
      (r : Register) (s : Machine.State) :
  valid_size size = true ->
  0 <= Machine.gpr s r < 2 ^ size ->
  exists s',
    Machine.run (sign_extension size extension r) s = Some s'
    /\ Machine.gpr s' r
       = match extension with
         | ZeroExtend => Machine.gpr s r
         | SignExtend => to_uint64 (signed size (Machine.gpr s r))
         end.
Proof.
  intros V B. destruct extension.
  - exists s. split; reflexivity.
  - destruct (valid_size_cases size V) as [-> | [-> | [-> | ->]]];
      try (eexists; split; [reflexivity|]; now rewrite gpr_set_same).
    exists s. split; [reflexivity|].
    unfold to_uint64, signed, SizeDouble in *.
    rewrite (Z.mod_small (Machine.gpr s r)) by exact B.
    destruct (Z.ltb_spec (Machine.gpr s r) (2 ^ (64 - 1))).
    + symmetry. now apply Z.mod_small.
    + apply Z.mod_unique with (q := -1); lia.
Qed.

Lemma code_unique (c : M unit) (code code' : list Instr) :
  (forall m, c m = Done tt (appendInstrs m code)) ->
  (forall m, c m = Done tt (appendInstrs m code')) ->
  code = code'.
Proof.
  intros E E'. specialize (E emptyMasm). rewrite E' in E.
  unfold appendInstrs in E. cbn in E. now inversion E.
Qed.

(** Storing [size] bits of [data] and loading them back from a state
    that agrees on the address. *)
Lemma load_after_store (size : LoadStoreSize) (extension : LoadStoreExtension)
      (data dest ra ra' : Register) (d d' : Z) (s t : Machine.State) :
  valid_size size = true ->
  Machine.mem t = Machine.mem (Machine.store s data ra d (size_bytes size)) ->
  effective_address t ra' d' = effective_address s ra d ->
  exists s2,
    Machine.run (load_instr size dest ra' d' :: sign_extension size extension dest) t
    = Some s2
    /\ Machine.gpr s2 dest
       = match extension with
         | ZeroExtend => Machine.gpr s data mod 2 ^ size
         | SignExtend => to_uint64 (signed size (Machine.gpr s data))
         end.
Proof.
  intros V Hm Ha.
  assert (L : Machine.gpr (Machine.load t dest ra' d' (size_bytes size)) dest
              = Machine.gpr s data mod 2 ^ size).
  { unfold Machine.load. rewrite gpr_set_same, Hm.
    fold (effective_address t ra' d'). rewrite Ha.
    unfold Machine.store, effective_address. cbn [Machine.mem Machine.set_mem].
    rewrite load_bytes_store_bytes. now rewrite size_bytes_pow. }
  assert (P : 0 < 2 ^ size).
  { destruct (valid_size_cases size V) as [-> | [-> | [-> | ->]]]; reflexivity. }
  destruct (run_sign_extension size extension dest
              (Machine.load t dest ra' d' (size_bytes size)) V) as (s2 & R & G).
  { rewrite L. apply Z.mod_pos_bound. exact P. }
  exists s2. split.
  - change (load_instr size dest ra' d' :: sign_extension size extension dest)
      with ([load_instr size dest ra' d'] ++ sign_extension size extension dest).
    rewrite (run_app _ _ _ _ (run_load_instr size dest ra' d' t V)). exact R.
  - rewrite G, L. destruct extension; [reflexivity|].
    f_equal. apply signed_low_bits. apply Z.mod_mod. lia.
Qed.

Lemma mem_unchanged (d : Register) (s s' : Machine.State) :
  only_gpr_changed d s s' -> Machine.mem s' = Machine.mem s.
Proof. intros (_ & _ & _ & _ & _ & _ & _ & H). exact H. Qed.

(** The round trip in the form that goes through the second scratch
    register. *)
Lemma store_then_load_through_scratch
      (data dest : Register) (address : Address) (size : LoadStoreSize)
      (ext0 extension : LoadStoreExtension) (m m' : MacroAssembler) (s : Machine.State) :
  valid_size size = true ->
  INT32_MIN <= offset address <= INT32_MAX ->
  Imm16_IsInSignedRange (offset address) = false \/ base address = ScratchRegister ->
  base address <> SecondScratchReg -> data <> SecondScratchReg ->
  exists s1 s2,
    Machine.run (emitted (ma_store data address size ext0) m) s = Some s1
    /\ Machine.run (emitted (ma_load dest address size extension) m') s1 = Some s2
    /\ Machine.gpr s2 dest
       = match extension with
         | ZeroExtend => Machine.gpr s data mod 2 ^ size
         | SignExtend => to_uint64 (signed size (Machine.gpr s data))
         end.
Proof.
  intros V Hi Hs Hbase Hdata.
  destruct (ma_li_Imm32_any SecondScratchReg (offset address) s Hi)
    as (code & sa & E & Ra & Ga & Fa).
  rewrite (emitted_append _ _ _ _
             (ma_store_scratch data address size ext0 m code V Hs Hbase E)).
  rewrite (emitted_append _ _ _ _
             (ma_load_scratch dest address size extension m' code V Hs Hbase E)).
  rewrite (run_app _ _ _ _ Ra).
  change (Machine.run [I_add SecondScratchReg (base address) SecondScratchReg;
                       store_instr size data SecondScratchReg 0] sa)
    with (Machine.run [store_instr size data SecondScratchReg 0]
            (Machine.set_gpr sa SecondScratchReg
               (to_uint64 (Machine.gpr sa (base address)
                           + Machine.gpr sa SecondScratchReg)))).
  rewrite run_store_instr by exact V.
  set (sb := Machine.set_gpr sa SecondScratchReg
               (to_uint64 (Machine.gpr sa (base address)
                           + Machine.gpr sa SecondScratchReg))).
  set (s1 := Machine.store sb data SecondScratchReg 0 (size_bytes size)).
  destruct (ma_li_Imm32_any SecondScratchReg (offset address) s1 Hi)
    as (code' & sc & E' & Rc & Gc & Fc).
  rewrite (code_unique _ _ _ E' E) in Rc.
  exists s1.
  rewrite (run_app _ _ _ _ Rc).
  change (Machine.run ([I_add SecondScratchReg (base address) SecondScratchReg;
                        load_instr size dest SecondScratchReg 0]
                       ++ sign_extension size extension dest) sc)
    with (Machine.run (load_instr size dest SecondScratchReg 0
                       :: sign_extension size extension dest)
            (Machine.set_gpr sc SecondScratchReg
               (to_uint64 (Machine.gpr sc (base address)
                           + Machine.gpr sc SecondScratchReg)))).
  destruct (load_after_store size extension data dest SecondScratchReg SecondScratchReg
              0 0 sb
              (Machine.set_gpr sc SecondScratchReg
                 (to_uint64 (Machine.gpr sc (base address)
                             + Machine.gpr sc SecondScratchReg))) V)
    as (s2 & R2 & G2).
  - cbn [Machine.mem Machine.set_gpr]. exact (mem_unchanged _ _ _ Fc).
  - unfold effective_address, Machine.base_or_zero.
    change (SecondScratchReg =? 0) with false. cbv beta iota.
    unfold sb. rewrite !gpr_set_same. do 2 f_equal.
    rewrite Gc, Ga, (unchanged_elsewhere _ _ _ _ Fc Hbase).
    unfold s1, Machine.store, sb. cbn [Machine.gpr Machine.set_mem].
    rewrite gpr_set_other by exact Hbase. reflexivity.
  - exists s2. split; [reflexivity|]. split; [exact R2|].
    rewrite G2. unfold sb. rewrite gpr_set_other by exact Hdata.
    now rewrite (unchanged_elsewhere _ _ _ _ Fa Hdata).
Qed.

(** X15: what [ma_store] stores, [ma_load] loads back.  For each of the
    four sizes and for every 32-bit offset, running the words of
    [ma_store] and then, from the state they leave, the words of
    [ma_load] for the same address leaves in the destination the low
    [size] bits of the data register, zero-extended or sign-extended as
    the load asks.  This holds in the direct form and in the form that
    goes through the second scratch register, where the base and the
    data must not be that register; it holds there also for the offsets
    that [ma_li] loads sign-extended, since both sides form the same
    address. *)
Theorem ma_store_then_ma_load_gives_the_data_back :
  forall (data dest : Register) (address : Address) (size : LoadStoreSize)
         (ext0 extension : LoadStoreExtension) (m m' : MacroAssembler)
         (s : Machine.State),
    valid_size size = true ->
    INT32_MIN <= offset address <= INT32_MAX ->
    (Imm16_IsInSignedRange (offset address) = false \/ base address = ScratchRegister ->
       base address <> SecondScratchReg /\ data <> SecondScratchReg) ->
    exists s1 s2,
      Machine.run (emitted (ma_store data address size ext0) m) s = Some s1
      /\ Machine.run (emitted (ma_load dest address size extension) m') s1 = Some s2
      /\ Machine.gpr s2 dest
         = match extension with
           | ZeroExtend => Machine.gpr s data mod 2 ^ size
           | SignExtend => to_uint64 (signed size (Machine.gpr s data))
           end.
Proof.
  intros data dest address size ext0 extension m m' s V Hi Hscratch.
  destruct (Imm16_IsInSignedRange (offset address)) eqn:R.
  - destruct (Z.eq_dec (base address) ScratchRegister) as [Hb|Hb].
    + destruct (Hscratch (or_intror Hb)) as [Hbase Hdata].
      apply store_then_load_through_scratch; auto.
    + (* the direct form *)
      rewrite (emitted_append _ _ _ _ (ma_store_direct data address size ext0 m V R Hb)).
      rewrite (emitted_append _ _ _ _ (ma_load_direct dest address size extension m' V R Hb)).
      rewrite run_store_instr by exact V.
      destruct (load_after_store size extension data dest (base address) (base address)
                  (offset address) (offset address) s
                  (Machine.store s data (base address) (offset address) (size_bytes size))
                  V eq_refl eq_refl) as (s2 & R2 & G2).
      eexists. exists s2. split; [reflexivity|]. split; [exact R2|exact G2].
  - destruct (Hscratch (or_introl eq_refl)) as [Hbase Hdata].
    apply store_then_load_through_scratch; auto.
Qed.

Lemma ma_store_then_ma_load_gives_the_data_back_witness :
  valid_size SizeHalfWord = true
  /\ INT32_MIN <= offset (mkAddress r4 40000) <= INT32_MAX
  /\ (Imm16_IsInSignedRange (offset (mkAddress r4 40000)) = false
      \/ base (mkAddress r4 40000) = ScratchRegister ->
      base (mkAddress r4 40000) <> SecondScratchReg /\ r3 <> SecondScratchReg)
  /\ exists s1 s2,
       Machine.run (emitted (ma_store r3 (mkAddress r4 40000) SizeHalfWord ZeroExtend)
                      emptyMasm) (with_operands r3 r4 0x1234ABCD 0x100000) = Some s1
       /\ Machine.run (emitted (ma_load r5 (mkAddress r4 40000) SizeHalfWord SignExtend)
                         emptyMasm) s1 = Some s2
       /\ Machine.gpr s2 r5 = 0xFFFFFFFFFFFFABCD.
Proof.
  assert (H1 : valid_size SizeHalfWord = true) by reflexivity.
  assert (H2 : INT32_MIN <= offset (mkAddress r4 40000) <= INT32_MAX)
    by (split; discriminate).
  assert (H3 : Imm16_IsInSignedRange (offset (mkAddress r4 40000)) = false
               \/ base (mkAddress r4 40000) = ScratchRegister ->
               base (mkAddress r4 40000) <> SecondScratchReg /\ r3 <> SecondScratchReg)
    by (intros _; split; discriminate).
  split; [exact H1|]. split; [exact H2|]. split; [exact H3|].
  destruct (ma_store_then_ma_load_gives_the_data_back r3 r5 (mkAddress r4 40000)
              SizeHalfWord ZeroExtend SignExtend emptyMasm emptyMasm
              (with_operands r3 r4 0x1234ABCD 0x100000) H1 H2 H3)
    as (s1 & s2 & R1 & R2 & G).
  exists s1, s2. split; [exact R1|]. split; [exact R2|]. rewrite G. reflexivity.
Defined.

(** Two emissions in a row write the words of the first and then the
    words of the second. *)
Lemma seq_emits {A : Type} (c1 : M unit) (c2 : M A) (a : A) (code1 code2 : list Instr) :
  (forall m, c1 m = Done tt (appendInstrs m code1)) ->
  (forall m, c2 m = Done a (appendInstrs m code2)) ->
  forall m, (c1 ;; c2) m = Done a (appendInstrs m (code1 ++ code2)).
Proof.
  intros E1 E2 m. unfold bindM. rewrite E1, E2. now rewrite appendInstrs_app.
Qed.

(** Whatever the value, the words of [ma_li] run to the end and change
    the destination only. *)
Lemma ma_li_frame (dest : Register) (value : Z) (s : Machine.State) :
  exists code s',
    (forall m, ma_li dest value m = Done tt (appendInstrs m code))
    /\ Machine.run code s = Some s'
    /\ only_gpr_changed dest s s'.
Proof.
  unfold ma_li.
  repeat (emit_steps;
          match goal with
          | |- context [if ?b then _ else _] => destruct b
          end);
    emit_steps;
    first [ eexists; eexists; split;
            [ intros m; unfold appendInstrs; flatten_buffer; reflexivity
            | split; [reflexivity|];
              repeat apply only_gpr_changed_set; apply only_gpr_changed_refl ]
          | exists [], s; split;
            [ intros m; now rewrite appendInstrs_nil
            | split; [reflexivity|apply only_gpr_changed_refl] ] ].
Qed.

Lemma to_uint64_to_int64 (v : Z) : to_uint64 (to_int64 v) = to_uint64 v.
Proof.
  unfold to_uint64, to_int64, signed.
  destruct (v mod 2 ^ 64 <? 2 ^ (64 - 1)).
  - apply Z.mod_mod. lia.
  - replace (v mod 2 ^ 64 - 2 ^ 64) with (v mod 2 ^ 64 + (-1) * 2 ^ 64) by lia.
    rewrite Z.mod_add by lia. apply Z.mod_mod. lia.
Qed.

Lemma to_int64_range (v : Z) : INT64_MIN <= to_int64 v <= INT64_MAX.
Proof.
  unfold to_int64, signed, INT64_MIN, INT64_MAX.
  assert (B : 0 <= v mod 2 ^ 64 < 2 ^ 64) by (apply Z.mod_pos_bound; lia).
  change (2 ^ (64 - 1)) with (2 ^ 63).
  destruct (Z.ltb_spec (v mod 2 ^ 64) (2 ^ 63)); lia.
Qed.

(** The address that [movePtr(ImmPtr)] leaves in the register, where
    [ma_li] loads it as it is. *)
Lemma movePtr_ImmPtr_run (address : Z) (dest : Register) (s : Machine.State) :
  0 <= address < 2 ^ 64 ->
  ma_li_misloads (to_int64 address) = false ->
  exists code s',
    (forall m, movePtr_ImmPtr address dest m = Done tt (appendInstrs m code))
    /\ Machine.run code s = Some s'
    /\ Machine.gpr s' dest = address
    /\ only_gpr_changed dest s s'.
Proof.
  intros Ha Hok. unfold movePtr_ImmPtr, movePtr_ImmWord, ma_li_ImmWord.
  rewrite !(to_uint64_small address) by exact Ha.
  destruct (ma_li_run dest (to_int64 address) s (to_int64_range address) Hok)
    as (code & s' & E & R & G & F).
  exists code, s'. split; [exact E|]. split; [exact R|]. split; [|exact F].
  rewrite G, to_uint64_to_int64. now apply to_uint64_small.
Qed.

Lemma storePtr_r0_emits (src : Register) (m : MacroAssembler) :
  storePtr src (mkAddress ScratchRegister 0) m
  = Done tt (appendInstrs m [I_li SecondScratchReg 0;
                             I_add SecondScratchReg ScratchRegister SecondScratchReg;
                             I_std src SecondScratchReg 0]).
Proof.
  unfold storePtr.
  rewrite (ma_store_scratch src (mkAddress ScratchRegister 0) SizeDouble SignExtend m
             [I_li SecondScratchReg 0]); try reflexivity.
  - right. reflexivity.
  - discriminate.
Qed.

Lemma loadPtr_r0_emits (dest : Register) (m : MacroAssembler) :
  loadPtr (mkAddress ScratchRegister 0) dest m
  = Done tt (appendInstrs m [I_li SecondScratchReg 0;
                             I_add SecondScratchReg ScratchRegister SecondScratchReg;
                             I_ld dest SecondScratchReg 0]).
Proof.
  unfold loadPtr.
  rewrite (ma_load_scratch dest (mkAddress ScratchRegister 0) SizeDouble SignExtend m
             [I_li SecondScratchReg 0]); try reflexivity.
  - right. reflexivity.
  - discriminate.
Qed.

(** X16: [storePtr] and [loadPtr] through an absolute address reach
    that address, although the base register they hand to [ma_store] and
    [ma_load] is r0, which a load or store would read as the value 0:
    the address goes through the second scratch register.  For every
    address that [ma_li] loads as it is, the words of [storePtr] leave
    the doubleword of [src] in the eight bytes at the address and change
    no other byte, and the words of [loadPtr], run next, bring it back. *)
Theorem storePtr_then_loadPtr_through_an_absolute_address :
  forall (src dest : Register) (address : Z) (m m' : MacroAssembler) (s : Machine.State),
    0 <= address < 2 ^ 64 ->
    ma_li_misloads (to_int64 address) = false ->
    src <> ScratchRegister -> src <> SecondScratchReg ->
    exists s1 s2,
      Machine.run (emitted (storePtr_AbsoluteAddress src address) m) s = Some s1
      /\ Machine.load_bytes (Machine.mem s1) address 8 = Machine.gpr s src mod 2 ^ 64
      /\ (forall a, a < address \/ address + 8 <= a -> Machine.mem s1 a = Machine.mem s a)
      /\ Machine.run (emitted (loadPtr_AbsoluteAddress address dest) m') s1 = Some s2
      /\ Machine.gpr s2 dest = Machine.gpr s src mod 2 ^ 64.
Proof.
  intros src dest address m m' s Ha Hok Hs0 Hs12.
  destruct (movePtr_ImmPtr_run address ScratchRegister s Ha Hok)
    as (code & sa & E & Ra & Ga & Fa).
  unfold storePtr_AbsoluteAddress, loadPtr_AbsoluteAddress.
  rewrite (emitted_append _ _ _ _
             (seq_emits _ _ tt _ _ E (storePtr_r0_emits src) m)).
  rewrite (emitted_append _ _ _ _
             (seq_emits _ _ tt _ _ E (loadPtr_r0_emits dest) m')).
  rewrite (run_app _ _ _ _ Ra).
  set (sb := Machine.set_gpr
               (Machine.set_gpr sa SecondScratchReg (to_uint64 (to_int16 0)))
               SecondScratchReg
               (to_uint64 (Machine.gpr sa ScratchRegister + to_uint64 (to_int16 0)))).
  set (s1 := Machine.store sb src SecondScratchReg 0 8).
  assert (EA : forall v, to_uint64 (to_uint64 (address + to_uint64 (to_int16 0))
                                    + to_int16 v * 0) = address).
  { intros v. change (to_uint64 (to_int16 0)) with 0.
    rewrite Z.mul_0_r, !Z.add_0_r. rewrite !(to_uint64_small address) by exact Ha.
    reflexivity. }
  specialize (EA 0). rewrite Z.mul_0_r in EA.
  assert (M1 : Machine.mem s1
               = Machine.store_bytes (Machine.mem s) address 8 (Machine.gpr s src)).
  { unfold s1, Machine.store. cbn [Machine.mem Machine.set_mem].
    unfold Machine.base_or_zero. change (SecondScratchReg =? 0) with false. cbv beta iota.
    unfold sb. rewrite gpr_set_same, !gpr_set_other by exact Hs12.
    cbn [Machine.mem Machine.set_gpr].
    rewrite (mem_unchanged _ _ _ Fa), Ga, (unchanged_elsewhere _ _ _ _ Fa Hs0).
    change (to_int16 0) with 0 at 2. rewrite EA. reflexivity. }
  destruct (movePtr_ImmPtr_run address ScratchRegister s1 Ha Hok)
    as (code' & sc & E' & Rc & Gc & Fc).
  rewrite (code_unique _ _ _ E' E) in Rc.
  exists s1.
  rewrite (run_app _ _ _ _ Rc).
  exists (Machine.load
            (Machine.set_gpr
               (Machine.set_gpr sc SecondScratchReg (to_uint64 (to_int16 0)))
               SecondScratchReg
               (to_uint64 (Machine.gpr sc ScratchRegister + to_uint64 (to_int16 0))))
            dest SecondScratchReg 0 8).
  split; [reflexivity|]. split; [|split; [|split; [reflexivity|]]].
  - rewrite M1. now rewrite load_bytes_store_bytes.
  - intros a Hout. rewrite M1. apply store_bytes_outside. cbn. lia.
  - unfold Machine.load. rewrite gpr_set_same.
    unfold Machine.base_or_zero. change (SecondScratchReg =? 0) with false. cbv beta iota.
    rewrite gpr_set_same. cbn [Machine.mem Machine.set_gpr].
    rewrite (mem_unchanged _ _ _ Fc), Gc.
    change (to_int16 0) with 0 at 2. rewrite EA.
    rewrite M1. now rewrite load_bytes_store_bytes.
Qed.

Lemma storePtr_then_loadPtr_through_an_absolute_address_witness :
  0 <= 0x7FFF12345678 < 2 ^ 64
  /\ ma_li_misloads (to_int64 0x7FFF12345678) = false
  /\ r3 <> ScratchRegister /\ r3 <> SecondScratchReg
  /\ exists s1 s2,
       Machine.run (emitted (storePtr_AbsoluteAddress r3 0x7FFF12345678) emptyMasm)
                   (Machine.init 0xCAFE) = Some s1
       /\ Machine.run (emitted (loadPtr_AbsoluteAddress 0x7FFF12345678 r4) emptyMasm) s1
          = Some s2
       /\ Machine.gpr s2 r4 = 0xCAFE.
Proof.
  assert (H1 : 0 <= 0x7FFF12345678 < 2 ^ 64) by (split; [discriminate|reflexivity]).
  assert (H2 : ma_li_misloads (to_int64 0x7FFF12345678) = false) by reflexivity.
  assert (H3 : r3 <> ScratchRegister) by discriminate.
  assert (H4 : r3 <> SecondScratchReg) by discriminate.
  split; [exact H1|]. split; [exact H2|]. split; [exact H3|]. split; [exact H4|].
  destruct (storePtr_then_loadPtr_through_an_absolute_address r3 r4 0x7FFF12345678
              emptyMasm emptyMasm (Machine.init 0xCAFE) H1 H2 H3 H4)
    as (s1 & s2 & R1 & _ & _ & R2 & G).
  exists s1, s2. split; [exact R1|]. split; [exact R2|]. rewrite G. reflexivity.
Defined.

(** X17: [inc64] hands the scratch register r0, which holds the
    address, to ld and std as their base, and a base of r0 is read as the
    value 0: whatever the address, the doubleword that the words of
    [inc64] increment is the one in the eight bytes at address 0, and no
    other byte of memory changes. *)
Theorem inc64_increments_the_doubleword_at_address_0 :
  forall (address : Z) (m : MacroAssembler) (s : Machine.State),
    exists s',
      Machine.run (emitted (inc64 address) m) s = Some s'
      /\ Machine.load_bytes (Machine.mem s') 0 8
         = (Machine.load_bytes (Machine.mem s) 0 8 + 1) mod 2 ^ 64
      /\ forall a, a < 0 \/ 8 <= a -> Machine.mem s' a = Machine.mem s a.
Proof.
  intros address m s.
  destruct (ma_li_frame ScratchRegister (to_int64 (to_uint64 (to_uint64 address))) s)
    as (code & sa & E & Ra & Fa).
  assert (Em : inc64 address m
               = Done tt (appendInstrs m
                            (code ++ [I_ld SecondScratchReg ScratchRegister 0;
                                      I_addi SecondScratchReg SecondScratchReg 1;
                                      I_std SecondScratchReg ScratchRegister 0]))).
  { unfold inc64, ma_li_ImmWord.
    apply (seq_emits _ _ tt _ _ E). intros m0. emit_steps. flatten_buffer. reflexivity. }
  rewrite (emitted_append _ _ _ _ Em), (run_app _ _ _ _ Ra).
  eexists. split; [reflexivity|].
  unfold Machine.store, Machine.load, Machine.base_or_zero.
  change (ScratchRegister =? 0) with true. change (SecondScratchReg =? 0) with false.
  cbv beta iota. cbn [Machine.mem Machine.set_mem Machine.set_gpr].
  change (to_uint64 (0 + to_int16 0)) with 0.
  rewrite !gpr_set_same. rewrite (mem_unchanged _ _ _ Fa).
  split.
  - rewrite load_bytes_store_bytes. change (256 ^ Z.of_nat 8) with (2 ^ 64).
    change (to_int16 1) with 1. unfold to_uint64. apply Z.mod_mod. lia.
  - intros a Hout. apply store_bytes_outside. cbn. lia.
Qed.

Lemma pushValue_emits (addr : Address) (m : MacroAssembler) :
  Imm16_IsInSignedRange (offset addr) = true ->
  base addr <> ScratchRegister ->
  pushValue addr m
  = Done tt (appendInstrs m [I_ld ScratchRegister (base addr) (offset addr);
                             I_addi StackPointer StackPointer (- sizeof_Value);
                             I_std ScratchRegister StackPointer 0]).
Proof.
  intros R Hb. unfold pushValue.
  change [I_ld ScratchRegister (base addr) (offset addr);
          I_addi StackPointer StackPointer (- sizeof_Value);
          I_std ScratchRegister StackPointer 0]
    with ([I_ld ScratchRegister (base addr) (offset addr)]
          ++ [I_addi StackPointer StackPointer (- sizeof_Value)]
          ++ [I_std ScratchRegister StackPointer 0]).
  apply seq_emits; [|apply seq_emits].
  - intros m0. unfold loadPtr.
    now rewrite (ma_load_direct ScratchRegister (mkAddress (base addr) (offset addr))
                   SizeDouble SignExtend m0 eq_refl R Hb).
  - intros m0. now rewrite (ma_dsubu_small StackPointer StackPointer sizeof_Value m0).
  - intros m0. unfold storePtr.
    now rewrite (ma_store_direct ScratchRegister (mkAddress StackPointer 0)
                   SizeDouble SignExtend m0).
Qed.

(** X18: [pushValue] of the value at an address followed by [popValue]
    brings the doubleword at that address into the register and leaves
    the stack pointer where it was; in between, the stack pointer is
    eight bytes lower and the doubleword lies at the new top of the
    stack.  The base of the address may be the stack pointer itself. *)
Theorem pushValue_then_popValue_moves_the_value :
  forall (addr : Address) (val : Register) (m m' : MacroAssembler) (s : Machine.State),
    Imm16_IsInSignedRange (offset addr) = true ->
    base addr <> ScratchRegister ->
    val <> StackPointer ->
    0 <= Machine.gpr s StackPointer < 2 ^ 64 ->
    exists s1 s2,
      Machine.run (emitted (pushValue addr) m) s = Some s1
      /\ Machine.gpr s1 StackPointer = (Machine.gpr s StackPointer - 8) mod 2 ^ 64
      /\ Machine.load_bytes (Machine.mem s1) (Machine.gpr s1 StackPointer) 8
         = Machine.load_bytes (Machine.mem s)
             ((Machine.gpr s (base addr) + offset addr) mod 2 ^ 64) 8
      /\ Machine.run (emitted (popValue val) m') s1 = Some s2
      /\ Machine.gpr s2 val
         = Machine.load_bytes (Machine.mem s)
             ((Machine.gpr s (base addr) + offset addr) mod 2 ^ 64) 8
      /\ Machine.gpr s2 StackPointer = Machine.gpr s StackPointer.
Proof.
  intros addr val m m' s R Hb Hv Hsp.
  rewrite (emitted_append _ _ _ _ (pushValue_emits addr m R Hb)).
  rewrite (emitted_append _ m' tt [I_ld val StackPointer 0;
                                   I_addi StackPointer StackPointer sizeof_Value])
    by (unfold popValue; emit_steps; flatten_buffer; reflexivity).
  set (V := Machine.load_bytes (Machine.mem s)
              ((Machine.gpr s (base addr) + offset addr) mod 2 ^ 64) 8).
  set (sp' := (Machine.gpr s StackPointer - 8) mod 2 ^ 64).
  assert (HV : 0 <= V < 2 ^ 64) by apply (load_bytes_range 8).
  assert (Hsp' : 0 <= sp' < 2 ^ 64) by (apply Z.mod_pos_bound; lia).
  assert (Hoff : to_int16 (offset addr) = offset addr).
  { apply to_int16_small. unfold Imm16_IsInSignedRange in R.
    apply andb_true_iff in R. rewrite !Z.leb_le in R. exact R. }
  set (sa := Machine.load s ScratchRegister (base addr) (offset addr) 8).
  set (sb := Machine.set_gpr sa StackPointer
               (to_uint64 (Machine.base_or_zero sa StackPointer
                           + to_int16 (- sizeof_Value)))).
  set (s1 := Machine.store sb ScratchRegister StackPointer 0 8).
  set (sc := Machine.load s1 val StackPointer 0 8).
  set (s2 := Machine.set_gpr sc StackPointer
               (to_uint64 (Machine.base_or_zero sc StackPointer + to_int16 sizeof_Value))).
  exists s1, s2.
  assert (A0 : Machine.gpr sa ScratchRegister = V).
  { unfold sa, Machine.load. rewrite gpr_set_same.
    rewrite base_or_zero_other by exact Hb. now rewrite Hoff. }
  assert (B0 : Machine.gpr sb ScratchRegister = V).
  { unfold sb. rewrite gpr_set_other by discriminate. exact A0. }
  assert (Bsp : Machine.gpr sb StackPointer = sp').
  { unfold sb. rewrite gpr_set_same. rewrite base_or_zero_other by discriminate.
    unfold sa, Machine.load. rewrite gpr_set_other by discriminate. reflexivity. }
  assert (M1 : Machine.mem s1 = Machine.store_bytes (Machine.mem s) sp' 8 V).
  { unfold s1, Machine.store. cbn [Machine.mem Machine.set_mem].
    rewrite base_or_zero_other by discriminate.
    rewrite Bsp, B0. change (to_int16 0) with 0. rewrite Z.add_0_r.
    rewrite (to_uint64_small sp') by exact Hsp'. reflexivity. }
  assert (Ssp : Machine.gpr s1 StackPointer = sp') by exact Bsp.
  assert (Cval : Machine.gpr sc val = V).
  { unfold sc, Machine.load. rewrite gpr_set_same.
    rewrite base_or_zero_other by discriminate.
    rewrite Ssp. change (to_int16 0) with 0. rewrite Z.add_0_r.
    rewrite (to_uint64_small sp') by exact Hsp'.
    rewrite M1, load_bytes_store_bytes. change (256 ^ Z.of_nat 8) with (2 ^ 64).
    apply Z.mod_small. exact HV. }
  assert (Csp : Machine.gpr sc StackPointer = sp').
  { unfold sc, Machine.load. rewrite gpr_set_other by congruence. exact Ssp. }
  split; [reflexivity|]. split; [exact Ssp|]. split.
  { rewrite Ssp, M1, load_bytes_store_bytes. change (256 ^ Z.of_nat 8) with (2 ^ 64).
    apply Z.mod_small. exact HV. }
  split; [reflexivity|]. split.
  - unfold s2. rewrite gpr_set_other by exact Hv. exact Cval.
  - unfold s2. rewrite gpr_set_same. rewrite base_or_zero_other by discriminate.
    rewrite Csp. unfold sp'. change (to_int16 sizeof_Value) with 8.
    fold (to_uint64 (Machine.gpr s StackPointer - 8)).
    rewrite to_uint64_add_l.
    replace (Machine.gpr s StackPointer - 8 + 8) with (Machine.gpr s StackPointer) by lia.
    now apply to_uint64_small.
Qed.

Lemma pushValue_then_popValue_moves_the_value_witness :
  Imm16_IsInSignedRange (offset (mkAddress StackPointer 16)) = true
  /\ base (mkAddress StackPointer 16) <> ScratchRegister
  /\ r3 <> StackPointer
  /\ 0 <= Machine.gpr (Machine.init 0x1000) StackPointer < 2 ^ 64
  /\ exists s1 s2,
       Machine.run (emitted (pushValue (mkAddress StackPointer 16)) emptyMasm)
                   (Machine.init 0x1000) = Some s1
       /\ Machine.gpr s1 StackPointer = 0xFF8
       /\ Machine.run (emitted (popValue r3) emptyMasm) s1 = Some s2
       /\ Machine.gpr s2 StackPointer = 0x1000.
Proof.
  assert (H1 : Imm16_IsInSignedRange (offset (mkAddress StackPointer 16)) = true)
    by reflexivity.
  assert (H2 : base (mkAddress StackPointer 16) <> ScratchRegister) by discriminate.
  assert (H3 : r3 <> StackPointer) by discriminate.
  assert (H4 : 0 <= Machine.gpr (Machine.init 0x1000) StackPointer < 2 ^ 64)
    by (cbn; lia).
  split; [exact H1|]. split; [exact H2|]. split; [exact H3|]. split; [exact H4|].
  destruct (pushValue_then_popValue_moves_the_value (mkAddress StackPointer 16) r3
              emptyMasm emptyMasm (Machine.init 0x1000) H1 H2 H3 H4)
    as (s1 & s2 & R1 & G1 & _ & R2 & _ & G2).
  exists s1, s2. split; [exact R1|]. split; [rewrite G1; reflexivity|].
  split; [exact R2|]. rewrite G2. reflexivity.
Defined.

Lemma computeScaledAddress_run (address : BaseIndex) (dest : Register) (s : Machine.State) :
  bi_base address <> ScratchRegister ->
  exists code s',
    (forall m, computeScaledAddress address dest m = Done tt (appendInstrs m code))
    /\ Machine.run code s = Some s'
    /\ Machine.gpr s' dest
       = to_uint64 (Machine.gpr s (bi_base address)
                    + Machine.gpr s (bi_index address) * 2 ^ ShiftOf (bi_scale address))
    /\ (forall r, r <> dest -> r <> ScratchRegister -> Machine.gpr s' r = Machine.gpr s r)
    /\ Machine.mem s' = Machine.mem s.
Proof.
  destruct address as [b i sc off]. cbn [bi_base bi_index bi_scale]. intros Hb.
  unfold computeScaledAddress. cbn [bi_base bi_index bi_scale].
  destruct sc; cbn [ShiftOf Z.eqb negb Pos.eqb].
  - exists [I_add dest b i]. eexists. split; [intros m; emit_steps; reflexivity|].
    split; [reflexivity|]. split; [|split].
    + rewrite gpr_set_same. change (2 ^ 0) with 1. now rewrite Z.mul_1_r.
    + intros r Hr _. now rewrite gpr_set_other.
    + reflexivity.
  - exists [I_rldicr ScratchRegister i 1 (63 - 1); I_add dest b ScratchRegister].
    eexists. split.
    { intros m. decide_tests. unfold ma_dsll. decide_tests. emit_steps. flatten_buffer.
      reflexivity. }
    split; [reflexivity|]. split; [|split].
    + rewrite gpr_set_same, gpr_set_same, gpr_set_other by exact Hb.
      rewrite sldi_shifts_left, Z.shiftl_mul_pow2 by lia. apply to_uint64_add_r.
    + intros r Hr H0. now rewrite !gpr_set_other.
    + reflexivity.
  - exists [I_rldicr ScratchRegister i 2 (63 - 2); I_add dest b ScratchRegister].
    eexists. split.
    { intros m. decide_tests. unfold ma_dsll. decide_tests. emit_steps. flatten_buffer.
      reflexivity. }
    split; [reflexivity|]. split; [|split].
    + rewrite gpr_set_same, gpr_set_same, gpr_set_other by exact Hb.
      rewrite sldi_shifts_left, Z.shiftl_mul_pow2 by lia. apply to_uint64_add_r.
    + intros r Hr H0. now rewrite !gpr_set_other.
    + reflexivity.
  - exists [I_rldicr ScratchRegister i 3 (63 - 3); I_add dest b ScratchRegister].
    eexists. split.
    { intros m. decide_tests. unfold ma_dsll. decide_tests. emit_steps. flatten_buffer.
      reflexivity. }
    split; [reflexivity|]. split; [|split].
    + rewrite gpr_set_same, gpr_set_same, gpr_set_other by exact Hb.
      rewrite sldi_shifts_left, Z.shiftl_mul_pow2 by lia. apply to_uint64_add_r.
    + intros r Hr H0. now rewrite !gpr_set_other.
    + reflexivity.
Qed.

(** The words that [ma_store] to a base and an index writes ahead of
    the store when the offset fits a signed byte: the scaled index, left
    in the second scratch register. *)
Lemma ma_store_BaseIndex_small (data : Register) (dest : BaseIndex) (size : LoadStoreSize)
      (extension : LoadStoreExtension) (s : Machine.State) :
  valid_size size = true ->
  Imm8_IsInSignedRange (bi_offset dest) = true ->
  bi_base dest <> SecondScratchReg ->
  exists pre s',
    (forall m, ma_store_BaseIndex data dest size extension m
               = Done tt (appendInstrs m (pre ++ [store_instr size data (bi_base dest)
                                                    (bi_offset dest)])))
    /\ Machine.run pre s = Some s'
    /\ only_gpr_changed SecondScratchReg s s'.
Proof.
  destruct dest as [b i sc off]. cbn [bi_base bi_index bi_scale bi_offset].
  intros V R Hb. unfold ma_store_BaseIndex. cbn [bi_base bi_index bi_scale bi_offset].
  rewrite R.
  replace (SecondScratchReg =? b) with false by (symmetry; apply Z.eqb_neq; congruence).
  destruct sc; cbn [Scale_eqb negb ShiftOf].
  - exists [], s. split; [|split; [reflexivity|apply only_gpr_changed_refl]].
    intros m.
    destruct (valid_size_cases size V) as [-> | [-> | [-> | ->]]];
      size_steps; emit_steps; reflexivity.
  - exists [I_rldicr SecondScratchReg i 1 (63 - 1)]. eexists.
    split; [|split; [reflexivity|apply only_gpr_changed_set, only_gpr_changed_refl]].
    intros m. unfold ma_dsll. decide_tests.
    destruct (valid_size_cases size V) as [-> | [-> | [-> | ->]]];
      size_steps; emit_steps; flatten_buffer; reflexivity.
  - exists [I_rldicr SecondScratchReg i 2 (63 - 2)]. eexists.
    split; [|split; [reflexivity|apply only_gpr_changed_set, only_gpr_changed_refl]].
    intros m. unfold ma_dsll. decide_tests.
    destruct (valid_size_cases size V) as [-> | [-> | [-> | ->]]];
      size_steps; emit_steps; flatten_buffer; reflexivity.
  - exists [I_rldicr SecondScratchReg i 3 (63 - 3)]. eexists.
    split; [|split; [reflexivity|apply only_gpr_changed_set, only_gpr_changed_refl]].
    intros m. unfold ma_dsll. decide_tests.
    destruct (valid_size_cases size V) as [-> | [-> | [-> | ->]]];
      size_steps; emit_steps; flatten_buffer; reflexivity.
Qed.

(** X19: [ma_store] to a base and an index uses the index only when the
    offset does not fit a signed byte.  With an offset from -128 to 127
    the store that it writes addresses base plus offset: the scaled index
    is computed into the second scratch register and then left unused.
    With any other 16-bit offset the bytes go to base plus scaled index
    plus offset. *)
Theorem ma_store_BaseIndex_uses_the_index_only_with_a_large_offset :
  forall (data : Register) (dest : BaseIndex) (size : LoadStoreSize)
         (extension : LoadStoreExtension) (m : MacroAssembler) (s : Machine.State),
    valid_size size = true ->
    bi_base dest <> ScratchRegister -> bi_base dest <> SecondScratchReg ->
    data <> ScratchRegister -> data <> SecondScratchReg ->
    Imm16_IsInSignedRange (bi_offset dest) = true ->
    exists s',
      Machine.run (emitted (ma_store_BaseIndex data dest size extension) m) s = Some s'
      /\ Machine.mem s'
         = Machine.store_bytes (Machine.mem s)
             (if Imm8_IsInSignedRange (bi_offset dest)
              then (Machine.gpr s (bi_base dest) + bi_offset dest) mod 2 ^ 64
              else (Machine.gpr s (bi_base dest)
                    + Machine.gpr s (bi_index dest) * 2 ^ ShiftOf (bi_scale dest)
                    + bi_offset dest) mod 2 ^ 64)
             (size_bytes size) (Machine.gpr s data).
Proof.
  intros data dest size extension m s V Hb0 Hb12 Hd0 Hd12 R16.
  assert (Hoff : to_int16 (bi_offset dest) = bi_offset dest).
  { apply to_int16_small. unfold Imm16_IsInSignedRange in R16.
    apply andb_true_iff in R16. rewrite !Z.leb_le in R16. exact R16. }
  destruct (Imm8_IsInSignedRange (bi_offset dest)) eqn:R8.
  - destruct (ma_store_BaseIndex_small data dest size extension s V R8 Hb12)
      as (pre & s1 & E & R1 & F).
    rewrite (emitted_append _ _ _ _ (E m)), (run_app _ _ _ _ R1).
    rewrite run_store_instr by exact V.
    eexists. split; [reflexivity|].
    unfold Machine.store. cbn [Machine.mem Machine.set_mem].
    rewrite base_or_zero_other by exact Hb0.
    rewrite (mem_unchanged _ _ _ F), !(unchanged_elsewhere _ _ _ _ F) by assumption.
    now rewrite Hoff.
  - destruct (computeScaledAddress_run dest SecondScratchReg s Hb0)
      as (code & s1 & E & R1 & G & F & Mm).
    assert (Em : ma_store_BaseIndex data dest size extension m
                 = Done tt (appendInstrs m
                              (code ++ [store_instr size data SecondScratchReg
                                          (bi_offset dest)]))).
    { unfold ma_store_BaseIndex. rewrite R8.
      apply (seq_emits _ _ tt _ _ E). intros m0.
      apply (ma_store_direct data (mkAddress SecondScratchReg (bi_offset dest))
               size extension m0 V R16). discriminate. }
    rewrite (emitted_append _ _ _ _ Em), (run_app _ _ _ _ R1).
    rewrite run_store_instr by exact V.
    eexists. split; [reflexivity|].
    unfold Machine.store. cbn [Machine.mem Machine.set_mem].
    rewrite base_or_zero_other by discriminate.
    rewrite Mm, G, (F data Hd12 Hd0), Hoff. now rewrite to_uint64_add_l.
Qed.


Lemma ma_store_BaseIndex_uses_the_index_only_with_a_large_offset_witness :
  valid_size SizeDouble = true
  /\ bi_base (mkBaseIndex r3 r4 TimesEight 8) <> ScratchRegister
  /\ bi_base (mkBaseIndex r3 r4 TimesEight 8) <> SecondScratchReg
  /\ r5 <> ScratchRegister /\ r5 <> SecondScratchReg
  /\ Imm16_IsInSignedRange (bi_offset (mkBaseIndex r3 r4 TimesEight 8)) = true
  /\ exists s',
       Machine.run (emitted (ma_store_BaseIndex r5 (mkBaseIndex r3 r4 TimesEight 8)
                               SizeDouble ZeroExtend) emptyMasm)
                   (with_operands r3 r4 0x1000 5) = Some s'
       /\ Machine.mem s'
          = Machine.store_bytes (Machine.mem (with_operands r3 r4 0x1000 5)) 0x1008
              (size_bytes SizeDouble) (Machine.gpr (with_operands r3 r4 0x1000 5) r5).
Proof.
  assert (H1 : valid_size SizeDouble = true) by reflexivity.
  assert (H2 : bi_base (mkBaseIndex r3 r4 TimesEight 8) <> ScratchRegister) by discriminate.
  assert (H3 : bi_base (mkBaseIndex r3 r4 TimesEight 8) <> SecondScratchReg)
    by discriminate.
  assert (H4 : r5 <> ScratchRegister) by discriminate.
  assert (H5 : r5 <> SecondScratchReg) by discriminate.
  assert (H6 : Imm16_IsInSignedRange (bi_offset (mkBaseIndex r3 r4 TimesEight 8)) = true)
    by reflexivity.
  split; [exact H1|]. split; [exact H2|]. split; [exact H3|]. split; [exact H4|].
  split; [exact H5|]. split; [exact H6|].
  destruct (ma_store_BaseIndex_uses_the_index_only_with_a_large_offset r5
              (mkBaseIndex r3 r4 TimesEight 8) SizeDouble ZeroExtend emptyMasm
              (with_operands r3 r4 0x1000 5) H1 H2 H3 H4 H5 H6) as (s' & R & G).
  exists s'. split; [exact R|]. rewrite G. reflexivity.
Defined.

















Lemma ma_cmp_set_code (rd rs rt : Register) (c : Condition) (m : MacroAssembler) :
  In c [Equal; NotEqual; Above; AboveOrEqual; GreaterThanOrEqual; Below; LessThan;
        BelowOrEqual; LessThanOrEqual; GreaterThan] ->
  exists sh tail,
    ma_cmp_set rd rs rt c m =
    Done tt (appendInstrs m ([I_mfcr rd; I_cmpd rs rt; I_mfcr rd; I_rlwinm rd rd sh 30 31]
                             ++ tail))
    /\ 28 <= sh <= 30
    /\ (tail = [] \/ tail = [I_xori rd rd 1]).
Proof.
  destruct m as [b l j]. cbn [In].
  intros [H|[H|[H|[H|[H|[H|[H|[H|[H|[H|[]]]]]]]]]]]; subst c;
    do 2 eexists; (split; [cbv -[app]; flatten_buffer; reflexivity|]);
    (split; [lia|auto]).
Qed.

Lemma cr_nibble_range (f : Machine.CRField) : 0 <= Machine.cr_nibble f < 16.
Proof.
  unfold Machine.cr_nibble.
  destruct (Machine.crLT f), (Machine.crGT f), (Machine.crEQ f), (Machine.crSO f); lia.
Qed.

(** The low byte of the word that mfcr reads holds the fields 6 and 7. *)
Lemma cr_word_low_byte (s : Machine.State) :
  Machine.cr_word s mod 256
  = 16 * Machine.cr_nibble (Machine.cr s cr6) + Machine.cr_nibble (Machine.cr s cr7).
Proof.
  unfold Machine.cr_word. cbn [fold_left].
  pose proof (cr_nibble_range (Machine.cr s cr6)).
  pose proof (cr_nibble_range (Machine.cr s cr7)).
  symmetry.
  apply Z.mod_unique with
    (q := 16 * (16 * (16 * (16 * (16 * (16 * 0 + Machine.cr_nibble (Machine.cr s cr0))
                                        + Machine.cr_nibble (Machine.cr s cr1))
                                  + Machine.cr_nibble (Machine.cr s cr2))
                            + Machine.cr_nibble (Machine.cr s cr3))
                      + Machine.cr_nibble (Machine.cr s cr4))
                + Machine.cr_nibble (Machine.cr s cr5)); lia.
Qed.

(** The two bits that a rotate of the word by 28 to 30 with the mask 30
    to 31 keeps come from the low byte of the word. *)
Lemma rlwinm_keeps_bits_of_the_low_byte (x sh : Z) :
  28 <= sh <= 30 ->
  Z.land (rotl32 x sh) (MASK (30 + 32) (31 + 32)) = (x mod 256 / 2 ^ (32 - sh)) mod 4.
Proof.
  intros Hsh. change (31 + 32) with 63. rewrite MASK_low by lia.
  change (64 - (30 + 32)) with 2. rewrite Z.land_ones by lia. change (2 ^ 2) with 4.
  apply Z.bits_inj'. intros i Hi. change 4 with (2 ^ 2).
  rewrite !testbit_mod_pow2 by lia.
  destruct (Z.ltb_spec i 2); [|reflexivity]. cbn [andb].
  unfold rotl32. rewrite testbit_rotl64 by lia.
  replace (i <? 64) with true by (symmetry; apply Z.ltb_lt; lia). cbn [andb].
  replace ((i - sh) mod 64) with (i - sh + 64)
    by (apply Z.mod_unique with (q := -1); lia).
  rewrite Z.lor_spec, Z.shiftl_spec_high, !testbit_to_uint32 by lia.
  replace (i - sh + 64 <? 32) with false by (symmetry; apply Z.ltb_ge; lia).
  replace (i - sh + 64 - 32 <? 32) with true by (symmetry; apply Z.ltb_lt; lia).
  cbn [andb]. rewrite orb_false_r.
  rewrite <- Z.shiftr_div_pow2, Z.shiftr_spec by lia.
  change 256 with (2 ^ 8). rewrite testbit_mod_pow2 by lia.
  replace (i + (32 - sh) <? 8) with true by (symmetry; apply Z.ltb_lt; lia).
  cbn [andb]. f_equal. lia.
Qed.

(** X23: the value that the words of [ma_cmp_set] leave in [rd] does not
    depend on the registers that they compare.  cmpd sets field 0 of the
    condition register, the most significant four bits of the word that
    mfcr reads; the rotate by 28, 29 or 30 with the mask 30 to 31 keeps
    two bits that lie in the fields 6 and 7.  Two states that agree on
    these two fields get the same value, whatever their registers hold. *)
Theorem ma_cmp_set_does_not_depend_on_the_operands :
  forall (rd rs rt : Register) (c : Condition) (m : MacroAssembler)
         (s1 s2 : Machine.State),
    In c [Equal; NotEqual; Above; AboveOrEqual; GreaterThanOrEqual; Below; LessThan;
          BelowOrEqual; LessThanOrEqual; GreaterThan] ->
    Machine.cr s1 cr6 = Machine.cr s2 cr6 ->
    Machine.cr s1 cr7 = Machine.cr s2 cr7 ->
    exists s1' s2',
      Machine.run (emitted (ma_cmp_set rd rs rt c) m) s1 = Some s1'
      /\ Machine.run (emitted (ma_cmp_set rd rs rt c) m) s2 = Some s2'
      /\ Machine.gpr s1' rd = Machine.gpr s2' rd
      /\ 0 <= Machine.gpr s1' rd < 4.
Proof.
  intros rd rs rt c m s1 s2 Hin H6 H7.
  destruct (ma_cmp_set_code rd rs rt c m Hin) as (sh & tail & E & Hsh & Ht).
  rewrite (emitted_append _ _ _ _ E).
  assert (Low : forall s,
             Machine.cr_word
               (Machine.set_cr (Machine.set_gpr s rd (Machine.cr_word s)) cr0
                  (Machine.compare
                     (to_int64 (Machine.gpr (Machine.set_gpr s rd (Machine.cr_word s)) rs))
                     (to_int64 (Machine.gpr (Machine.set_gpr s rd (Machine.cr_word s)) rt))
                     (Machine.xer_so (Machine.set_gpr s rd (Machine.cr_word s)))))
             mod 256
             = 16 * Machine.cr_nibble (Machine.cr s cr6)
               + Machine.cr_nibble (Machine.cr s cr7)).
  { intros s. rewrite cr_word_low_byte. reflexivity. }
  assert (B : forall v k, 0 <= (v / 2 ^ k) mod 4 < 4)
    by (intros; apply Z.mod_pos_bound; lia).
  destruct Ht as [->| ->].
  - rewrite app_nil_r. eexists. eexists.
    split; [reflexivity|]. split; [reflexivity|].
    rewrite !gpr_set_same.
    rewrite !rlwinm_keeps_bits_of_the_low_byte by exact Hsh.
    rewrite !Low, H6, H7. split; [reflexivity|]. apply B.
  - eexists. eexists. split; [reflexivity|]. split; [reflexivity|].
    rewrite !gpr_set_same.
    rewrite !rlwinm_keeps_bits_of_the_low_byte by exact Hsh.
    rewrite !Low, H6, H7. split; [reflexivity|].
    change (to_uint16 1) with (Z.ones 1).
    set (v := (_ / 2 ^ (32 - sh)) mod 4).
    assert (Hv : 0 <= v < 4) by apply B.
    assert (Hx : v = 0 \/ v = 1 \/ v = 2 \/ v = 3) by lia.
    destruct Hx as [-> | [-> | [-> | ->]]]; cbn; lia.
Qed.

Lemma ma_cmp_set_does_not_depend_on_the_operands_witness :
  In Equal [Equal; NotEqual; Above; AboveOrEqual; GreaterThanOrEqual; Below; LessThan;
            BelowOrEqual; LessThanOrEqual; GreaterThan]
  /\ Machine.cr (with_operands r3 r4 7 7) cr6 = Machine.cr (with_operands r3 r4 7 8) cr6
  /\ Machine.cr (with_operands r3 r4 7 7) cr7 = Machine.cr (with_operands r3 r4 7 8) cr7
  /\ exists s1' s2',
       Machine.run (emitted (ma_cmp_set r5 r3 r4 Equal) emptyMasm) (with_operands r3 r4 7 7)
       = Some s1'
       /\ Machine.run (emitted (ma_cmp_set r5 r3 r4 Equal) emptyMasm)
                      (with_operands r3 r4 7 8) = Some s2'
       /\ Machine.gpr s1' r5 = Machine.gpr s2' r5.
Proof.
  assert (H : In Equal [Equal; NotEqual; Above; AboveOrEqual; GreaterThanOrEqual; Below;
                        LessThan; BelowOrEqual; LessThanOrEqual; GreaterThan])
    by (left; reflexivity).
  split; [exact H|]. split; [reflexivity|]. split; [reflexivity|].
  destruct (ma_cmp_set_does_not_depend_on_the_operands r5 r3 r4 Equal emptyMasm
              (with_operands r3 r4 7 7) (with_operands r3 r4 7 8) H eq_refl eq_refl)
    as (s1' & s2' & R1 & R2 & G & _).
  exists s1', s2'. split; [exact R1|]. split; [exact R2|exact G].
Defined.

(** The register forms of the add and the subtract with an overflow test
    stop at their assertions when an operand is the scratch register. *)
Lemma ma_addTestOverflow_asserts_rs (rd rt : Register) (overflow : Label)
      (m : MacroAssembler) :
  completed (ma_addTestOverflow rd ScratchRegister rt overflow m) = false.
Proof. reflexivity. Qed.

Lemma ma_subTestOverflow_asserts (rd rs rt : Register) (overflow : Label)
      (m : MacroAssembler) :
  rs = ScratchRegister \/ rt = ScratchRegister ->
  completed (ma_subTestOverflow rd rs rt overflow m) = false.
Proof.
  intros H. unfold ma_subTestOverflow, bindM at 1, MOZ_ASSERT at 1.
  destruct (Z.eqb_spec rs ScratchRegister) as [Hs|Hs]; cbn [negb]; [reflexivity|].
  destruct H as [H|H]; [contradiction|]. subst rt.
  unfold bindM at 1, MOZ_ASSERT at 1.
  change (ScratchRegister =? ScratchRegister) with true. reflexivity.
Qed.

(** X24: [ma_subTestOverflow] with an immediate completes exactly when
    the immediate is not INT32_MIN and [rs] is not the scratch register.
    For INT32_MIN, whose negation is not a 32-bit immediate, the code
    loads the immediate into the scratch register and passes that
    register as [rt] to the register form, which asserts that [rt] is
    not the scratch register: the path made for INT32_MIN always stops at
    that assertion (or, for [rs] the scratch register, at the one before
    it). *)
Theorem ma_subTestOverflow_imm_completes_unless_INT32_MIN :
  forall (rd rs : Register) (imm : Z) (overflow : Label) (m : MacroAssembler),
    INT32_MIN <= imm <= INT32_MAX ->
    (completed (ma_subTestOverflow_imm rd rs imm overflow m) = true
     <-> (imm <> INT32_MIN /\ rs <> ScratchRegister)).
Proof.
  intros rd rs imm overflow m _. unfold ma_subTestOverflow_imm.
  destruct (Z.eqb_spec imm INT32_MIN) as [Hi|Hi]; cbn [negb].
  - destruct (ma_li_Imm32_emits ScratchRegister (Imm32 imm)) as [code Hc].
    rewrite (bind_Done _ _ _ _ _ (Hc m)).
    rewrite ma_subTestOverflow_asserts by (right; reflexivity).
    split; [discriminate|]. intros [H _]. contradiction.
  - unfold ma_addTestOverflow_imm.
    destruct (ma_li_Imm32_emits SecondScratchReg (Imm32 (- imm))) as [code Hc].
    rewrite (bind_Done _ _ _ _ _ (Hc m)).
    destruct (Z.eq_dec rs ScratchRegister) as [Hs|Hs].
    + subst rs. rewrite ma_addTestOverflow_asserts_rs.
      split; [discriminate|]. intros [_ H]. now contradiction H.
    + rewrite ma_addTestOverflow_run by (assumption || discriminate).
      unfold ma_bc, default_jumpKind. rewrite ma_bc_cr_long_completes.
      split; auto.
Qed.

Lemma ma_subTestOverflow_imm_completes_unless_INT32_MIN_witness :
  INT32_MIN <= INT32_MIN <= INT32_MAX
  /\ completed (ma_subTestOverflow_imm r3 r4 INT32_MIN newLabel emptyMasm) = false.
Proof.
  assert (H : INT32_MIN <= INT32_MIN <= INT32_MAX) by (unfold INT32_MIN, INT32_MAX; lia).
  split; [exact H|].
  destruct (ma_subTestOverflow_imm_completes_unless_INT32_MIN r3 r4 INT32_MIN newLabel
              emptyMasm H) as [F _].
  destruct (completed (ma_subTestOverflow_imm r3 r4 INT32_MIN newLabel emptyMasm));
    [|reflexivity].
  destruct (F eq_refl) as [N _]. now contradiction N.
Defined.

(* ----------------------------------------------------------------- *)
(** *** Register names *)

Lemma FromName_loop_finds (GetName : Z -> String.string) (name : String.string)
      (n : nat) (i k : Z) :
  i <= k < i + Z.of_nat n ->
  GetName k = name ->
  (forall j, i <= j < k -> GetName j <> name) ->
  FromName_loop GetName name n i = Some k.
Proof.
  revert i. induction n as [|n IH]; intros i Hk Hn Hfirst; [lia|].
  cbn [FromName_loop].
  destruct (String.eqb_spec (GetName i) name) as [E|E].
  - destruct (Z.eq_dec i k) as [->|Hne]; [reflexivity|].
    exfalso. apply (Hfirst i); [lia|exact E].
  - assert (i <> k) by (intros ->; contradiction).
    apply IH; [lia|exact Hn|]. intros j Hj. apply Hfirst. lia.
Qed.

Lemma FromName_loop_none (GetName : Z -> String.string) (name : String.string)
      (n : nat) (i : Z) :
  (forall j, i <= j < i + Z.of_nat n -> GetName j <> name) ->
  FromName_loop GetName name n i = None.
Proof.
  revert i. induction n as [|n IH]; intros i H; [reflexivity|].
  cbn [FromName_loop].
  destruct (String.eqb_spec (GetName i) name) as [E|E].
  - exfalso. apply (H i); [lia|exact E].
  - apply IH. intros j Hj. apply H. lia.
Qed.

(** X25: [FromName] undoes [GetName].  When no two of the [Total] codes
    have the same name, [FloatRegisters::FromName] gives back the code
    of every name that [GetName] gives, and so does [Registers::FromName]
    for every name that is not one of the four it checks first (sp, r1,
    r12, r3); for these four it answers 1, 1, 12 and 3 without looking at
    the names.  A name that no code has gives [Invalid]. *)
Theorem FromName_undoes_GetName :
  forall (GetName : Z -> String.string) (Total Invalid : Z) (i : Z),
    (forall a b, 0 <= a < Total -> 0 <= b < Total -> GetName a = GetName b -> a = b) ->
    0 <= i < Total ->
    FloatRegisters_FromName GetName Total Invalid (GetName i) = i
    /\ (~ In (GetName i) ["sp"; "r1"; "r12"; "r3"]%string ->
        Registers_FromName GetName Total Invalid (GetName i) = i)
    /\ Registers_FromName GetName Total Invalid "sp"%string = 1
    /\ Registers_FromName GetName Total Invalid "r1"%string = 1
    /\ Registers_FromName GetName Total Invalid "r12"%string = 12
    /\ Registers_FromName GetName Total Invalid "r3"%string = 3
    /\ (forall name, (forall j, 0 <= j < Total -> GetName j <> name) ->
                     FloatRegisters_FromName GetName Total Invalid name = Invalid
                     /\ (~ In name ["sp"; "r1"; "r12"; "r3"]%string ->
                         Registers_FromName GetName Total Invalid name = Invalid)).
Proof.
  intros GetName Total Invalid i Hinj Hi.
  assert (L : FromName_loop GetName (GetName i) (Z.to_nat Total) 0 = Some i).
  { apply FromName_loop_finds; [lia|reflexivity|].
    intros j Hj E. assert (j = i) by (apply Hinj; [lia|lia|exact E]). lia. }
  assert (A : forall name, ~ In name ["sp"; "r1"; "r12"; "r3"]%string ->
                           Registers_FromName GetName Total Invalid name
                           = match FromName_loop GetName name (Z.to_nat Total) 0 with
                             | Some i => i
                             | None => Invalid
                             end).
  { intros name Hn. unfold Registers_FromName. cbn [In] in Hn.
    destruct (String.eqb_spec name "sp"%string) as [->|_];
      [exfalso; apply Hn; auto 6|].
    destruct (String.eqb_spec name "r1"%string) as [->|_];
      [exfalso; apply Hn; auto 6|].
    destruct (String.eqb_spec name "r12"%string) as [->|_];
      [exfalso; apply Hn; auto 6|].
    destruct (String.eqb_spec name "r3"%string) as [->|_];
      [exfalso; apply Hn; auto 6|]. reflexivity. }
  split; [unfold FloatRegisters_FromName; now rewrite L|].
  split; [intros Hn; rewrite (A _ Hn); now rewrite L|].
  do 4 (split; [reflexivity|]).
  intros name Hno.
  assert (N : FromName_loop GetName name (Z.to_nat Total) 0 = None)
    by (apply FromName_loop_none; intros j Hj; apply Hno; lia).
  split; [unfold FloatRegisters_FromName; now rewrite N|].
  intros Hn. rewrite (A _ Hn). now rewrite N.
Qed.

Lemma FromName_undoes_GetName_witness :
  (forall a b, 0 <= a < 4 -> 0 <= b < 4 -> four_names a = four_names b -> a = b)
  /\ 0 <= 2 < 4
  /\ FloatRegisters_FromName four_names 4 32 (four_names 2) = 2.
Proof.
  assert (H : forall a b, 0 <= a < 4 -> 0 <= b < 4 -> four_names a = four_names b -> a = b).
  { intros a b Ha Hb.
    assert (Ca : a = 0 \/ a = 1 \/ a = 2 \/ a = 3) by lia.
    assert (Cb : b = 0 \/ b = 1 \/ b = 2 \/ b = 3) by lia.
    destruct Ca as [-> | [-> | [-> | ->]]]; destruct Cb as [-> | [-> | [-> | ->]]];
      cbn; intros E; first [reflexivity | discriminate E]. }
  split; [exact H|]. split; [lia|].
  exact (proj1 (FromName_undoes_GetName four_names 4 32 2 H ltac:(lia))).
Defined.
